(** * Beam core: block_crypt.cpp

    A shallow embedding of the consensus core of [core/block_crypt.cpp]
    (height ranges, ledger objects, the validation [Context], cut-through,
    the packed [Difficulty] and the chain-work proof sampler), followed by
    the properties established about it.

    Conventions.  A [uintN_t] is a [Z] in [[0, 2^N)]; every operation that can
    leave the range is followed by an explicit reduction.  An [int] result of
    a three-way comparison is a [Z].  A nullable pointer is an [option].  A
    [bool]-returning validation routine that also updates state returns
    [None] for [false] (its callers abandon the state at once) and [Some]
    of the updated state for [true]. *)

From Stdlib Require Import ZArith List Bool Lia Permutation Sorted.
Import ListNotations.
Local Open Scope Z_scope.
Local Set Warnings "-register-all".

(** ** Machine integers *)

Definition u8  (x : Z) : Z := x mod 2 ^ 8.
Definition u32 (x : Z) : Z := x mod 2 ^ 32.
Definition u64 (x : Z) : Z := x mod 2 ^ 64.

(** [Height] is [uint64_t]; [MaxHeight] is [Height(-1)]. *)
Definition MaxHeight : Z := 2 ^ 64 - 1.

(** The comparison macros of the source, in continuation style: the
    continuation [k] is the code that follows the macro. *)
Definition CMP_SIMPLE (a b : Z) (k : Z) : Z :=
  if a <? b then -1 else if a >? b then 1 else k.

Definition CMP_NONZERO (n : Z) (k : Z) : Z :=
  if n =? 0 then k else n.

Definition CMP_PTRS {T : Type} (cmp : T -> T -> Z) (a b : option T) (k : Z) : Z :=
  match a with
  | Some x =>
      match b with
      | None => 1
      | Some y => CMP_NONZERO (cmp x y) k
      end
  | None =>
      match b with
      | Some _ => -1
      | None => k
      end
  end.

(** Two pointers compare equal when both are null or both point to items
    that compare equal. *)
Definition same_ptr {T : Type} (cmp : T -> T -> Z) (a b : option T) : Prop :=
  match a, b with
  | Some x, Some y => cmp x y = 0
  | None, None => True
  | _, _ => False
  end.

(** ** ECC::uintBig (256 bits, big-endian bytes) *)

Module uintBig.

Definition nBits : Z := 256.
Definition nBytes : nat := 32.
Definition modulus : Z := 2 ^ nBits.

(** Modelled from the spec: the class [ECC::uintBig_t] (ecc.h) is not part
    of the sources at hand; the spec calls it a 256-bit big integer.
    Arithmetic is modulo [2^256]. *)
Definition norm (x : Z) : Z := x mod modulus.

(** Modelled from the spec: [uintBig::Negate], two's complement. *)
Definition Negate (x : Z) : Z := norm (- x).

(** Modelled from the spec: [uintBig::operator +=]. *)
Definition add (x y : Z) : Z := norm (x + y).

(** Modelled from the spec: [uintBig::operator *] at the width of the
    operands. *)
Definition mul (x y : Z) : Z := norm (x * y).

(** Modelled from the spec: [uintBig::Inv], all bits flipped. *)
Definition Inv (x : Z) : Z := modulus - 1 - x.

(** Modelled from the spec: [uintBig::AssignSafe(val, nShift)], the value
    shifted from the least significant bit, bits past the width dropped. *)
Definition AssignSafe (val nShift : Z) : Z := norm (Z.shiftl val nShift).

(** The byte view [m_pData]: most significant byte first. *)
Fixpoint of_bytes_acc (acc : Z) (bs : list Z) : Z :=
  match bs with
  | [] => acc
  | b :: bs' => of_bytes_acc (acc * 256 + b) bs'
  end.

Definition of_bytes (bs : list Z) : Z := of_bytes_acc 0 bs.

Fixpoint to_bytes_rev (n : nat) (x : Z) : list Z :=
  match n with
  | O => []
  | S n' => (x mod 256) :: to_bytes_rev n' (x / 256)
  end.

Definition to_bytes (x : Z) : list Z := rev (to_bytes_rev nBytes x).

Definition bytes_ok (bs : list Z) : Prop := Forall (fun b => 0 <= b < 256) bs.

End uintBig.

(** ** The primitives facade

    Curve points, scalars, signatures, range proofs, the hash processor and
    the oracle are external to [block_crypt.cpp]; the code only uses the
    operations listed here. *)

Class Primitives : Type := {
  (** [ECC::Point], the serialized form, with its three-way comparison. *)
  Point : Type;
  Point_cmp : Point -> Point -> Z;
  Point_cmp_refl : forall p, Point_cmp p p = 0;

  (** [ECC::Point::Native], an abelian group. *)
  Native : Type;
  Native_Zero : Native;
  Native_add : Native -> Native -> Native;
  Native_neg : Native -> Native;
  Native_eqb : Native -> Native -> bool;
  Native_mul : Native -> Z -> Native;
  Native_Import : Point -> option Native;
  Native_eqb_eq : forall a b, Native_eqb a b = true <-> a = b;
  Native_add_comm : forall a b, Native_add a b = Native_add b a;
  Native_add_assoc : forall a b c,
      Native_add a (Native_add b c) = Native_add (Native_add a b) c;
  Native_add_0_l : forall a, Native_add Native_Zero a = a;
  Native_add_neg : forall a, Native_add a (Native_neg a) = Native_Zero;

  (** [ECC::Scalar] and the generators [G], [H], [H_Big] of the context. *)
  Scalar : Type;
  G_mul : Scalar -> Native;
  H_mul : Z -> Native;
  H_Big_mul : Z -> Native;

  (** [ECC::Signature]. *)
  Signature : Type;
  Signature_cmp : Signature -> Signature -> Z;
  Signature_cmp_refl : forall s, Signature_cmp s s = 0;
  Signature_IsValid : Signature -> Z -> Native -> bool;

  (** [ECC::Hash::Processor]: absorb with [<<], squeeze with [>>]. *)
  Processor : Type;
  hp_new : Processor;
  hp_u64 : Processor -> Z -> Processor;
  hp_u32 : Processor -> Z -> Processor;
  hp_bool : Processor -> bool -> Processor;
  hp_hash : Processor -> Z -> Processor;
  hp_point : Processor -> Point -> Processor;
  hp_bytes : Processor -> list Z -> Processor;
  hp_out : Processor -> Z;

  (** [ECC::Oracle]. *)
  Oracle : Type;
  Oracle_new : Oracle;
  Oracle_u64 : Oracle -> Z -> Oracle;
  Oracle_hash : Oracle -> Z -> Oracle;
  Oracle_out : Oracle -> Z * Oracle;

  (** [ECC::RangeProof::Public] and [ECC::RangeProof::Confidential]. *)
  Public : Type;
  Public_m_Value : Public -> Z;
  Public_IsValid : Public -> Native -> Oracle -> bool;
  Public_cmp : Public -> Public -> Z;
  Confidential : Type;
  Confidential_IsValid : Confidential -> Native -> Oracle -> bool;
  Confidential_cmp : Confidential -> Confidential -> Z
}.

(** ** Rules *)

Record Rules : Type := {
  CoinbaseEmission : Z;
  MaturityCoinbase : Z;
  MaturityStd : Z;
  AllowPublicUtxos : bool;
  FakePoW : bool
}.

Definition HeightGenesis : Z := 1.

(** The fields of [Rules] are [Amount] and [Height], both [uint64_t]. *)
Definition Rules_wf (r : Rules) : Prop :=
  0 <= CoinbaseEmission r < 2 ^ 64 /\
  0 <= MaturityCoinbase r < 2 ^ 64 /\
  0 <= MaturityStd r < 2 ^ 64.

(** ** HeightRange *)

Module HeightRange.

Record t : Type := Build { m_Min : Z; m_Max : Z }.

Definition Reset : t := Build 0 MaxHeight.

Definition Intersect (r x : t) : t :=
  Build (Z.max (m_Min r) (m_Min x)) (Z.min (m_Max r) (m_Max x)).

Definition IsEmpty (r : t) : bool := m_Min r >? m_Max r.

Definition IsInRangeRelative (r : t) (dh : Z) : bool :=
  dh <=? u64 (m_Max r - m_Min r).

Definition IsInRange (r : t) (h : Z) : bool :=
  IsInRangeRelative r (u64 (h - m_Min r)).

End HeightRange.

(** ** HeightAdd *)

Definition HeightAdd (trg val : Z) : Z :=
  let trg := u64 (trg + val) in
  if trg <? val then MaxHeight else trg.

(** ** CommitmentAndMaturity, Input *)

Module Input.
Section Defs.
Context {P : Primitives}.

Record t : Type := Build { m_Commitment : Point; m_Maturity : Z }.

Definition cmp_CaM (a v : t) : Z :=
  CMP_NONZERO (Point_cmp (m_Commitment a) (m_Commitment v))
    (CMP_SIMPLE (m_Maturity a) (m_Maturity v) 0).

Definition cmp (a v : t) : Z := cmp_CaM a v.

End Defs.
End Input.

(** ** Output *)

Module Output.
Section Defs.
Context {P : Primitives}.

(** [Output] derives from [CommitmentAndMaturity]; the base part is the
    field [base]. *)
Record t : Type := Build {
  base : Input.t;
  m_Coinbase : bool;
  m_Incubation : Z;
  m_pConfidential : option Confidential;
  m_pPublic : option Public
}.

Definition m_Commitment (o : t) : Point := Input.m_Commitment (base o).
Definition m_Maturity (o : t) : Z := Input.m_Maturity (base o).

(** [comm.Import] leaves the zero point in [comm] when it fails. *)
Definition IsValid (r : Rules) (o : t) : bool * Native :=
  match Native_Import (m_Commitment o) with
  | None => (false, Native_Zero)
  | Some comm =>
      let oracle := Oracle_u64 Oracle_new (m_Incubation o) in
      match m_pConfidential o with
      | Some pConfidential =>
          if m_Coinbase o then (false, comm)
          else
            match m_pPublic o with
            | Some _ => (false, comm)
            | None => (Confidential_IsValid pConfidential comm oracle, comm)
            end
      | None =>
          match m_pPublic o with
          | None => (false, comm)
          | Some pPublic =>
              if negb (AllowPublicUtxos r || m_Coinbase o) then (false, comm)
              else (Public_IsValid pPublic comm oracle, comm)
          end
      end
  end.

Definition cmp (a v : t) : Z :=
  CMP_NONZERO (Input.cmp_CaM (base a) (base v))
    (CMP_SIMPLE (Z.b2z (m_Coinbase a)) (Z.b2z (m_Coinbase v))
       (CMP_SIMPLE (m_Incubation a) (m_Incubation v)
          (CMP_PTRS Confidential_cmp (m_pConfidential a) (m_pConfidential v)
             (CMP_PTRS Public_cmp (m_pPublic a) (m_pPublic v) 0)))).

Definition get_MinMaturity (r : Rules) (o : t) (h : Z) : Z :=
  let h := HeightAdd h (if m_Coinbase o then MaturityCoinbase r
                        else MaturityStd r) in
  let h := HeightAdd h (m_Incubation o) in
  h.

End Defs.
End Output.

(** ** Difficulty *)

(** The constants of [struct Difficulty] are declared in block_crypt.h, which
    is not among the sources; they are parameters here. *)
Class DifficultyConsts : Type := {
  s_MantissaBits : Z;
  s_MaxOrder : Z;
  s_Inf : Z
}.

(** What the code relies on: a shift count below the word size, and every
    order up to [s_MaxOrder + 1] (the order of [s_Inf]) fitting above the
    mantissa in 32 bits. *)
Definition DifficultyConsts_wf (D : DifficultyConsts) : Prop :=
  0 <= s_MantissaBits < 32 /\
  0 <= s_MaxOrder /\
  (s_MaxOrder + 1) * 2 ^ s_MantissaBits < 2 ^ 32.

Module Difficulty.
Section Defs.
Context {DC : DifficultyConsts}.

(** [m_Packed] is the only field. *)
Definition Pack (order mantissa : Z) : Z :=
  if order <=? s_MaxOrder then
    let mantissa := Z.land mantissa (u32 (u32 (Z.shiftl 1 s_MantissaBits) - 1)) in
    Z.lor mantissa (u32 (Z.shiftl order s_MantissaBits))
  else s_Inf.

Definition Unpack (m_Packed : Z) : Z * Z :=
  let order := Z.shiftr m_Packed s_MantissaBits in
  let nLeadingBit := u32 (Z.shiftl 1 s_MantissaBits) in
  let mantissa :=
    Z.lor nLeadingBit (Z.land m_Packed (u32 (nLeadingBit - 1))) in
  (order, mantissa).

Definition UnpackRaw (m_Packed : Z) : Z :=
  if m_Packed <? s_Inf then
    let '(order, mantissa) := Unpack m_Packed in
    uintBig.AssignSafe mantissa order
  else uintBig.Inv 0.

(** [Dec(res, base)]: [res = base - raw]. *)
Definition Dec (m_Packed : Z) (base : Z) : Z :=
  let res := UnpackRaw m_Packed in
  let res := uintBig.Negate res in
  uintBig.add res base.

(** [Inc(res, base)]: [res = raw + base]. *)
Definition Inc (m_Packed : Z) (base : Z) : Z :=
  let res := UnpackRaw m_Packed in
  uintBig.add res base.

(** [Inc(res)]: [res += raw]. *)
Definition Inc_acc (m_Packed : Z) (res : Z) : Z :=
  let d := UnpackRaw m_Packed in
  uintBig.add res d.

(** Modelled from the spec: [memis0(p, n)] is declared elsewhere; it tells
    whether the first [n] bytes at [p] are all zero. *)
Definition memis0 (p : list Z) (n : nat) : bool :=
  forallb (fun x => x =? 0) (firstn n p).

(** [IsTargetReached(hv)]; [uintHuge] has twice the bits of [uintBig], its
    product is taken at that width and its bytes are big-endian. *)
Definition IsTargetReached (m_Packed : Z) (hv : Z) : bool :=
  if m_Packed >? s_Inf then false
  else
    let val := UnpackRaw m_Packed in
    let a := hv in
    let b := val in
    let a := (a * b) mod 2 ^ (2 * uintBig.nBits) in
    let a_nBytes := (2 * uintBig.nBytes)%nat in
    memis0 (rev (uintBig.to_bytes_rev a_nBytes a))
           (a_nBytes / 2 - Z.to_nat (Z.shiftr s_MantissaBits 3)).

(** The rough loop of [Adjust(src, trg, nMaxOrderChange, order, mantissa)];
    [n] is [nMaxOrderChange - i].  [inl order] is a [return] from the loop,
    [inr (src, order)] is its [break]. *)
Fixpoint Adjust_loop (n : nat) (bIncrease : bool) (src trg order : Z)
  : Z + Z * Z :=
  match n with
  | O => inl order
  | S n' =>
      if bIncrease then
        let srcAdj := u32 (Z.shiftl src 1) in
        if srcAdj >? trg then inr (src, order)
        else
          let order := u32 (order + 1) in
          if order >? s_MaxOrder then inl order
          else Adjust_loop n' bIncrease srcAdj trg order
      else
        let srcAdj := Z.shiftr src 1 in
        if srcAdj <? trg then inr (src, order)
        else
          let order' := u32 (order - 1) in
          if order =? 0 then inl order'
          else Adjust_loop n' bIncrease srcAdj trg order'
  end.

(** The mantissa step that follows the [break]; [None] is a division by
    zero. *)
Definition Adjust_mantissa (bIncrease : bool) (src trg order mantissa : Z)
  : option (Z * Z) :=
  let val := trg in
  let val := u64 (val * mantissa) in
  if src =? 0 then None
  else
    let val := val / src in
    let mantissa := u32 val in
    let nLeadingBit := Z.shiftr mantissa s_MantissaBits in
    if bIncrease then
      if nLeadingBit >? 1 then Some (u32 (order + 1), Z.shiftr mantissa 1)
      else Some (order, mantissa)
    else
      if nLeadingBit =? 0 then Some (u32 (order - 1), u32 (Z.shiftl mantissa 1))
      else Some (order, mantissa).

(** [Adjust(src, trg, nMaxOrderChange, order, mantissa)]: the new [order] and
    [mantissa]. *)
Definition Adjust_parts (src trg nMaxOrderChange order mantissa : Z)
  : option (Z * Z) :=
  let bIncrease := src <? trg in
  match Adjust_loop (Z.to_nat nMaxOrderChange) bIncrease src trg order with
  | inl order => Some (order, mantissa)
  | inr (src, order) => Adjust_mantissa bIncrease src trg order mantissa
  end.

(** [Adjust(src, trg, nMaxOrderChange)]: the new [m_Packed];
    [signed(order) >= 0] reads the top bit of [order]. *)
Definition Adjust (m_Packed : Z) (src trg nMaxOrderChange : Z) : option Z :=
  if negb (negb (src =? 0) || negb (trg =? 0)) then Some m_Packed
  else
    let '(order, mantissa) := Unpack m_Packed in
    match Adjust_parts src trg nMaxOrderChange order mantissa with
    | None => None
    | Some (order, mantissa) =>
        if order <? 2 ^ 31 then Some (Pack order mantissa) else Some 0
    end.

(** A relation between the constants that the properties of [Raw] values
    need: the largest shift keeps the mantissa inside [Raw], and [s_Inf] is
    the first packed value past the largest order. *)
Definition consts_fit : Prop :=
  0 <= s_MantissaBits /\ 0 <= s_MaxOrder /\
  s_MantissaBits + s_MaxOrder < uintBig.nBits /\
  s_Inf = (s_MaxOrder + 1) * 2 ^ s_MantissaBits.

End Defs.
End Difficulty.

(** ** AmountBig *)

Module AmountBig.
Section Defs.
Context {P : Primitives}.

Record t : Type := Build { Lo : Z; Hi : Z }.

Definition Zero : t := Build 0 0.

(** [operator += (Amount)] *)
Definition add_Amount (a : t) (x : Z) : t :=
  let lo := u64 (Lo a + x) in
  let hi := if lo <? x then u64 (Hi a + 1) else Hi a in
  Build lo hi.

(** [operator -= (Amount)] *)
Definition sub_Amount (a : t) (x : Z) : t :=
  let hi := if Lo a <? x then u64 (Hi a - 1) else Hi a in
  Build (u64 (Lo a - x)) hi.

(** [operator += (const AmountBig&)] *)
Definition add (a x : t) : t :=
  let a := add_Amount a (Lo x) in
  Build (Lo a) (u64 (Hi a + Hi x)).

(** [operator -= (const AmountBig&)] *)
Definition sub (a x : t) : t :=
  let a := sub_Amount a (Lo x) in
  Build (Lo a) (u64 (Hi a - Hi x)).

(** [Export]: [Lo] in the low 64 bits, [Hi] in the next 64. *)
Definition Export (a : t) : Z :=
  Z.lor (Lo a) (Z.shiftl (Hi a) 64).

(** Both halves are [uint64_t]. *)
Definition wf (a : t) : Prop :=
  0 <= Lo a < 2 ^ 64 /\ 0 <= Hi a < 2 ^ 64.

(** The number held, and the [AmountBig] holding a number modulo [2^128]. *)
Definition value (a : t) : Z := Lo a + Hi a * 2 ^ 64.

Definition of_value (v : Z) : t :=
  Build (v mod 2 ^ 64) ((v / 2 ^ 64) mod 2 ^ 64).

Definition AddTo (a : t) (res : Native) : Native :=
  if negb (Hi a =? 0) then Native_add res (H_Big_mul (Export a))
  else if negb (Lo a =? 0) then Native_add res (H_mul (Lo a))
  else res.

End Defs.
End AmountBig.

(** ** TxKernel *)

Module TxKernel.
Section Defs.
Context {P : Primitives}.

Record HashLock : Type := { m_Preimage : Z }.

Inductive t : Type := Build {
  m_Excess : Point;
  m_Multiplier : Z;
  m_Signature : Signature;
  m_Fee : Z;
  m_Height : HeightRange.t;
  m_pHashLock : option HashLock;
  m_vNested : list t
}.

(** The loop of [cmp] over the two nested lists; [c] is [cmp] itself. *)
Definition cmp_nested (c : t -> t -> Z) : list t -> list t -> Z :=
  fix loop (it0 it1 : list t) {struct it0} : Z :=
    match it0 with
    | [] =>
        match it1 with
        | [] => 0
        | _ :: _ => -1
        end
    | x0 :: it0' =>
        match it1 with
        | [] => 1
        | x1 :: it1' => CMP_NONZERO (c x0 x1) (loop it0' it1')
        end
    end.

Fixpoint cmp (k v : t) {struct k} : Z :=
  match k with
  | Build ex mu sg fee hr _ nested =>
      CMP_NONZERO (Point_cmp ex (m_Excess v))
     (CMP_SIMPLE mu (m_Multiplier v)
     (CMP_NONZERO (Signature_cmp sg (m_Signature v))
     (CMP_SIMPLE fee (m_Fee v)
     (CMP_SIMPLE (HeightRange.m_Min hr) (HeightRange.m_Min (m_Height v))
     (CMP_SIMPLE (HeightRange.m_Max hr) (HeightRange.m_Max (m_Height v))
     (cmp_nested cmp nested (m_vNested v)))))))
  end.

(** [operator >] *)
Definition gt (a b : t) : bool := cmp a b >? 0.

Definition HashToID (k : t) (hv : Z) : Z :=
  let hv :=
    hp_out (hp_u32 (hp_point (hp_hash hp_new hv) (m_Excess k)) (m_Multiplier k)) in
  if hv =? 0 then uintBig.add hv 1 else hv.

(** What [Traverse] leaves behind on success: [hv], [*pFee], [*pExcess]. *)
Definition TraverseState : Type :=
  (Z * option AmountBig.t * option Native)%type.

(** The loop of [Traverse] over [m_vNested]; [trav v] is
    [v.Traverse(hv, pFee, pExcess, this, NULL)]. *)
Definition Traverse_nested
    (trav : t -> Z -> option AmountBig.t -> option Native -> option TraverseState)
  : list t -> option t -> Processor -> Z -> option AmountBig.t -> option Native ->
    option (Processor * TraverseState) :=
  fix loop (it : list t) (p0Krn : option t) (hp : Processor) (hv : Z)
           (pFee : option AmountBig.t) (pExcess : option Native) {struct it} :=
    match it with
    | [] => Some (hp_bool hp true, (hv, pFee, pExcess))
    | v :: it' =>
        let hp := hp_bool hp false in
        if match p0Krn with
           | Some k0 => gt k0 v
           | None => false
           end
        then None
        else
          match trav v hv pFee pExcess with
          | None => None
          | Some (hv, pFee, pExcess) =>
              let hv := HashToID v hv in
              loop it' (Some v) (hp_hash hp hv) hv pFee pExcess
          end
    end.

(** The end of [Traverse], from [hp >> hv] on: the signature check and the
    two accumulations. *)
Definition Traverse_sign (ex : Point) (mu : Z) (sg : Signature) (fee : Z)
    (hp : Processor) (pFee : option AmountBig.t) (pExcess : option Native)
  : option TraverseState :=
  let hv := hp_out hp in
  let done (pExcess : option Native) : option TraverseState :=
    Some (hv,
          match pFee with
          | Some f => Some (AmountBig.add_Amount f fee)
          | None => None
          end,
          pExcess) in
  match pExcess with
  | Some exc =>
      match Native_Import ex with
      | None => None
      | Some pt =>
          let pt :=
            if negb (mu =? 0) then Native_mul pt (u32 (mu + 1)) else pt in
          if negb (Signature_IsValid sg hv pt) then None
          else done (Some (Native_add exc pt))
      end
  | None => done None
  end.

Fixpoint Traverse (k : t) (hv : Z) (pFee : option AmountBig.t)
    (pExcess : option Native) (pParent : option t) (pLockImage : option Z)
    {struct k} : option TraverseState :=
  match k with
  | Build ex mu sg fee hr hl nested =>
      if match pParent with
         | Some parent =>
             negb (mu =? m_Multiplier parent)
             || (HeightRange.m_Min hr >? HeightRange.m_Min (m_Height parent))
             || (HeightRange.m_Max hr <? HeightRange.m_Max (m_Height parent))
         | None => false
         end
      then None
      else
        let hp :=
          hp_bool
            (hp_u64 (hp_u64 (hp_u64 hp_new fee) (HeightRange.m_Min hr))
               (HeightRange.m_Max hr))
            (match hl with Some _ => true | None => false end) in
        let '(hp, hv) :=
          match hl with
          | Some lock =>
              match pLockImage with
              | Some image => (hp_hash hp image, hv)
              | None =>
                  let hv := hp_out (hp_hash hp_new (m_Preimage lock)) in
                  (hp_hash hp hv, hv)
              end
          | None => (hp, hv)
          end in
        match Traverse_nested
                (fun v hv pFee pExcess => Traverse v hv pFee pExcess (Some k) None)
                nested None hp hv pFee pExcess with
        | None => None
        | Some (hp, (_, pFee, pExcess)) =>
            Traverse_sign ex mu sg fee hp pFee pExcess
        end
  end.

(** Every fee of the kernel tree is an [Amount], a [uint64_t]. *)
Fixpoint fees_ok (k : t) : Prop :=
  match k with
  | Build _ _ _ fee _ _ nested =>
      0 <= fee < 2 ^ 64 /\
      (fix all (l : list t) : Prop :=
         match l with
         | [] => True
         | v :: l' => fees_ok v /\ all l'
         end) nested
  end.

(** [IsValid(fee, exc)]; the local [hv] is written before it is read. *)
Definition IsValid (k : t) (fee : AmountBig.t) (exc : Native)
  : option (AmountBig.t * Native) :=
  match Traverse k 0 (Some fee) (Some exc) None None with
  | Some (_, Some fee, Some exc) => Some (fee, exc)
  | _ => None
  end.

(** [get_Hash(out, pLockImage)]: [Traverse] without fee and excess.  Its
    result is ignored by the source; [None] stands for the runs in which
    [Traverse] gives up and leaves [out] half-way. *)
Definition get_Hash (k : t) (out : Z) (pLockImage : option Z) : option Z :=
  match Traverse k out None None None pLockImage with
  | Some (hv, _, _) => Some hv
  | None => None
  end.

(** [get_ID(out, pLockImage)] *)
Definition get_ID (k : t) (out : Z) (pLockImage : option Z) : option Z :=
  match get_Hash k out pLockImage with
  | Some out => Some (HashToID k out)
  | None => None
  end.

(** The fee of a kernel together with the fees of the kernels nested in it,
    at any depth. *)
Fixpoint fee_total (k : t) : Z :=
  match k with
  | Build _ _ _ fee _ _ nested =>
      fee + fold_right Z.add 0 (map fee_total nested)
  end.

(** The restrictions of [Traverse] on a kernel [v] nested in [parent]. *)
Definition nested_in (parent v : t) : Prop :=
  m_Multiplier v = m_Multiplier parent /\
  HeightRange.m_Min (m_Height v) <= HeightRange.m_Min (m_Height parent) /\
  HeightRange.m_Max (m_Height parent) <= HeightRange.m_Max (m_Height v).


(** [a] does not come after [b] in the order of [cmp]. *)
Definition in_order (a b : t) : Prop := gt a b = false.

End Defs.
End TxKernel.

(** ** Block::BodyBase *)

Module BodyBase.
Section Defs.
Context {P : Primitives}.

(** [m_Offset] is inherited from [TxBase]. *)
Record t : Type := Build {
  m_Offset : Scalar;
  m_Subsidy : AmountBig.t;
  m_SubsidyClosing : bool
}.

End Defs.

Section Merging.
Context {P : Primitives}.

(** The addition of [ECC::Scalar::Native] and the zero scalar are external. *)
Variable Scalar_add : Scalar -> Scalar -> Scalar.
Variable Scalar_Zero : Scalar.

Definition ZeroInit : t := Build Scalar_Zero AmountBig.Zero false.

(** [Merge(next)] *)
Definition Merge (b next : t) : t :=
  let m_Subsidy := AmountBig.add (m_Subsidy b) (m_Subsidy next) in
  let m_SubsidyClosing :=
    if m_SubsidyClosing next then true else m_SubsidyClosing b in
  let offs := Scalar_add (m_Offset b) (m_Offset next) in
  Build offs m_Subsidy m_SubsidyClosing.

End Merging.
End BodyBase.

(** ** TxBase::IReader

    A reader exposes four cursors, each on the current item of its stream or
    null at the end.  A cursor is modelled by what is left of its stream:
    the current item is the head, [Next*] drops it, and [Reset] rewinds to
    the whole stream. *)

Module Reader.
Section Defs.
Context {P : Primitives}.

Record t : Type := Build {
  UtxoIn : list Input.t;
  UtxoOut : list Output.t;
  KernelIn : list TxKernel.t;
  KernelOut : list TxKernel.t
}.

Definition m_pUtxoIn (r : t) : option Input.t := hd_error (UtxoIn r).
Definition m_pUtxoOut (r : t) : option Output.t := hd_error (UtxoOut r).
Definition m_pKernelIn (r : t) : option TxKernel.t := hd_error (KernelIn r).
Definition m_pKernelOut (r : t) : option TxKernel.t := hd_error (KernelOut r).

Definition NextUtxoIn (r : t) : t :=
  Build (tl (UtxoIn r)) (UtxoOut r) (KernelIn r) (KernelOut r).
Definition NextUtxoOut (r : t) : t :=
  Build (UtxoIn r) (tl (UtxoOut r)) (KernelIn r) (KernelOut r).
Definition NextKernelIn (r : t) : t :=
  Build (UtxoIn r) (UtxoOut r) (tl (KernelIn r)) (KernelOut r).
Definition NextKernelOut (r : t) : t :=
  Build (UtxoIn r) (UtxoOut r) (KernelIn r) (tl (KernelOut r)).

End Defs.
End Reader.

(** ** TxBase::Context *)

Module TxBase.
Section Defs.
Context {P : Primitives}.
Variable rules : Rules.

Record Context : Type := Build {
  m_Sigma : Native;
  m_Fee : AmountBig.t;
  m_Coinbase : AmountBig.t;
  m_Height : HeightRange.t;
  m_bBlockMode : bool;
  m_nVerifiers : Z;
  m_iVerifier : Z;
  (** [m_pAbort]: null, or a pointer to a flag holding this value. *)
  m_pAbort : option bool
}.

Definition Reset : Context :=
  Build Native_Zero AmountBig.Zero AmountBig.Zero HeightRange.Reset
        false 1 0 None.

Definition set_Sigma (ctx : Context) (x : Native) : Context :=
  Build x (m_Fee ctx) (m_Coinbase ctx) (m_Height ctx) (m_bBlockMode ctx)
        (m_nVerifiers ctx) (m_iVerifier ctx) (m_pAbort ctx).

Definition set_Fee (ctx : Context) (x : AmountBig.t) : Context :=
  Build (m_Sigma ctx) x (m_Coinbase ctx) (m_Height ctx) (m_bBlockMode ctx)
        (m_nVerifiers ctx) (m_iVerifier ctx) (m_pAbort ctx).

Definition set_Coinbase (ctx : Context) (x : AmountBig.t) : Context :=
  Build (m_Sigma ctx) (m_Fee ctx) x (m_Height ctx) (m_bBlockMode ctx)
        (m_nVerifiers ctx) (m_iVerifier ctx) (m_pAbort ctx).

Definition set_Height (ctx : Context) (x : HeightRange.t) : Context :=
  Build (m_Sigma ctx) (m_Fee ctx) (m_Coinbase ctx) x (m_bBlockMode ctx)
        (m_nVerifiers ctx) (m_iVerifier ctx) (m_pAbort ctx).

(** [ShouldVerify(iV)]: the result and the new [iV]. *)
Definition ShouldVerify (ctx : Context) (iV : Z) : bool * Z :=
  if negb (iV =? 0) then (false, u32 (iV - 1))
  else (true, u32 (m_nVerifiers ctx - 1)).

Definition ShouldAbort (ctx : Context) : bool :=
  match m_pAbort ctx with
  | Some flag => flag
  | None => false
  end.

Definition HandleElementHeight (ctx : Context) (hr : HeightRange.t)
  : option Context :=
  let r := HeightRange.Intersect (m_Height ctx) hr in
  if HeightRange.IsEmpty r then None
  else Some (if negb (m_bBlockMode ctx) then set_Height ctx r else ctx).

Definition Merge (ctx x : Context) : option Context :=
  match HandleElementHeight ctx (m_Height x) with
  | None => None
  | Some ctx =>
      let ctx := set_Sigma ctx (Native_add (m_Sigma ctx) (m_Sigma x)) in
      let ctx := set_Fee ctx (AmountBig.add (m_Fee ctx) (m_Fee x)) in
      let ctx := set_Coinbase ctx (AmountBig.add (m_Coinbase ctx) (m_Coinbase x)) in
      Some ctx
  end.

(** [operator >] of inputs and outputs, through their [cmp]. *)
Definition Input_gt (a b : Input.t) : bool := Input.cmp a b >? 0.
Definition Output_gt (a b : Output.t) : bool := Output.cmp a b >? 0.

Definition prev_gt {T : Type} (gt : T -> T -> bool) (pPrev : option T) (cur : T)
  : bool :=
  match pPrev with
  | Some prev => gt prev cur
  | None => false
  end.

(** The first loop of [ValidateAndSummarize], over [r.m_pUtxoIn]. *)
Fixpoint loop_UtxoIn (pPrev : option Input.t) (it : list Input.t)
    (ctx : Context) (iV : Z) {struct it} : option (Context * Z) :=
  match it with
  | [] => Some (ctx, iV)
  | cur :: it' =>
      if ShouldAbort ctx then None
      else
        let '(bVerify, iV) := ShouldVerify ctx iV in
        if bVerify then
          if prev_gt Input_gt pPrev cur then None
          else
            match Native_Import (Input.m_Commitment cur) with
            | None => None
            | Some pt =>
                loop_UtxoIn (Some cur) it'
                  (set_Sigma ctx (Native_add (m_Sigma ctx) pt)) iV
            end
        else loop_UtxoIn (Some cur) it' ctx iV
  end.

(** The [while (true)] of the second loop: advance the output-kernel cursor
    to the counterpart of the input kernel [kIn]; the result is the cursor
    after it. *)
Fixpoint locate_KernelOut (kIn : TxKernel.t) (out : list TxKernel.t)
    {struct out} : option (list TxKernel.t) :=
  match out with
  | [] => None
  | vOut :: out' =>
      if Point_cmp (TxKernel.m_Excess vOut) (TxKernel.m_Excess kIn) >? 0 then None
      else if Point_cmp (TxKernel.m_Excess vOut) (TxKernel.m_Excess kIn) =? 0 then
        if TxKernel.m_Multiplier vOut <=? TxKernel.m_Multiplier kIn then None
        else Some out'
      else locate_KernelOut kIn out'
  end.

(** The second loop, over [r.m_pKernelIn]; [out] is the output-kernel cursor
    and [feeInp] the dummy fee accumulator. *)
Fixpoint loop_KernelIn (pPrev : option TxKernel.t) (it : list TxKernel.t)
    (out : list TxKernel.t) (feeInp : AmountBig.t)
    (ctx : Context) (iV : Z) {struct it} : option (Context * Z) :=
  match it with
  | [] => Some (ctx, iV)
  | cur :: it' =>
      if ShouldAbort ctx then None
      else
        match locate_KernelOut cur out with
        | None => None
        | Some out =>
            let '(bVerify, iV) := ShouldVerify ctx iV in
            if bVerify then
              if prev_gt TxKernel.gt pPrev cur then None
              else
                match TxKernel.IsValid cur feeInp (m_Sigma ctx) with
                | None => None
                | Some (feeInp, sigma) =>
                    loop_KernelIn (Some cur) it' out feeInp
                      (set_Sigma ctx sigma) iV
                end
            else loop_KernelIn (Some cur) it' out feeInp ctx iV
        end
  end.

(** The third loop, over [r.m_pUtxoOut]. *)
Fixpoint loop_UtxoOut (pPrev : option Output.t) (it : list Output.t)
    (ctx : Context) (iV : Z) {struct it} : option (Context * Z) :=
  match it with
  | [] => Some (ctx, iV)
  | cur :: it' =>
      if ShouldAbort ctx then None
      else
        let '(bVerify, iV) := ShouldVerify ctx iV in
        if bVerify then
          if prev_gt Output_gt pPrev cur then None
          else
            let '(bValid, pt) := Output.IsValid rules cur in
            if negb bValid then None
            else
              let ctx := set_Sigma ctx (Native_add (m_Sigma ctx) pt) in
              if Output.m_Coinbase cur then
                if negb (m_bBlockMode ctx) then None
                else
                  match Output.m_pPublic cur with
                  | None => None (* excluded by [Output.IsValid] *)
                  | Some pPublic =>
                      loop_UtxoOut (Some cur) it'
                        (set_Coinbase ctx
                           (AmountBig.add_Amount (m_Coinbase ctx)
                              (Public_m_Value pPublic))) iV
                  end
              else loop_UtxoOut (Some cur) it' ctx iV
        else loop_UtxoOut (Some cur) it' ctx iV
  end.

(** The fourth loop, over [r.m_pKernelOut]. *)
Fixpoint loop_KernelOut (pPrev : option TxKernel.t) (it : list TxKernel.t)
    (ctx : Context) (iV : Z) {struct it} : option (Context * Z) :=
  match it with
  | [] => Some (ctx, iV)
  | cur :: it' =>
      if ShouldAbort ctx then None
      else
        let '(bVerify, iV) := ShouldVerify ctx iV in
        if bVerify then
          if prev_gt TxKernel.gt pPrev cur then None
          else
            match TxKernel.IsValid cur (m_Fee ctx) (m_Sigma ctx) with
            | None => None
            | Some (fee, sigma) =>
                let ctx := set_Sigma (set_Fee ctx fee) sigma in
                match HandleElementHeight ctx (TxKernel.m_Height cur) with
                | None => None
                | Some ctx => loop_KernelOut (Some cur) it' ctx iV
                end
            end
        else loop_KernelOut (Some cur) it' ctx iV
  end.

(** [ValidateAndSummarize(txb, r)]; [m_Offset] is all it reads of [txb]. *)
Definition ValidateAndSummarize (ctx : Context) (m_Offset : Scalar)
    (r : Reader.t) : option Context :=
  if HeightRange.IsEmpty (m_Height ctx) then None
  else
    let ctx := set_Sigma ctx (Native_neg (m_Sigma ctx)) in
    let feeInp := AmountBig.Zero in
    let iV := m_iVerifier ctx in
    match loop_UtxoIn None (Reader.UtxoIn r) ctx iV with
    | None => None
    | Some (ctx, iV) =>
        match loop_KernelIn None (Reader.KernelIn r) (Reader.KernelOut r)
                feeInp ctx iV with
        | None => None
        | Some (ctx, iV) =>
            let ctx := set_Sigma ctx (Native_neg (m_Sigma ctx)) in
            match loop_UtxoOut None (Reader.UtxoOut r) ctx iV with
            | None => None
            | Some (ctx, iV) =>
                match loop_KernelOut None (Reader.KernelOut r) ctx iV with
                | None => None
                | Some (ctx, iV) =>
                    let '(bVerify, _) := ShouldVerify ctx iV in
                    Some (if bVerify
                          then set_Sigma ctx
                                 (Native_add (m_Sigma ctx) (G_mul m_Offset))
                          else ctx)
                end
            end
        end
    end.

Definition IsValidTransaction (ctx : Context) : bool * Context :=
  let ctx := set_Sigma ctx (AmountBig.AddTo (m_Fee ctx) (m_Sigma ctx)) in
  (Native_eqb (m_Sigma ctx) Native_Zero, ctx).

(** The number of blocks of the context's height range, as the code
    computes it. *)
Definition nBlocksInRange (ctx : Context) : Z :=
  u64 (u64 (HeightRange.m_Max (m_Height ctx) - HeightRange.m_Min (m_Height ctx)) + 1).

Definition IsValidBlock (ctx : Context) (bb : BodyBase.t) (bSubsidyOpen : bool)
  : bool * Context :=
  let ctx := set_Sigma ctx (Native_neg (m_Sigma ctx)) in
  let ctx := set_Sigma ctx (AmountBig.AddTo (BodyBase.m_Subsidy bb) (m_Sigma ctx)) in
  if negb (Native_eqb (m_Sigma ctx) Native_Zero) then (false, ctx)
  else if bSubsidyOpen then (true, ctx)
  else if BodyBase.m_SubsidyClosing bb then (false, ctx)
  else
    let nBlocksInRange := nBlocksInRange ctx in
    let ubSubsidy := AmountBig.Export (BodyBase.m_Subsidy bb) in
    let mul := CoinbaseEmission rules in
    let ubCoinbase := nBlocksInRange in
    let ubCoinbase := uintBig.mul ubCoinbase mul in
    if ubSubsidy >? ubCoinbase then (false, ctx)
    else
      let ubSubsidy :=
        if nBlocksInRange >? MaturityCoinbase rules then
          let nBlocksInRange := u64 (nBlocksInRange - MaturityCoinbase rules) in
          let ubCoinbase := nBlocksInRange in
          let ubCoinbase := uintBig.mul ubCoinbase mul in
          if ubSubsidy >? ubCoinbase then
            let ubCoinbase := uintBig.Negate ubCoinbase in
            uintBig.add ubSubsidy ubCoinbase
          else 0
        else ubSubsidy in
      let ubCoinbase := AmountBig.Export (m_Coinbase ctx) in
      (ubCoinbase >=? ubSubsidy, ctx).

(** [Block::BodyBase::IsValid(hr, bSubsidyOpen, r)] *)
Definition BodyBase_IsValid (bb : BodyBase.t) (hr : HeightRange.t)
    (bSubsidyOpen : bool) (r : Reader.t) : bool :=
  let ctx := Reset in
  let ctx := set_Height ctx hr in
  let ctx := Build (m_Sigma ctx) (m_Fee ctx) (m_Coinbase ctx) (m_Height ctx)
                   true (m_nVerifiers ctx) (m_iVerifier ctx) (m_pAbort ctx) in
  match ValidateAndSummarize ctx (BodyBase.m_Offset bb) r with
  | None => false
  | Some ctx => fst (IsValidBlock ctx bb bSubsidyOpen)
  end.

End Defs.
End TxBase.

(** ** N-shard validation

    The sources hold the per-shard routine and [Merge]; how a caller drives
    them is what the specification says: N contexts with [m_nVerifiers = N]
    and [m_iVerifier] from 0 to N-1 each summarize the same stream, and the
    first then merges the others.  The rest of this module is the vocabulary
    of the proof that this equals one context with [m_nVerifiers = 1]:
    what one verified element adds to a context ([Delta]), and what a run
    adds in total ([Summary]). *)

Module Sharding.
Section Defs.
Context {P : Primitives}.
Variable rules : Rules.

(** A context as its owner sets it up: [Reset], then the height range, the
    mode and the two verifier fields. *)
Definition shard_ctx (nVerifiers iVerifier : Z) (hr : HeightRange.t)
    (bBlockMode : bool) : TxBase.Context :=
  TxBase.Build Native_Zero AmountBig.Zero AmountBig.Zero hr bBlockMode
               nVerifiers iVerifier None.

(** [acc.Merge(x)] when both validations succeeded. *)
Definition Merge_results (acc x : option TxBase.Context) : option TxBase.Context :=
  match acc, x with
  | Some a, Some b => TxBase.Merge a b
  | _, _ => None
  end.

(** Modelled from the spec: the caller that drives the shards is not part
    of the sources at hand.  Every shard runs [ValidateAndSummarize] on the
    stream; at stream end the first context merges the others in. *)
Definition sharded_ValidateAndSummarize (n : nat) (hr : HeightRange.t)
    (bBlockMode : bool) (m_Offset : Scalar) (r : Reader.t)
  : option TxBase.Context :=
  match map (fun i => TxBase.ValidateAndSummarize rules
                        (shard_ctx (Z.of_nat n) (Z.of_nat i) hr bBlockMode)
                        m_Offset r)
            (seq 0 n) with
  | [] => None
  | c0 :: rest => fold_left Merge_results rest c0
  end.

(** The one-context validation. *)
Definition single_ValidateAndSummarize (hr : HeightRange.t) (bBlockMode : bool)
    (m_Offset : Scalar) (r : Reader.t) : option TxBase.Context :=
  TxBase.ValidateAndSummarize rules (shard_ctx 1 0 hr bBlockMode) m_Offset r.

(** Same commitment sum, fee total, coinbase total and height range. *)
Definition same_summary (a b : TxBase.Context) : Prop :=
  TxBase.m_Sigma a = TxBase.m_Sigma b /\
  TxBase.m_Fee a = TxBase.m_Fee b /\
  TxBase.m_Coinbase a = TxBase.m_Coinbase b /\
  TxBase.m_Height a = TxBase.m_Height b.

(** Both accept with the same summary, or both reject. *)
Definition same_outcome (a b : option TxBase.Context) : Prop :=
  match a, b with
  | Some ca, Some cb => same_summary ca cb
  | None, None => True
  | _, _ => False
  end.

(** The value of a public proof is an [Amount], a [uint64_t]. *)
Definition value_ok (o : Output.t) : Prop :=
  match Output.m_pPublic o with
  | Some p => 0 <= Public_m_Value p < 2 ^ 64
  | None => True
  end.

(** The amounts of a stream are within their type. *)
Definition reader_ok (r : Reader.t) : Prop :=
  Forall TxKernel.fees_ok (Reader.KernelIn r) /\
  Forall TxKernel.fees_ok (Reader.KernelOut r) /\
  Forall value_ok (Reader.UtxoOut r).

(** *** One verified element *)

Record Delta : Type := Build_Delta {
  d_ok : bool;
  d_sigma : Native;
  d_fee : AmountBig.t;
  d_cb : AmountBig.t;
  d_hr : option HeightRange.t
}.

Definition delta_wf (d : Delta) : Prop :=
  AmountBig.wf (d_fee d) /\ AmountBig.wf (d_cb d).

Definition apply_delta (d : Delta) (ctx : TxBase.Context) : option TxBase.Context :=
  if negb (d_ok d) then None
  else
    let ctx :=
      TxBase.set_Coinbase
        (TxBase.set_Fee
           (TxBase.set_Sigma ctx (Native_add (TxBase.m_Sigma ctx) (d_sigma d)))
           (AmountBig.add (TxBase.m_Fee ctx) (d_fee d)))
        (AmountBig.add (TxBase.m_Coinbase ctx) (d_cb d)) in
    match d_hr d with
    | None => Some ctx
    | Some hr => TxBase.HandleElementHeight ctx hr
    end.

Definition neg_delta (d : Delta) : Delta :=
  Build_Delta (d_ok d) (Native_neg (d_sigma d)) (d_fee d) (d_cb d) (d_hr d).

Definition delta_UtxoIn (pPrev : option Input.t) (cur : Input.t) : Delta :=
  match Native_Import (Input.m_Commitment cur) with
  | Some pt =>
      Build_Delta (negb (TxBase.prev_gt TxBase.Input_gt pPrev cur)) pt
                  AmountBig.Zero AmountBig.Zero None
  | None => Build_Delta false Native_Zero AmountBig.Zero AmountBig.Zero None
  end.

Definition delta_Kernel (pPrev : option TxKernel.t) (cur : TxKernel.t)
    (bFee bHeight : bool) : Delta :=
  match TxKernel.IsValid cur AmountBig.Zero Native_Zero with
  | Some (df, de) =>
      Build_Delta (negb (TxBase.prev_gt TxKernel.gt pPrev cur)) de
                  (if bFee then df else AmountBig.Zero) AmountBig.Zero
                  (if bHeight then Some (TxKernel.m_Height cur) else None)
  | None => Build_Delta false Native_Zero AmountBig.Zero AmountBig.Zero None
  end.

Definition delta_UtxoOut (bBlockMode : bool) (pPrev : option Output.t)
    (cur : Output.t) : Delta :=
  let '(bValid, pt) := Output.IsValid rules cur in
  let prev_ok := negb (TxBase.prev_gt TxBase.Output_gt pPrev cur) in
  if Output.m_Coinbase cur then
    match Output.m_pPublic cur with
    | Some pPublic =>
        Build_Delta (prev_ok && bValid && bBlockMode) pt AmountBig.Zero
                    (AmountBig.add_Amount AmountBig.Zero (Public_m_Value pPublic))
                    None
    | None => Build_Delta false pt AmountBig.Zero AmountBig.Zero None
    end
  else Build_Delta (prev_ok && bValid) pt AmountBig.Zero AmountBig.Zero None.

Definition delta_Offset (m_Offset : Scalar) : Delta :=
  Build_Delta true (G_mul m_Offset) AmountBig.Zero AmountBig.Zero None.

(** The deltas of a stream, each item with its predecessor. *)
Fixpoint deltas {T : Type} (delta : option T -> T -> Delta) (pPrev : option T)
    (it : list T) : list Delta :=
  match it with
  | [] => []
  | cur :: it' => delta pPrev cur :: deltas delta (Some cur) it'
  end.

(** All of [ValidateAndSummarize] as one list; the elements between the two
    negations of [m_Sigma] count negated. *)
Definition deltas_all (bBlockMode : bool) (m_Offset : Scalar) (r : Reader.t)
  : list Delta :=
  map neg_delta
    (deltas delta_UtxoIn None (Reader.UtxoIn r)
     ++ deltas (fun p c => delta_Kernel p c false false) None (Reader.KernelIn r))
  ++ deltas (delta_UtxoOut bBlockMode) None (Reader.UtxoOut r)
  ++ deltas (fun p c => delta_Kernel p c true true) None (Reader.KernelOut r)
  ++ [delta_Offset m_Offset].

(** Whether every input kernel finds its output kernel. *)
Fixpoint locate_all (it out : list TxKernel.t) : bool :=
  match it with
  | [] => true
  | cur :: it' =>
      match TxBase.locate_KernelOut cur out with
      | None => false
      | Some out => locate_all it' out
      end
  end.

(** [ShouldVerify] as a function of [m_nVerifiers]. *)
Definition should_verify (nVerifiers iV : Z) : bool * Z :=
  if negb (iV =? 0) then (false, u32 (iV - 1))
  else (true, u32 (nVerifiers - 1)).

(** The answers of [n] calls of [ShouldVerify] in a row, from the counter
    [iV] on. *)
Fixpoint ShouldVerify_calls (ctx : TxBase.Context) (iV : Z) (n : nat) : list bool :=
  match n with
  | O => []
  | S n' =>
      let '(bVerify, iV) := TxBase.ShouldVerify ctx iV in
      bVerify :: ShouldVerify_calls ctx iV n'
  end.

(** A loop of [ValidateAndSummarize] over deltas. *)
Fixpoint gated (D : list Delta) (ctx : TxBase.Context) (iV : Z)
  : option (TxBase.Context * Z) :=
  match D with
  | [] => Some (ctx, iV)
  | d :: D' =>
      let '(bVerify, iV) := should_verify (TxBase.m_nVerifiers ctx) iV in
      if bVerify then
        match apply_delta d ctx with
        | None => None
        | Some ctx => gated D' ctx iV
        end
      else gated D' ctx iV
  end.

(** The deltas that the verifier with counter [iV] verifies. *)
Fixpoint owned (nVerifiers iV : Z) (D : list Delta) : list Delta :=
  match D with
  | [] => []
  | d :: D' =>
      let '(bVerify, iV) := should_verify nVerifiers iV in
      if bVerify then d :: owned nVerifiers iV D' else owned nVerifiers iV D'
  end.

(** Verifying every delta of a list. *)
Fixpoint run (L : list Delta) (ctx : TxBase.Context) : option TxBase.Context :=
  match L with
  | [] => Some ctx
  | d :: L' =>
      match apply_delta d ctx with
      | None => None
      | Some ctx => run L' ctx
      end
  end.

(** *** What a run adds up to *)

Record Summary : Type := Build_Summary {
  s_ok : bool;
  s_sigma : Native;
  s_fee : Z;
  s_cb : Z;
  s_hr : option HeightRange.t
}.

Definition meet (a b : option HeightRange.t) : option HeightRange.t :=
  match a, b with
  | Some x, Some y => Some (HeightRange.Intersect x y)
  | Some x, None => Some x
  | None, _ => b
  end.

Definition Summary_add (a b : Summary) : Summary :=
  Build_Summary (s_ok a && s_ok b) (Native_add (s_sigma a) (s_sigma b))
                (s_fee a + s_fee b) (s_cb a + s_cb b) (meet (s_hr a) (s_hr b)).

Definition Summary_zero : Summary :=
  Build_Summary true Native_Zero 0 0 None.

Definition meet_h (h0 : HeightRange.t) (hr : option HeightRange.t) : HeightRange.t :=
  match hr with
  | Some x => HeightRange.Intersect h0 x
  | None => h0
  end.

(** The summary of one delta for a context of mode [bBlockMode] and initial
    height range [h0]: in block mode the range of an element is checked
    against [h0] and not kept. *)
Definition elem (bBlockMode : bool) (h0 : HeightRange.t) (d : Delta) : Summary :=
  Build_Summary
    (d_ok d &&
     (if bBlockMode then
        match d_hr d with
        | Some hr => negb (HeightRange.IsEmpty (HeightRange.Intersect h0 hr))
        | None => true
        end
      else true))
    (d_sigma d) (AmountBig.value (d_fee d)) (AmountBig.value (d_cb d))
    (if bBlockMode then None else d_hr d).

Definition total (bBlockMode : bool) (h0 : HeightRange.t) (L : list Delta)
  : Summary :=
  fold_left Summary_add (map (elem bBlockMode h0) L) Summary_zero.

Definition good (h0 : HeightRange.t) (s : Summary) : bool :=
  s_ok s && negb (HeightRange.IsEmpty (meet_h h0 (s_hr s))).

(** The context that has absorbed the summary [s]. *)
Definition den (nVerifiers iVerifier : Z) (bBlockMode : bool) (h0 : HeightRange.t)
    (s : Summary) : TxBase.Context :=
  TxBase.Build (s_sigma s) (AmountBig.of_value (s_fee s))
               (AmountBig.of_value (s_cb s)) (meet_h h0 (s_hr s))
               bBlockMode nVerifiers iVerifier None.

(** What holds of a summary met during a run. *)
Definition inv (bBlockMode : bool) (h0 : HeightRange.t) (s : Summary) : Prop :=
  good h0 s = true /\ (bBlockMode = true -> s_hr s = None).

(** *** Kernel traversal from shifted accumulators *)

Definition shift (f : AmountBig.t) (e : Native)
    (r : option TxKernel.TraverseState) : option TxKernel.TraverseState :=
  match r with
  | Some (hv, Some f1, Some e1) =>
      Some (hv, Some (AmountBig.add f f1), Some (Native_add e e1))
  | _ => None
  end.

Definition shape (r : option TxKernel.TraverseState) : Prop :=
  match r with
  | Some (_, Some f1, Some _) => AmountBig.wf f1
  | Some _ => False
  | None => True
  end.

Definition equivariant
    (trav : Z -> option AmountBig.t -> option Native ->
            option TxKernel.TraverseState) : Prop :=
  forall hv hv0 f e f0 e0,
    AmountBig.wf f -> AmountBig.wf f0 ->
    trav hv (Some (AmountBig.add f f0)) (Some (Native_add e e0))
      = shift f e (trav hv0 (Some f0) (Some e0)) /\
    shape (trav hv0 (Some f0) (Some e0)).

(** What a validation may change of a context: nothing of its set-up, the
    height range in transaction mode only and then only by shrinking it to
    a range that is not empty, the coinbase total in block mode only. *)
Definition stable (ctx ctx' : TxBase.Context) : Prop :=
  TxBase.m_bBlockMode ctx' = TxBase.m_bBlockMode ctx /\
  TxBase.m_nVerifiers ctx' = TxBase.m_nVerifiers ctx /\
  TxBase.m_iVerifier ctx' = TxBase.m_iVerifier ctx /\
  TxBase.m_pAbort ctx' = TxBase.m_pAbort ctx /\
  (TxBase.m_bBlockMode ctx = true -> TxBase.m_Height ctx' = TxBase.m_Height ctx) /\
  (TxBase.m_bBlockMode ctx = false -> TxBase.m_Coinbase ctx' = TxBase.m_Coinbase ctx) /\
  (HeightRange.IsEmpty (TxBase.m_Height ctx) = false ->
   HeightRange.IsEmpty (TxBase.m_Height ctx') = false) /\
  HeightRange.m_Min (TxBase.m_Height ctx) <= HeightRange.m_Min (TxBase.m_Height ctx') /\
  HeightRange.m_Max (TxBase.m_Height ctx') <= HeightRange.m_Max (TxBase.m_Height ctx).

(** *** Vocabulary of the loop and sum lemmas *)

(** The fields that a validation leaves alone and relies on. *)
Definition ctx_ok (ctx : TxBase.Context) : Prop :=
  AmountBig.wf (TxBase.m_Fee ctx) /\ AmountBig.wf (TxBase.m_Coinbase ctx) /\
  TxBase.m_pAbort ctx = None.

Definition negS (ctx : TxBase.Context) : TxBase.Context :=
  TxBase.set_Sigma ctx (Native_neg (TxBase.m_Sigma ctx)).

(** Sums of lists of summaries. *)
Definition bigsum (l : list Summary) : Summary :=
  fold_left Summary_add l Summary_zero.

(** The counters of the shards after one more element. *)
Definition next_counter (N iV : Z) : Z := snd (should_verify N iV).

(** The result of shard [j] whose owned deltas sum to [t]. *)
Definition shard_result (N : Z) (bm : bool) (h0 : HeightRange.t) (j : Z)
    (t : Summary) : option TxBase.Context :=
  if good h0 t then Some (den N j bm h0 t) else None.

End Defs.
End Sharding.

(** ** TxVectors *)

Module TxVectors.
Section Defs.
Context {P : Primitives}.

Record t : Type := Build {
  m_vInputs : list Input.t;
  m_vOutputs : list Output.t;
  m_vKernelsInput : list TxKernel.t;
  m_vKernelsOutput : list TxKernel.t
}.

(** [get_Reader()] *)
Definition get_Reader (txv : t) : Reader.t :=
  Reader.Build (m_vInputs txv) (m_vOutputs txv)
               (m_vKernelsInput txv) (m_vKernelsOutput txv).

(** The writer appends to the vectors of its [TxVectors]. *)
Definition WriteIn (txv : t) (v : Input.t) : t :=
  Build (m_vInputs txv ++ [v]) (m_vOutputs txv)
        (m_vKernelsInput txv) (m_vKernelsOutput txv).
Definition WriteOut (txv : t) (v : Output.t) : t :=
  Build (m_vInputs txv) (m_vOutputs txv ++ [v])
        (m_vKernelsInput txv) (m_vKernelsOutput txv).
Definition WriteIn_Kernel (txv : t) (v : TxKernel.t) : t :=
  Build (m_vInputs txv) (m_vOutputs txv)
        (m_vKernelsInput txv ++ [v]) (m_vKernelsOutput txv).
Definition WriteOut_Kernel (txv : t) (v : TxKernel.t) : t :=
  Build (m_vInputs txv) (m_vOutputs txv)
        (m_vKernelsInput txv) (m_vKernelsOutput txv ++ [v]).

(** Inside [DeleteIntermediateOutputs] the vectors hold pointers that may
    have been reset. *)
Fixpoint RebuildVectorWithoutNulls {T : Type} (vSrc : list (option T)) : list T :=
  match vSrc with
  | [] => []
  | Some x :: vSrc' => x :: RebuildVectorWithoutNulls vSrc'
  | None :: vSrc' => RebuildVectorWithoutNulls vSrc'
  end.

(** [v[i].reset()] *)
Fixpoint reset_at {T : Type} (i : nat) (v : list (option T)) : list (option T) :=
  match v, i with
  | [], _ => []
  | _ :: v', O => None :: v'
  | x :: v', S i' => x :: reset_at i' v'
  end.

(** The inner [for (; i1 < m_vOutputs.size(); i1++)]; [left] is
    [m_vOutputs.size() - i1].  The result is whether the input was matched
    and the final [i1]; [None] stands for the dereference of a reset
    pointer. *)
Fixpoint scan_outputs (left : nat) (pInp : Input.t)
    (m_vOutputs : list (option Output.t)) (i1 : nat) : option (bool * nat) :=
  match left with
  | O => Some (false, i1)
  | S left' =>
      match nth_error m_vOutputs i1 with
      | None => Some (false, i1)
      | Some None => None
      | Some (Some pOut) =>
          let n := Input.cmp_CaM pInp (Output.base pOut) in
          if n <=? 0 then Some (n =? 0, i1)
          else scan_outputs left' pInp m_vOutputs (S i1)
      end
  end.

(** The outer [for] over the inputs. *)
Fixpoint delete_loop (ins : list Input.t) (m_vOutputs : list (option Output.t))
    (i1 nDel : nat)
  : option (list (option Input.t) * list (option Output.t) * nat) :=
  match ins with
  | [] => Some ([], m_vOutputs, nDel)
  | pInp :: ins' =>
      match scan_outputs (length m_vOutputs - i1) pInp m_vOutputs i1 with
      | None => None
      | Some (true, i1) =>
          match delete_loop ins' (reset_at i1 m_vOutputs) i1 (S nDel) with
          | None => None
          | Some (vIn, vOut, nDel) => Some (None :: vIn, vOut, nDel)
          end
      | Some (false, i1) =>
          match delete_loop ins' m_vOutputs i1 nDel with
          | None => None
          | Some (vIn, vOut, nDel) => Some (Some pInp :: vIn, vOut, nDel)
          end
      end
  end.

Definition DeleteIntermediateOutputs (txv : t) : option (nat * t) :=
  let nDel := O in
  let i1 := length (m_vOutputs txv) in
  match delete_loop (m_vInputs txv) (map Some (m_vOutputs txv)) i1 nDel with
  | None => None
  | Some (vIn, vOut, nDel) =>
      Some (nDel,
            match nDel with
            | O => txv
            | S _ =>
                Build (RebuildVectorWithoutNulls vIn)
                      (RebuildVectorWithoutNulls vOut)
                      (m_vKernelsInput txv) (m_vKernelsOutput txv)
            end)
  end.

End Defs.
End TxVectors.

(** ** TxVectors::Reader


    The reader of the source keeps four indices into the vectors and four
    pointers to the current items. *)

Module VecReader.
Section Defs.
Context {P : Primitives}.

Record t : Type := Build {
  m_Txv : TxVectors.t;
  m_pIdx0 : Z;
  m_pIdx1 : Z;
  m_pIdx2 : Z;
  m_pIdx3 : Z;
  m_pUtxoIn : option Input.t;
  m_pUtxoOut : option Output.t;
  m_pKernelIn : option TxKernel.t;
  m_pKernelOut : option TxKernel.t
}.

(** [get_FromVector(v, idx)]; [idx] is a [size_t]. *)
Definition get_FromVector {T : Type} (v : list T) (idx : Z) : option T :=
  if idx >=? Z.of_nat (length v) then None else nth_error v (Z.to_nat idx).

Definition Reset (r : t) : t :=
  let txv := m_Txv r in
  Build txv 0 0 0 0
        (get_FromVector (TxVectors.m_vInputs txv) 0)
        (get_FromVector (TxVectors.m_vOutputs txv) 0)
        (get_FromVector (TxVectors.m_vKernelsInput txv) 0)
        (get_FromVector (TxVectors.m_vKernelsOutput txv) 0).

Definition NextUtxoIn (r : t) : t :=
  let idx := u64 (m_pIdx0 r + 1) in
  Build (m_Txv r) idx (m_pIdx1 r) (m_pIdx2 r) (m_pIdx3 r)
        (get_FromVector (TxVectors.m_vInputs (m_Txv r)) idx)
        (m_pUtxoOut r) (m_pKernelIn r) (m_pKernelOut r).

Definition NextUtxoOut (r : t) : t :=
  let idx := u64 (m_pIdx1 r + 1) in
  Build (m_Txv r) (m_pIdx0 r) idx (m_pIdx2 r) (m_pIdx3 r)
        (m_pUtxoIn r)
        (get_FromVector (TxVectors.m_vOutputs (m_Txv r)) idx)
        (m_pKernelIn r) (m_pKernelOut r).

Definition NextKernelIn (r : t) : t :=
  let idx := u64 (m_pIdx2 r + 1) in
  Build (m_Txv r) (m_pIdx0 r) (m_pIdx1 r) idx (m_pIdx3 r)
        (m_pUtxoIn r) (m_pUtxoOut r)
        (get_FromVector (TxVectors.m_vKernelsInput (m_Txv r)) idx)
        (m_pKernelOut r).

Definition NextKernelOut (r : t) : t :=
  let idx := u64 (m_pIdx3 r + 1) in
  Build (m_Txv r) (m_pIdx0 r) (m_pIdx1 r) (m_pIdx2 r) idx
        (m_pUtxoIn r) (m_pUtxoOut r) (m_pKernelIn r)
        (get_FromVector (TxVectors.m_vKernelsOutput (m_Txv r)) idx).

(** The four [Next*] calls, to speak of any sequence of them. *)
Inductive Move : Type := UtxoIn | UtxoOut | KernelIn | KernelOut.

Definition move (r : t) (m : Move) : t :=
  match m with
  | UtxoIn => NextUtxoIn r
  | UtxoOut => NextUtxoOut r
  | KernelIn => NextKernelIn r
  | KernelOut => NextKernelOut r
  end.

(** The same call on the cursors of [Reader]. *)
Definition move_cursor (r : Reader.t) (m : Move) : Reader.t :=
  match m with
  | UtxoIn => Reader.NextUtxoIn r
  | UtxoOut => Reader.NextUtxoOut r
  | KernelIn => Reader.NextKernelIn r
  | KernelOut => Reader.NextKernelOut r
  end.

(** The four current items of each kind of reader. *)
Definition current (r : t)
  : option Input.t * option Output.t * option TxKernel.t * option TxKernel.t :=
  (m_pUtxoIn r, m_pUtxoOut r, m_pKernelIn r, m_pKernelOut r).

Definition current_cursor (r : Reader.t)
  : option Input.t * option Output.t * option TxKernel.t * option TxKernel.t :=
  (Reader.m_pUtxoIn r, Reader.m_pUtxoOut r, Reader.m_pKernelIn r,
   Reader.m_pKernelOut r).

(** The reader [r] of the vectors [txv] stands where the cursors [c] do,
    with no index past [b]. *)
Definition at_same (txv : TxVectors.t) (b : Z) (r : t) (c : Reader.t) : Prop :=
  m_Txv r = txv /\
  (0 <= m_pIdx0 r <= b /\ 0 <= m_pIdx1 r <= b /\
   0 <= m_pIdx2 r <= b /\ 0 <= m_pIdx3 r <= b) /\
  (m_pUtxoIn r
   = get_FromVector (TxVectors.m_vInputs txv) (m_pIdx0 r) /\
   m_pUtxoOut r
   = get_FromVector (TxVectors.m_vOutputs txv) (m_pIdx1 r) /\
   m_pKernelIn r
   = get_FromVector (TxVectors.m_vKernelsInput txv) (m_pIdx2 r) /\
   m_pKernelOut r
   = get_FromVector (TxVectors.m_vKernelsOutput txv) (m_pIdx3 r)) /\
  (Reader.UtxoIn c = skipn (Z.to_nat (m_pIdx0 r)) (TxVectors.m_vInputs txv) /\
   Reader.UtxoOut c = skipn (Z.to_nat (m_pIdx1 r)) (TxVectors.m_vOutputs txv) /\
   Reader.KernelIn c
   = skipn (Z.to_nat (m_pIdx2 r)) (TxVectors.m_vKernelsInput txv) /\
   Reader.KernelOut c
   = skipn (Z.to_nat (m_pIdx3 r)) (TxVectors.m_vKernelsOutput txv)).

End Defs.
End VecReader.

(** ** Transaction *)

Module Transaction.
Section Defs.
Context {P : Primitives}.
Variable rules : Rules.

(** The bytes of a scalar and the [m_X] of a point, as numbers; both types
    are external. *)
Variable Scalar_m_Value : Scalar -> Z.
Variable Point_m_X : Point -> Z.

(** [Transaction] derives from [TxBase], which holds [m_Offset], and from
    [TxVectors]. *)
Record t : Type := Build {
  m_Offset : Scalar;
  m_Txv : TxVectors.t
}.

(** [IsValid(ctx)] *)
Definition IsValid (ctx : TxBase.Context) (tx : t) : bool :=
  match TxBase.ValidateAndSummarize rules ctx (m_Offset tx)
          (TxVectors.get_Reader (m_Txv tx)) with
  | None => false
  | Some ctx => fst (TxBase.IsValidTransaction ctx)
  end.

(** The [for] of [CmpPtrVectors], over vectors of equal size. *)
Fixpoint CmpPtrVectors_loop {T : Type} (cmp : T -> T -> Z)
    (a b : list (option T)) : Z :=
  match a, b with
  | x :: a', y :: b' => CMP_PTRS cmp x y (CmpPtrVectors_loop cmp a' b')
  | _, _ => 0
  end.

Definition CmpPtrVectors {T : Type} (cmp : T -> T -> Z)
    (a b : list (option T)) : Z :=
  CMP_SIMPLE (Z.of_nat (length a)) (Z.of_nat (length b))
    (CmpPtrVectors_loop cmp a b).

(** [cmp(v)]; the vectors of a transaction hold no null pointer. *)
Definition cmp (a v : t) : Z :=
  CMP_SIMPLE (Scalar_m_Value (m_Offset a)) (Scalar_m_Value (m_Offset v))
 (CMP_NONZERO (CmpPtrVectors Input.cmp
                 (map Some (TxVectors.m_vInputs (m_Txv a)))
                 (map Some (TxVectors.m_vInputs (m_Txv v))))
 (CMP_NONZERO (CmpPtrVectors Output.cmp
                 (map Some (TxVectors.m_vOutputs (m_Txv a)))
                 (map Some (TxVectors.m_vOutputs (m_Txv v))))
 (CMP_NONZERO (CmpPtrVectors TxKernel.cmp
                 (map Some (TxVectors.m_vKernelsInput (m_Txv a)))
                 (map Some (TxVectors.m_vKernelsInput (m_Txv v))))
 (CMP_NONZERO (CmpPtrVectors TxKernel.cmp
                 (map Some (TxVectors.m_vKernelsOutput (m_Txv a)))
                 (map Some (TxVectors.m_vKernelsOutput (m_Txv v))))
    0)))).

(** [get_Key(key)] *)
Definition get_Key (tx : t) : Z :=
  if Scalar_m_Value (m_Offset tx) =? 0 then
    let key := 0 in
    let key :=
      fold_left (fun key i => Z.lxor key (Point_m_X (Input.m_Commitment i)))
                (TxVectors.m_vInputs (m_Txv tx)) key in
    let key :=
      fold_left (fun key o => Z.lxor key (Point_m_X (Output.m_Commitment o)))
                (TxVectors.m_vOutputs (m_Txv tx)) key in
    let key :=
      fold_left (fun key k => Z.lxor key (Point_m_X (TxKernel.m_Excess k)))
                (TxVectors.m_vKernelsOutput (m_Txv tx)) key in
    key
  else Scalar_m_Value (m_Offset tx).

End Defs.
End Transaction.

(** ** TxBase::IWriter::Combine *)

Module IWriter.
Section Defs.
Context {P : Primitives}.

(** How a [while (true)] loop run with a bound on its iterations ends. *)
Inductive Outcome (A : Type) : Type :=
| Finished (a : A)
| Stopped
| OutOfFuel.
Arguments Finished {A} a.
Arguments Stopped {A}.
Arguments OutOfFuel {A}.

(** The [for] over the readers that picks the least current item and the
    index of its reader. *)
Fixpoint select_min {T : Type} (gt : T -> T -> bool) (cur : list (option T))
    (i : nat) (best : option (T * nat)) : option (T * nat) :=
  match cur with
  | [] => best
  | c :: cur' =>
      let best :=
        match c with
        | Some pi =>
            match best with
            | None => Some (pi, i)
            | Some (pInp, _) => if gt pInp pi then Some (pi, i) else best
            end
        | None => best
        end in
      select_min gt cur' (S i) best
  end.

(** [ppR[i]->f()] *)
Fixpoint at_reader (i : nat) (f : Reader.t -> Reader.t) (ppR : list Reader.t)
  : list Reader.t :=
  match ppR, i with
  | [], _ => []
  | r :: ppR', O => f r :: ppR'
  | r :: ppR', S i' => r :: at_reader i' f ppR'
  end.

Fixpoint Combine_Utxo (fuel : nat) (bStop : bool) (ppR : list Reader.t)
    (w : TxVectors.t) : Outcome (list Reader.t * TxVectors.t) :=
  match fuel with
  | O => OutOfFuel
  | S fuel' =>
      if bStop then Stopped
      else
        let pInp := select_min TxBase.Input_gt (map Reader.m_pUtxoIn ppR) 0 None in
        let pOut := select_min TxBase.Output_gt (map Reader.m_pUtxoOut ppR) 0 None in
        let write_in '(inp, iInp) :=
          Combine_Utxo fuel' bStop (at_reader iInp Reader.NextUtxoIn ppR)
                       (TxVectors.WriteIn w inp) in
        let write_out '(out, iOut) :=
          Combine_Utxo fuel' bStop (at_reader iOut Reader.NextUtxoOut ppR)
                       (TxVectors.WriteOut w out) in
        match pInp, pOut with
        | Some (inp, iInp), Some (out, iOut) =>
            let n := Input.cmp_CaM inp (Output.base out) in
            if n >? 0 then write_out (out, iOut)
            else if n =? 0 then
              Combine_Utxo fuel' bStop
                (at_reader iOut Reader.NextUtxoOut
                   (at_reader iInp Reader.NextUtxoIn ppR)) w
            else write_in (inp, iInp)
        | Some (inp, iInp), None => write_in (inp, iInp)
        | None, Some (out, iOut) => write_out (out, iOut)
        | None, None => Finished (ppR, w)
        end
  end.

Fixpoint Combine_Kernels (fuel : nat) (bStop : bool) (ppR : list Reader.t)
    (w : TxVectors.t) : Outcome (list Reader.t * TxVectors.t) :=
  match fuel with
  | O => OutOfFuel
  | S fuel' =>
      if bStop then Stopped
      else
        let pInp := select_min TxKernel.gt (map Reader.m_pKernelIn ppR) 0 None in
        let pOut := select_min TxKernel.gt (map Reader.m_pKernelOut ppR) 0 None in
        let write_in '(inp, iInp) :=
          Combine_Kernels fuel' bStop (at_reader iInp Reader.NextKernelIn ppR)
                          (TxVectors.WriteIn_Kernel w inp) in
        let write_out '(out, iOut) :=
          Combine_Kernels fuel' bStop (at_reader iOut Reader.NextKernelOut ppR)
                          (TxVectors.WriteOut_Kernel w out) in
        match pInp, pOut with
        | Some (inp, iInp), Some (out, iOut) =>
            let n := TxKernel.cmp inp out in
            if n >? 0 then write_out (out, iOut)
            else if n =? 0 then
              Combine_Kernels fuel' bStop
                (at_reader iOut Reader.NextUtxoOut
                   (at_reader iInp Reader.NextUtxoIn ppR)) w
            else write_in (inp, iInp)
        | Some (inp, iInp), None => write_in (inp, iInp)
        | None, Some (out, iOut) => write_out (out, iOut)
        | None, None => Finished (ppR, w)
        end
  end.

(** [Combine(ppR, nR, bStop)]: the readers are given rewound; each of the two
    loops may take [fuel] iterations.  [Finished] is [return true],
    [Stopped] is [return false]. *)
Definition Combine (fuel : nat) (bStop : bool) (ppR : list Reader.t)
    (w : TxVectors.t) : Outcome TxVectors.t :=
  match Combine_Utxo fuel bStop ppR w with
  | Finished (ppR, w) =>
      match Combine_Kernels fuel bStop ppR w with
      | Finished (_, w) => Finished w
      | Stopped => Stopped
      | OutOfFuel => OutOfFuel
      end
  | Stopped => Stopped
  | OutOfFuel => OutOfFuel
  end.

(** [Dump(r)]: the reader is given rewound; each [for] writes what is left
    of one stream. *)
Definition Dump (w : TxVectors.t) (r : Reader.t) : TxVectors.t :=
  let w := fold_left TxVectors.WriteIn (Reader.UtxoIn r) w in
  let w := fold_left TxVectors.WriteOut (Reader.UtxoOut r) w in
  let w := fold_left TxVectors.WriteIn_Kernel (Reader.KernelIn r) w in
  let w := fold_left TxVectors.WriteOut_Kernel (Reader.KernelOut r) w in
  w.

(** The inputs and outputs that the readers have not passed yet. *)
Fixpoint pending_Utxo (ppR : list Reader.t) : nat :=
  match ppR with
  | [] => O
  | r :: ppR' =>
      (length (Reader.UtxoIn r) + length (Reader.UtxoOut r) + pending_Utxo ppR')%nat
  end.

End Defs.
Arguments Finished {A} a.
Arguments Stopped {A}.
Arguments OutOfFuel {A}.
End IWriter.

(** ** Block::SystemState::Full *)

(** The proof-of-work check and the Merkle multi-proof verifier live in other
    files; the chain-work proof uses them through this interface. *)
Class ChainPrimitives : Type := {
  (** [Block::PoW::IsValid]: indices, nonce, packed difficulty, challenge. *)
  PoW_IsValid : list Z -> Z -> Z -> Z -> bool;
  (** [Merkle::MultiProof::Verifier], built from [m_Proof.m_vData] and the
      count of elements; [Process] takes the virtual [IsRootValid], the field
      [m_hvPos] and the index. *)
  Verifier : Type;
  Verifier_new : list Z -> Z -> Verifier;
  Verifier_Process : (Z -> bool) -> Verifier -> Z -> Z -> Verifier;
  Verifier_bVerify : Verifier -> bool;
  Verifier_get_Pos : Verifier -> nat
}.

Module SystemState.
Section Defs.
Context {P : Primitives} {CP : ChainPrimitives}.

Record PoW : Type := Build_PoW {
  m_Indices : list Z;
  m_Nonce : Z;
  m_Difficulty : Z
}.

Record Full : Type := Build {
  m_Height : Z;
  m_Prev : Z;
  m_ChainWork : Z;
  m_Definition : Z;
  m_TimeStamp : Z;
  m_PoW : PoW
}.

Definition get_HashInternal (s : Full) (bTotal : bool) : Z :=
  let hp :=
    hp_u32
      (hp_u64
         (hp_hash
            (hp_hash (hp_hash (hp_u64 hp_new (m_Height s)) (m_Prev s))
               (m_ChainWork s))
            (m_Definition s))
         (m_TimeStamp s))
      (m_Difficulty (m_PoW s)) in
  let hp :=
    if bTotal
    then hp_hash (hp_bytes hp (m_Indices (m_PoW s))) (m_Nonce (m_PoW s))
    else hp in
  hp_out hp.

Definition get_HashForPoW (s : Full) : Z := get_HashInternal s false.
Definition get_Hash (s : Full) : Z := get_HashInternal s true.

Definition IsSane (s : Full) : bool :=
  if m_Height s <? HeightGenesis then false
  else if (m_Height s =? HeightGenesis) && negb (m_Prev s =? 0) then false
  else true.

(** [b] comes below [a]: smaller height and smaller chain-work. *)
Definition below (a b : Full) : Prop :=
  m_Height b < m_Height a /\ m_ChainWork b < m_ChainWork a.

(** A height of a sane header, within 64 bits. *)
Definition height_ok (s : Full) : Prop :=
  HeightGenesis <= m_Height s < 2 ^ 64.

Definition IsValidPoW (rules : Rules) (s : Full) : bool :=
  if FakePoW rules then true
  else
    PoW_IsValid (m_Indices (m_PoW s)) (m_Nonce (m_PoW s))
                (m_Difficulty (m_PoW s)) (get_HashForPoW s).

(** [Block::SystemState::ID] *)
Record ID : Type := Build_ID { id_Height : Z; id_Hash : Z }.

Definition ID_cmp (a v : ID) : Z :=
  CMP_SIMPLE (id_Height a) (id_Height v)
    (CMP_SIMPLE (id_Hash a) (id_Hash v) 0).

Definition get_ID (s : Full) : ID := Build_ID (m_Height s) (get_Hash s).

(** [NextPrefix()]: the prefix of the header that follows [s]. *)
Definition NextPrefix (s : Full) : Full :=
  Build (u64 (m_Height s + 1)) (get_Hash s) (m_ChainWork s) (m_Definition s)
        (m_TimeStamp s) (m_PoW s).

End Defs.
End SystemState.

(** ** Merkle::Interpret *)

Module Merkle.
Section Defs.
Context {P : Primitives}.

Definition Interpret (hLeft hRight : Z) : Z :=
  hp_out (hp_hash (hp_hash hp_new hLeft) hRight).

(** [Interpret(hOld, hNew, bNewOnRight)] *)
Definition Interpret_side (hOld hNew : Z) (bNewOnRight : bool) : Z :=
  if bNewOnRight then Interpret hOld hNew else Interpret hNew hOld.

(** A [Node] is a pair: whether the hash goes on the right, and the hash. *)
Definition Node : Type := (bool * Z)%type.

(** [Interpret(hash, n)] *)
Definition Interpret_node (hash : Z) (n : Node) : Z :=
  Interpret_side hash (snd n) (fst n).

(** [Interpret(hash, p)]: the loop over the nodes of the proof. *)
Definition Interpret_proof (hash : Z) (p : list Node) : Z :=
  fold_left Interpret_node p hash.

End Defs.
End Merkle.

(** ** Block::SystemState::Sequence::Element *)

Module Element.
Section Defs.
Context {P : Primitives}.

(** [Input::State] and its [get_ID(hv, inp)] are declared elsewhere. *)
Variable State : Type.
Variable State_get_ID : State -> Input.t -> Z.

(** [Input::Proof] *)
Record Proof : Type := Build_Proof {
  m_State : State;
  m_Proof : list Merkle.Node
}.

(** The test on the last two nodes of a proof: [proof[n - 1].first] must be
    false and [proof[n - 2].first] must be [bEarlier]. *)
Definition tail_ok (bEarlier : bool) (proof : list Merkle.Node) : bool :=
  let n := length proof in
  if (n <? 2)%nat then false
  else if fst (nth (n - 1) proof (false, 0)) then false
  else Bool.eqb (fst (nth (n - 2) proof (false, 0))) bEarlier.

(** [IsValidProofUtxo(inp, p)]; the element is its field [m_Definition]. *)
Definition IsValidProofUtxo (m_Definition : Z) (inp : Input.t) (p : Proof) : bool :=
  if negb (tail_ok true (m_Proof p)) then false
  else
    let hv := State_get_ID (m_State p) inp in
    let hv := Merkle.Interpret_proof hv (m_Proof p) in
    hv =? m_Definition.


End Defs.
End Element.

(** ** Block::ChainWorkProof::Sampler *)

Module Sampler.
Section Defs.
Context {P : Primitives} {CP : ChainPrimitives} {DC : DifficultyConsts}.

Record t : Type := Build {
  m_Oracle : Oracle;
  m_Begin : Z;
  m_End : Z;
  m_LowerBound : Z
}.

Definition set_Oracle (samp : t) (o : Oracle) : t :=
  Build o (m_Begin samp) (m_End samp) (m_LowerBound samp).
Definition set_Begin (samp : t) (x : Z) : t :=
  Build (m_Oracle samp) x (m_End samp) (m_LowerBound samp).
Definition set_LowerBound (samp : t) (x : Z) : t :=
  Build (m_Oracle samp) (m_Begin samp) (m_End samp) x.

(** The constructor leaves [m_LowerBound] to the caller; [0] stands for the
    value before the caller's assignment. *)
Definition new (sTip : SystemState.Full) : t :=
  let hv := SystemState.get_Hash sTip in
  Build (Oracle_hash Oracle_new hv)
        (Difficulty.Dec (SystemState.m_Difficulty (SystemState.m_PoW sTip))
                        (SystemState.m_ChainWork sTip))
        (SystemState.m_ChainWork sTip)
        0.

(** The byte loop of [TakeFraction], from the most significant byte. *)
Fixpoint TakeFraction_loop (carry : Z) (m_pData : list Z) : list Z :=
  match m_pData with
  | [] => []
  | x :: rest =>
      let n := u8 (Z.shiftl x 1) in
      Z.lor (Z.shiftr x 7) carry :: TakeFraction_loop n rest
  end.

Definition TakeFraction (v : Z) : Z :=
  uintBig.of_bytes (TakeFraction_loop 0 (uintBig.to_bytes v)).

(** [for (; x >>= 1; nOrder++) ;] on a byte. *)
Fixpoint count_shifts (fuel : nat) (x nOrder : Z) : Z :=
  match fuel with
  | O => nOrder
  | S fuel' =>
      let x := Z.shiftr x 1 in
      if x =? 0 then nOrder else count_shifts fuel' x (u32 (nOrder + 1))
  end.

(** The byte loop of [FindOrderOf]; [m_pData] is what is left from [nByte]
    on, so that [v.nBytes - nByte] is its length. *)
Fixpoint FindOrderOf_loop (m_pData : list Z) : Z :=
  match m_pData with
  | [] => 0
  | x :: rest =>
      if x =? 0 then FindOrderOf_loop rest
      else
        let nOrder := u32 (u32 (Z.shiftl (Z.of_nat (length m_pData)) 3) - 7) in
        count_shifts 8 x nOrder
  end.

Definition FindOrderOf (v : Z) : Z := FindOrderOf_loop (uintBig.to_bytes v).

Fixpoint memcmp (a b : list Z) : Z :=
  match a, b with
  | x :: a', y :: b' =>
      if x <? y then -1 else if x >? y then 1 else memcmp a' b'
  | _, _ => 0
  end.

(** [data[i] = f(data[i])] *)
Fixpoint update_at (i : nat) (f : Z -> Z) (data : list Z) : list Z :=
  match data, i with
  | [], _ => []
  | x :: data', O => f x :: data'
  | x :: data', S i' => x :: update_at i' f data'
  end.

(** The accept/reject loop of [UnfiromRandom], at most [fuel] draws. *)
Fixpoint UnfiromRandom_loop (fuel : nat) (oracle : Oracle) (threshold : Z)
    (nOffs : nat) (msk : Z) : option (Z * Oracle) :=
  match fuel with
  | O => None
  | S fuel' =>
      let '(out, oracle) := Oracle_out oracle in
      let data := uintBig.to_bytes out in
      let data := update_at nOffs (fun x => Z.land x msk) data in
      if memcmp (skipn nOffs data) (skipn nOffs (uintBig.to_bytes threshold)) <? 0
      then Some (uintBig.of_bytes (repeat 0 nOffs ++ skipn nOffs data), oracle)
      else UnfiromRandom_loop fuel' oracle threshold nOffs msk
  end.

(** [UnfiromRandom(out, threshold)]: the result, [out] and the oracle;
    [None] when [fuel] draws were all rejected. *)
Definition UnfiromRandom (fuel : nat) (oracle : Oracle) (out threshold : Z)
  : option (bool * Z * Oracle) :=
  let nOrder := FindOrderOf threshold in
  if nOrder =? 0 then Some (false, out, oracle)
  else
    let nOrder := u32 (nOrder - 1) in
    let nOffs := u32 (Z.of_nat uintBig.nBytes - 1 - Z.shiftr nOrder 3) in
    let msk := u8 (u8 (Z.shiftl 2 (Z.land 7 nOrder)) - 1) in
    match UnfiromRandom_loop fuel oracle threshold (Z.to_nat nOffs) msk with
    | None => None
    | Some (out, oracle) => Some (true, out, oracle)
    end.

(** [SamplePoint(out)]: the result, [out] and the sampler. *)
Definition SamplePoint (fuel : nat) (samp : t) (out : Z)
  : option (bool * Z * t) :=
  let range := m_Begin samp in
  let range := uintBig.Negate range in
  let range := uintBig.add range (m_End samp) in
  let range := TakeFraction range in
  let range := if range =? 0 then 1 else range in
  let bAllCovered := range >=? m_Begin samp in
  match UnfiromRandom fuel (m_Oracle samp) out range with
  | None => None
  | Some (_, out, oracle) =>
      let samp := set_Oracle samp oracle in
      let range := uintBig.Negate range in
      let out := uintBig.add out (m_Begin samp) in
      let out := uintBig.add out range in
      if (out <? m_LowerBound samp) || (out >=? m_Begin samp)
      then Some (false, out, samp)
      else
        let samp :=
          if bAllCovered then set_Begin samp 0
          else set_Begin samp (uintBig.add (m_Begin samp) range) in
        Some (true, out, samp)
  end.

(** The width of the next slice: [m_End - m_Begin] shifted right by 7 bits,
    and 1 if that is zero. *)
Definition slice (samp : t) : Z :=
  let range := Z.shiftr (uintBig.norm (m_End samp - m_Begin samp)) 7 in
  if range =? 0 then 1 else range.

(** The accept/reject draw in terms of numbers: the first of at most [fuel]
    oracle outputs whose low [nBitsThr] bits are below [threshold]. *)
Fixpoint first_accepted (fuel : nat) (oracle : Oracle) (nBitsThr threshold : Z)
  : option (Z * Oracle) :=
  match fuel with
  | O => None
  | S fuel' =>
      let '(out, oracle) := Oracle_out oracle in
      let candidate := out mod 2 ^ nBitsThr in
      if candidate <? threshold then Some (candidate, oracle)
      else first_accepted fuel' oracle nBitsThr threshold
  end.

End Defs.
End Sampler.

(** ** Block::ChainWorkProof *)

Module ChainWorkProof.
Section Defs.
Context {P : Primitives} {CP : ChainPrimitives} {DC : DifficultyConsts}.
Variable rules : Rules.

Record t : Type := Build {
  m_vStates : list SystemState.Full;
  m_Proof_vData : list Z;
  m_LowerBound : Z;
  m_hvRootLive : Z
}.

(** How a run of the verifier ends: with a return value, by reading
    [m_vStates] past its end, or with the bound on the oracle draws of one
    sample exhausted. *)
Inductive Result (A : Type) : Type :=
| Ret (a : A)
| PastTheEnd
| NoFuel.
Arguments Ret {A} a.
Arguments PastTheEnd {A}.
Arguments NoFuel {A}.

(** [MyVerifier::IsRootValid] *)
Definition IsRootValid (proof : t) (sRoot : SystemState.Full) (hv : Z) : bool :=
  Merkle.Interpret hv (m_hvRootLive proof) =? SystemState.m_Definition sRoot.

(** The [for (iState = 1; ; iState++)] of [IsValidInternal]; [s0] is
    [m_vStates[iState - 1]] and [rest] is [m_vStates] from [iState] on.
    [Ret None] is [return false]; [Ret (Some (iState, ver))] is the [break]. *)
Fixpoint verify_loop (fuel : nat) (proof : t) (sRoot s0 : SystemState.Full)
    (rest : list SystemState.Full) (iState : nat) (samp : Sampler.t)
    (dLoPrev : Z) (ver : Verifier) {struct rest}
  : Result (option (nat * Verifier)) :=
  match Sampler.SamplePoint fuel samp 0 with
  | None => NoFuel
  | Some (false, _, _) => Ret (Some (iState, ver))
  | Some (true, dSamp, samp) =>
      match rest with
      | [] => PastTheEnd
      | s :: rest' =>
          if dSamp >=? SystemState.m_ChainWork s then Ret None
          else
            let dLo :=
              Difficulty.Dec (SystemState.m_Difficulty (SystemState.m_PoW s))
                             (SystemState.m_ChainWork s) in
            if dSamp <? dLo then Ret None
            else
              let m_hvPos := SystemState.get_Hash s in
              let next (ver : Verifier) :=
                let dLoPrev := dLo in
                let samp :=
                  if Sampler.m_Begin samp >? dLo then Sampler.set_Begin samp dLo
                  else samp in
                verify_loop fuel proof sRoot s rest' (S iState) samp dLoPrev ver in
              if u64 (SystemState.m_Height s + 1) =? SystemState.m_Height s0 then
                if negb (SystemState.m_Prev s0 =? m_hvPos) then Ret None
                else if negb (SystemState.m_ChainWork s =? dLoPrev) then Ret None
                else next ver
              else
                if SystemState.m_Height s >=? SystemState.m_Height s0 then Ret None
                else if SystemState.m_ChainWork s >=? dLoPrev then Ret None
                else
                  let ver :=
                    Verifier_Process (IsRootValid proof sRoot) ver m_hvPos
                      (u64 (SystemState.m_Height s - HeightGenesis)) in
                  if negb (Verifier_bVerify ver) then Ret None
                  else next ver
      end
  end.

(** [IsValidInternal(iState, iHash)]: [Ret None] is [return false],
    [Ret (Some (iState, iHash))] is [return true]. *)
Definition IsValidInternal (fuel : nat) (proof : t)
  : Result (option (nat * nat)) :=
  match m_vStates proof with
  | [] => Ret None
  | sRoot :: rest =>
      if negb (forallb (fun s => SystemState.IsSane s
                                 && SystemState.IsValidPoW rules s)
                       (m_vStates proof))
      then Ret None
      else
        let ver :=
          Verifier_new (m_Proof_vData proof)
                       (u64 (SystemState.m_Height sRoot - HeightGenesis)) in
        let samp := Sampler.new sRoot in
        if Sampler.m_Begin samp >=? Sampler.m_End samp then Ret None
        else
          let samp := Sampler.set_LowerBound samp (m_LowerBound proof) in
          let dLoPrev :=
            Difficulty.Dec
              (SystemState.m_Difficulty (SystemState.m_PoW sRoot))
              (SystemState.m_ChainWork sRoot) in
          match verify_loop fuel proof sRoot sRoot rest 1 samp dLoPrev ver with
          | Ret (Some (iState, ver)) =>
              Ret (Some (iState, Verifier_get_Pos ver))
          | Ret None => Ret None
          | PastTheEnd => PastTheEnd
          | NoFuel => NoFuel
          end
  end.

Definition IsValid (fuel : nat) (proof : t) : Result bool :=
  match IsValidInternal fuel proof with
  | Ret (Some (iState, iHash)) =>
      Ret ((length (m_vStates proof) =? iState)%nat
           && (length (m_Proof_vData proof) =? iHash)%nat)
  | Ret None => Ret false
  | PastTheEnd => PastTheEnd
  | NoFuel => NoFuel
  end.

(** [std::vector::resize(n)]; [fill] is the value of the elements added
    when the vector grows. *)
Definition resize {A : Type} (n : nat) (fill : A) (v : list A) : list A :=
  firstn n v ++ repeat fill (n - length v).

(** [Crop()]: [Ret None] is [return false], [Ret (Some proof)] is
    [return true] with the cropped proof. *)
Definition Crop (fuel : nat) (fill : SystemState.Full) (proof : t)
  : Result (option t) :=
  match IsValidInternal fuel proof with
  | Ret (Some (iState, iHash)) =>
      Ret (Some (Build (resize iState fill (m_vStates proof))
                       (resize iHash 0 (m_Proof_vData proof))
                       (m_LowerBound proof) (m_hvRootLive proof)))
  | Ret None => Ret None
  | PastTheEnd => PastTheEnd
  | NoFuel => NoFuel
  end.

End Defs.
Arguments Ret {A} a.
Arguments PastTheEnd {A}.
Arguments NoFuel {A}.
End ChainWorkProof.

(** ** A small concrete model of the primitives

    Points are integers under addition, [H * v] is [v], every range proof
    verifies, a signature is valid when it is [0], and the oracle halves its
    state at each output.  It serves to evaluate the definitions on
    examples. *)

Module Toy.

Definition Z_cmp (a b : Z) : Z := CMP_SIMPLE a b 0.

Lemma Z_cmp_refl (a : Z) : Z_cmp a a = 0.
Proof.
  unfold Z_cmp, CMP_SIMPLE. rewrite Z.ltb_irrefl.
  destruct (Z.gtb_spec a a); [lia | reflexivity].
Qed.

#[export] Instance primitives : Primitives := {|
  Point := Z;
  Point_cmp := Z_cmp;
  Point_cmp_refl := Z_cmp_refl;
  Native := Z;
  Native_Zero := 0;
  Native_add := Z.add;
  Native_neg := Z.opp;
  Native_eqb := Z.eqb;
  Native_mul := Z.mul;
  Native_Import := fun p => if p <? 0 then None else Some p;
  Native_eqb_eq := Z.eqb_eq;
  Native_add_comm := Z.add_comm;
  Native_add_assoc := Z.add_assoc;
  Native_add_0_l := Z.add_0_l;
  Native_add_neg := Z.add_opp_diag_r;
  Scalar := Z;
  G_mul := fun s => s * 2 ^ 130;
  H_mul := fun v => v;
  H_Big_mul := fun v => v;
  Signature := Z;
  Signature_cmp := Z_cmp;
  Signature_cmp_refl := Z_cmp_refl;
  Signature_IsValid := fun sg _ _ => sg =? 0;
  Processor := Z;
  hp_new := 1;
  hp_u64 := fun h x => (31 * h + x) mod 2 ^ 256;
  hp_u32 := fun h x => (31 * h + x) mod 2 ^ 256;
  hp_bool := fun h b => (31 * h + Z.b2z b) mod 2 ^ 256;
  hp_hash := fun h x => (31 * h + x) mod 2 ^ 256;
  hp_point := fun h x => (31 * h + x) mod 2 ^ 256;
  hp_bytes := fun h bs => (31 * h + uintBig.of_bytes bs) mod 2 ^ 256;
  hp_out := fun h => h;
  Oracle := Z;
  Oracle_new := 0;
  Oracle_u64 := fun o x => o + x;
  Oracle_hash := fun o x => o + x;
  Oracle_out := fun o => (o mod 2 ^ 256, o / 2);
  Public := Z;
  Public_m_Value := fun p => p;
  Public_IsValid := fun _ _ _ => true;
  Public_cmp := Z_cmp;
  Confidential := Z;
  Confidential_IsValid := fun _ _ _ => true;
  Confidential_cmp := Z_cmp
|}.

(** Emission 10 per block, coinbase maturity of one block. *)
Definition rules : Rules := {|
  CoinbaseEmission := 10;
  MaturityCoinbase := 1;
  MaturityStd := 0;
  AllowPublicUtxos := false;
  FakePoW := true
|}.

(** A body for the heights 1 to 3: subsidy 30, of which a coinbase output of
    10 is left and 20 sit in an ordinary output. *)
Definition out_coinbase : Output.t :=
  Output.Build (Input.Build 10 0) true 0 None (Some 10).

Definition out_plain : Output.t :=
  Output.Build (Input.Build 20 0) false 0 (Some 0) None.

Definition body : BodyBase.t :=
  BodyBase.Build 0 (AmountBig.Build 30 0) false.

Definition body_reader : Reader.t :=
  Reader.Build [] [out_coinbase; out_plain] [] [].

Definition body_heights : HeightRange.t := HeightRange.Build 1 3.

Definition body_ctx0 : TxBase.Context :=
  TxBase.Build 0 AmountBig.Zero AmountBig.Zero body_heights true 1 0 None.

(** The context after [ValidateAndSummarize] of that body. *)
Definition body_ctx : TxBase.Context :=
  TxBase.Build 30 AmountBig.Zero (AmountBig.Build 10 0) body_heights
               true 1 0 None.

#[export] Instance chain : ChainPrimitives := {|
  PoW_IsValid := fun _ _ _ _ => true;
  Verifier := nat;
  Verifier_new := fun _ _ => O;
  Verifier_Process := fun _ pos _ _ => S pos;
  Verifier_bVerify := fun _ => true;
  Verifier_get_Pos := fun pos => pos
|}.

(** Difficulty constants with a 24-bit mantissa. *)
#[export] Instance difficulty : DifficultyConsts := {|
  s_MantissaBits := 24;
  s_MaxOrder := 231;
  s_Inf := 232 * 2 ^ 24
|}.

(** Two kernels that differ in their hash-lock only. *)
Definition kernel_locked (preimage : option Z) : TxKernel.t :=
  TxKernel.Build 5 0 0 2 (HeightRange.Build 1 9)
    (option_map TxKernel.Build_HashLock preimage) [].

(** An input spending [out_plain], and the transaction holding both. *)
Definition in_plain : Input.t := Input.Build 20 0.

Definition tx_through : TxVectors.t :=
  TxVectors.Build [in_plain] [out_plain] [] [].

(** Two readers, one with a kernel as input kernel and one with the same
    kernel as output kernel. *)
Definition reader_kernel_in : Reader.t :=
  Reader.Build [] [] [kernel_locked None] [].

Definition reader_kernel_out : Reader.t :=
  Reader.Build [] [] [] [kernel_locked None].

Definition empty_tx : TxVectors.t := TxVectors.Build [] [] [] [].

(** A chain of two headers of packed difficulty 0 (raw [2^24]) and the
    chain-work proof made of them. *)
Definition state1 : SystemState.Full :=
  SystemState.Build 1 0 (2 ^ 24) 0 0 (SystemState.Build_PoW [] 0 0).

Definition state2 : SystemState.Full :=
  SystemState.Build 2 (SystemState.get_Hash state1) (2 ^ 25) 0 0
                    (SystemState.Build_PoW [] 0 0).

Definition work_proof : ChainWorkProof.t :=
  ChainWorkProof.Build [state2; state1] [] 0 0.

(** A sampler over the chain-work range from 1000 to 1512, whose oracle
    answers 1 next. *)
Definition sampler : Sampler.t := Sampler.Build 1 1000 1512 0.

(** An output that carries both proofs. *)
Definition out_both : Output.t :=
  Output.Build (Input.Build 20 0) false 0 (Some 0) (Some 20).

(** A stream with one input, two outputs and one output kernel. *)
Definition shard_reader : Reader.t :=
  Reader.Build [in_plain] [out_coinbase; out_plain] []
               [kernel_locked None].

(** A kernel with two nested kernels of the same multiplier, whose height
    ranges contain its own. *)
Definition kernel_tree : TxKernel.t :=
  TxKernel.Build 5 0 0 2 (HeightRange.Build 1 9) None
    [TxKernel.Build 3 0 0 1 (HeightRange.Build 0 20) None [];
     TxKernel.Build 4 0 0 4 (HeightRange.Build 1 9) None []].

(** A block-mode context whose abort flag is set. *)
Definition aborted_ctx : TxBase.Context :=
  TxBase.Build 0 AmountBig.Zero AmountBig.Zero body_heights true 1 0 (Some true).

(** A transaction that balances: an input of 27 pays an output of 20, a
    kernel excess of 5 and a fee of 2. *)
Definition tx_balanced : Transaction.t :=
  Transaction.Build 0
    (TxVectors.Build [Input.Build 27 0] [out_plain] [] [kernel_locked None]).

(** A reader of the vectors of [tx_through], before its first [Reset]. *)
Definition vec_reader : VecReader.t :=
  VecReader.Build tx_through 0 0 0 0 None None None None.

End Toy.

(** * Properties *)

Section HeightProps.

Lemma HeightAdd_saturates (a b : Z) :
  0 <= a < 2 ^ 64 -> 0 <= b < 2 ^ 64 ->
  HeightAdd a b = Z.min (a + b) MaxHeight.
Proof.
  intros Ha Hb. unfold HeightAdd, u64, MaxHeight.
  destruct (Z_lt_ge_dec (a + b) (2 ^ 64)) as [Hlt | Hge].
  - rewrite Z.mod_small by lia.
    destruct (Z.ltb_spec (a + b) b); lia.
  - replace ((a + b) mod 2 ^ 64) with (a + b - 2 ^ 64).
    + destruct (Z.ltb_spec (a + b - 2 ^ 64) b); lia.
    + apply Z.mod_unique with (q := 1); lia.
Qed.

End HeightProps.

(** ** Output maturity *)

Section MaturityProps.
Context {P : Primitives}.

(** C9. For every output and every creation height [h] (a 64-bit value, as
    are the maturity rules and the incubation), [get_MinMaturity h] is the
    exact integer sum [h + (MaturityCoinbase or MaturityStd) + incubation],
    replaced by [MaxHeight] whenever that sum exceeds [MaxHeight]. *)
Theorem get_MinMaturity_saturating (r : Rules) (o : Output.t) (h : Z) :
  Rules_wf r ->
  0 <= h < 2 ^ 64 ->
  0 <= Output.m_Incubation o < 2 ^ 64 ->
  Output.get_MinMaturity r o h =
    Z.min (h + (if Output.m_Coinbase o then MaturityCoinbase r
                else MaturityStd r) + Output.m_Incubation o)
          MaxHeight.
Proof.
  intros (_ & Hcb & Hstd) Hh Hinc. unfold Output.get_MinMaturity.
  set (m := if Output.m_Coinbase o then MaturityCoinbase r else MaturityStd r).
  assert (Hm : 0 <= m < 2 ^ 64) by (subst m; destruct (Output.m_Coinbase o); lia).
  rewrite (HeightAdd_saturates h m) by lia.
  rewrite HeightAdd_saturates; unfold MaxHeight in *; lia.
Qed.

End MaturityProps.

Lemma get_MinMaturity_saturating_witness :
  Output.get_MinMaturity Toy.rules Toy.out_coinbase (2 ^ 64 - 1) = MaxHeight.
Proof.
  rewrite (get_MinMaturity_saturating Toy.rules Toy.out_coinbase (2 ^ 64 - 1)).
  - reflexivity.
  - unfold Rules_wf; cbn; lia.
  - lia.
  - cbn; lia.
Defined.

(** ** Output validity *)

Section OutputProps.
Context {P : Primitives}.

(** C7. [Output::IsValid] returns false when the output carries both proofs
    or neither, when a coinbase output carries a confidential proof, and when
    a non-coinbase output carries a public proof while [AllowPublicUtxos] is
    off; otherwise, when the commitment imports as a curve point, the result
    is the validity of the one carried range proof against that commitment
    (under the oracle seeded with the incubation). *)
Theorem Output_IsValid_cases (r : Rules) (o : Output.t) :
  (Output.m_pConfidential o <> None -> Output.m_pPublic o <> None ->
   fst (Output.IsValid r o) = false) /\
  (Output.m_pConfidential o = None -> Output.m_pPublic o = None ->
   fst (Output.IsValid r o) = false) /\
  (Output.m_Coinbase o = true -> Output.m_pConfidential o <> None ->
   fst (Output.IsValid r o) = false) /\
  (Output.m_Coinbase o = false -> Output.m_pPublic o <> None ->
   AllowPublicUtxos r = false ->
   fst (Output.IsValid r o) = false) /\
  (forall comm, Native_Import (Output.m_Commitment o) = Some comm ->
     let oracle := Oracle_u64 Oracle_new (Output.m_Incubation o) in
     (forall c, Output.m_pConfidential o = Some c ->
        Output.m_pPublic o = None -> Output.m_Coinbase o = false ->
        Output.IsValid r o = (Confidential_IsValid c comm oracle, comm)) /\
     (forall p, Output.m_pConfidential o = None ->
        Output.m_pPublic o = Some p ->
        AllowPublicUtxos r || Output.m_Coinbase o = true ->
        Output.IsValid r o = (Public_IsValid p comm oracle, comm))).
Proof.
  unfold Output.IsValid.
  destruct (Native_Import (Output.m_Commitment o)) as [comm0 |];
    destruct (Output.m_pConfidential o) as [c0 |];
    destruct (Output.m_pPublic o) as [p0 |];
    destruct (Output.m_Coinbase o);
    destruct (AllowPublicUtxos r); cbn;
    repeat split; intros; try congruence;
    repeat match goal with
           | E : Some _ = Some _ |- _ => injection E as E; subst
           end; try reflexivity; try discriminate.
Qed.

End OutputProps.

Lemma Output_IsValid_cases_witness :
  fst (Output.IsValid Toy.rules Toy.out_both) = false /\
  Output.IsValid Toy.rules Toy.out_plain = (true, 20) /\
  Output.IsValid Toy.rules Toy.out_coinbase = (true, 10).
Proof.
  split; [| split].
  - destruct (Output_IsValid_cases Toy.rules Toy.out_both) as (Hboth & _).
    apply Hboth; cbn; discriminate.
  - destruct (Output_IsValid_cases Toy.rules Toy.out_plain)
      as (_ & _ & _ & _ & Hok).
    destruct (Hok 20 eq_refl) as [Hconf _].
    apply (Hconf 0); reflexivity.
  - destruct (Output_IsValid_cases Toy.rules Toy.out_coinbase)
      as (_ & _ & _ & _ & Hok).
    destruct (Hok 10 eq_refl) as [_ Hpub].
    apply (Hpub 10); reflexivity.
Defined.

(** ** Difficulty codec *)

Section DifficultyProps.
Context {DC : DifficultyConsts}.

Lemma pow2_split_mantissa (n m : Z) :
  0 <= n -> 2 ^ n <= m < 2 ^ (n + 1) -> m mod 2 ^ n = m - 2 ^ n.
Proof.
  intros Hn Hm. rewrite Z.pow_add_r in Hm by lia. change (2 ^ 1) with 2 in Hm.
  symmetry. apply Z.mod_unique with (q := 1); lia.
Qed.

Lemma lor_low_high (lo hi n : Z) :
  0 <= n -> 0 <= lo < 2 ^ n -> 0 <= hi ->
  Z.lor lo (hi * 2 ^ n) = lo + hi * 2 ^ n.
Proof.
  intros Hn Hlo Hhi.
  rewrite <- Z.lxor_lor, <- Z.add_nocarry_lxor; try reflexivity.
  all: apply Z.bits_inj'; intros k Hk;
    rewrite Z.land_spec, Z.bits_0, <- Z.shiftl_mul_pow2 by lia;
    destruct (Z_lt_ge_dec k n);
    [ rewrite (Z.shiftl_spec_low hi n k) by lia; apply andb_false_r
    | replace (Z.testbit lo k) with false; [reflexivity |];
      symmetry; destruct (Z.eq_dec lo 0) as [-> | Hne];
      [ apply Z.bits_0
      | apply Z.bits_above_log2; [lia |];
        apply Z.lt_le_trans with n; [apply Z.log2_lt_pow2; lia | lia] ] ].
Qed.

(** C8. For every order in [[0, s_MaxOrder]] and every mantissa in
    [[2^s_MantissaBits, 2^(s_MantissaBits+1))], unpacking the packed value
    gives back exactly the order and the mantissa. *)
Theorem Unpack_Pack (order mantissa : Z) :
  DifficultyConsts_wf DC ->
  0 <= order <= s_MaxOrder ->
  2 ^ s_MantissaBits <= mantissa < 2 ^ (s_MantissaBits + 1) ->
  Difficulty.Unpack (Difficulty.Pack order mantissa) = (order, mantissa).
Proof.
  intros (Hmb & Hmo & Hinf) Hord Hman.
  set (n := s_MantissaBits) in *.
  assert (Hp : 0 < 2 ^ n) by (apply Z.pow_pos_nonneg; lia).
  assert (Hp32 : 2 ^ n < 2 ^ 32) by (apply Z.pow_lt_mono_r; lia).
  assert (Hlead : u32 (Z.shiftl 1 n) = 2 ^ n).
  { unfold u32. rewrite Z.shiftl_mul_pow2, Z.mul_1_l by lia.
    apply Z.mod_small; lia. }
  assert (Hmask : u32 (2 ^ n - 1) = Z.ones n).
  { unfold u32. rewrite Z.ones_equiv, Z.mod_small; lia. }
  assert (Hsh : u32 (Z.shiftl order n) = order * 2 ^ n).
  { unfold u32. rewrite Z.shiftl_mul_pow2 by lia. apply Z.mod_small. nia. }
  assert (Hp1 : 2 ^ (n + 1) = 2 * 2 ^ n)
    by (rewrite Z.pow_add_r by lia; change (2 ^ 1) with 2; lia).
  unfold Difficulty.Unpack, Difficulty.Pack. fold n.
  destruct (Z.leb_spec order s_MaxOrder) as [_ | Hgt]; [| lia].
  rewrite Hlead, Hmask, Hsh, Z.land_ones by lia.
  rewrite (pow2_split_mantissa n mantissa) by lia.
  rewrite (lor_low_high (mantissa - 2 ^ n) order n) by lia.
  rewrite Z.land_ones, Z.shiftr_div_pow2 by lia.
  rewrite Z.div_add, Z.mod_add by lia.
  rewrite Z.div_small, Z.mod_small by lia.
  replace (Z.lor (2 ^ n) (mantissa - 2 ^ n)) with (mantissa - 2 ^ n + 1 * 2 ^ n).
  - f_equal; lia.
  - rewrite <- lor_low_high by lia. rewrite Z.mul_1_l. apply Z.lor_comm.
Qed.

End DifficultyProps.

Lemma Unpack_Pack_witness :
  @Difficulty.Unpack Toy.difficulty
    (@Difficulty.Pack Toy.difficulty 100 (2 ^ 24 + 5)) = (100, 2 ^ 24 + 5).
Proof.
  apply (@Unpack_Pack Toy.difficulty 100 (2 ^ 24 + 5)).
  - unfold DifficultyConsts_wf; cbn; lia.
  - cbn; lia.
  - cbn; lia.
Defined.

(** ** Kernel ordering *)

Section KernelCmpProps.
Context {P : Primitives}.

Lemma CMP_SIMPLE_refl (a k : Z) : CMP_SIMPLE a a k = k.
Proof.
  unfold CMP_SIMPLE. rewrite Z.ltb_irrefl.
  destruct (Z.gtb_spec a a); [lia | reflexivity].
Qed.

Lemma cmp_nested_equal (l0 l1 : list TxKernel.t) :
  Forall2 (fun a b => TxKernel.cmp a b = 0) l0 l1 ->
  TxKernel.cmp_nested TxKernel.cmp l0 l1 = 0.
Proof.
  induction 1 as [| a b l0 l1 Hab _ IH]; cbn; [reflexivity |].
  rewrite Hab. exact IH.
Qed.

(** C10. Two kernels that agree on excess, multiplier, signature, fee and
    both height bounds, and whose nested lists compare equal element by
    element, compare equal, whatever their hash-locks are: [cmp] never reads
    [m_pHashLock]. *)
Theorem cmp_ignores_hash_lock (k v : TxKernel.t) :
  TxKernel.m_Excess k = TxKernel.m_Excess v ->
  TxKernel.m_Multiplier k = TxKernel.m_Multiplier v ->
  TxKernel.m_Signature k = TxKernel.m_Signature v ->
  TxKernel.m_Fee k = TxKernel.m_Fee v ->
  HeightRange.m_Min (TxKernel.m_Height k) =
    HeightRange.m_Min (TxKernel.m_Height v) ->
  HeightRange.m_Max (TxKernel.m_Height k) =
    HeightRange.m_Max (TxKernel.m_Height v) ->
  Forall2 (fun a b => TxKernel.cmp a b = 0)
    (TxKernel.m_vNested k) (TxKernel.m_vNested v) ->
  TxKernel.cmp k v = 0.
Proof.
  destruct k as [ex mu sg fee hr hl nested]. cbn.
  intros -> -> -> -> -> -> Hnested.
  rewrite Point_cmp_refl, Signature_cmp_refl, !CMP_SIMPLE_refl. cbn.
  apply cmp_nested_equal, Hnested.
Qed.

End KernelCmpProps.

Lemma cmp_ignores_hash_lock_witness :
  TxKernel.m_pHashLock (Toy.kernel_locked (Some 7)) <>
    TxKernel.m_pHashLock (Toy.kernel_locked None) /\
  TxKernel.cmp (Toy.kernel_locked (Some 7)) (Toy.kernel_locked None) = 0.
Proof.
  split; [discriminate |].
  apply (cmp_ignores_hash_lock (Toy.kernel_locked (Some 7)) (Toy.kernel_locked None));
    try reflexivity.
  constructor.
Defined.

(** ** Block subsidy *)

Section SubsidyProps.
Context {P : Primitives}.

Lemma Export_value (a : AmountBig.t) :
  AmountBig.wf a ->
  AmountBig.Export a = AmountBig.Lo a + AmountBig.Hi a * 2 ^ 64.
Proof.
  intros [Hlo Hhi]. unfold AmountBig.Export.
  rewrite Z.shiftl_mul_pow2 by lia. apply lor_low_high; lia.
Qed.

Lemma Export_range (a : AmountBig.t) :
  AmountBig.wf a -> 0 <= AmountBig.Export a < 2 ^ 128.
Proof.
  intros Hwf. rewrite Export_value by assumption. destruct Hwf as [Hlo Hhi].
  change (2 ^ 128) with (2 ^ 64 * 2 ^ 64). nia.
Qed.

Lemma uintBig_mul_64 (a b : Z) :
  0 <= a < 2 ^ 64 -> 0 <= b < 2 ^ 64 -> uintBig.mul a b = a * b.
Proof.
  intros Ha Hb. unfold uintBig.mul, uintBig.norm, uintBig.modulus, uintBig.nBits.
  apply Z.mod_small. change (2 ^ 256) with (2 ^ 64 * 2 ^ 64 * 2 ^ 128). nia.
Qed.

Lemma uintBig_sub (a b : Z) :
  0 <= b -> b <= a -> a < 2 ^ 256 ->
  uintBig.add a (uintBig.Negate b) = a - b.
Proof.
  intros Hb Hab Ha.
  unfold uintBig.add, uintBig.Negate, uintBig.norm, uintBig.modulus, uintBig.nBits.
  rewrite Z.add_mod_idemp_r by lia.
  replace (a + - b) with (a - b) by lia. apply Z.mod_small. lia.
Qed.

Lemma u64_range (x : Z) : 0 <= u64 x < 2 ^ 64.
Proof. unfold u64. apply Z.mod_pos_bound. lia. Qed.

(** C1, as the code has it.  When [IsValidBlock] accepts a body with
    [bSubsidyOpen = false]: adding [H * subsidy] to the negated sum gives the
    zero point; the body is not subsidy-closing; the subsidy is at most
    [nBlocksInRange * CoinbaseEmission]; and, when [nBlocksInRange] exceeds
    [MaturityCoinbase], the coinbase total is at least the subsidy minus
    [(nBlocksInRange - MaturityCoinbase) * CoinbaseEmission], the most that
    the mature blocks can have spent. *)
Theorem IsValidBlock_closed_subsidy
    (rules : Rules) (ctx : TxBase.Context) (bb : BodyBase.t) :
  Rules_wf rules ->
  AmountBig.wf (BodyBase.m_Subsidy bb) ->
  AmountBig.wf (TxBase.m_Coinbase ctx) ->
  fst (TxBase.IsValidBlock rules ctx bb false) = true ->
  let n := TxBase.nBlocksInRange ctx in
  let subsidy := AmountBig.Export (BodyBase.m_Subsidy bb) in
  let coinbase := AmountBig.Export (TxBase.m_Coinbase ctx) in
  AmountBig.AddTo (BodyBase.m_Subsidy bb) (Native_neg (TxBase.m_Sigma ctx))
    = Native_Zero /\
  BodyBase.m_SubsidyClosing bb = false /\
  subsidy <= n * CoinbaseEmission rules /\
  (n > MaturityCoinbase rules ->
   coinbase >= subsidy - (n - MaturityCoinbase rules) * CoinbaseEmission rules).
Proof.
  intros (HE & HM & _) Hsub Hcb. unfold TxBase.IsValidBlock. cbn zeta.
  cbn [TxBase.set_Sigma TxBase.m_Sigma TxBase.m_Coinbase TxBase.m_Height].
  assert (Hn := u64_range
    (u64 (HeightRange.m_Max (TxBase.m_Height ctx) -
          HeightRange.m_Min (TxBase.m_Height ctx)) + 1)).
  assert (HS := Export_range _ Hsub). assert (HC := Export_range _ Hcb).
  replace (TxBase.nBlocksInRange _) with (TxBase.nBlocksInRange ctx) by reflexivity.
  fold (TxBase.nBlocksInRange ctx) in Hn.
  set (n := TxBase.nBlocksInRange ctx) in *.
  set (S := AmountBig.Export (BodyBase.m_Subsidy bb)) in *.
  set (C := AmountBig.Export (TxBase.m_Coinbase ctx)) in *.
  destruct (Native_eqb _ Native_Zero) eqn:Hsig; cbn [negb fst]; [| discriminate].
  apply Native_eqb_eq in Hsig.
  destruct (BodyBase.m_SubsidyClosing bb); [discriminate |].
  rewrite uintBig_mul_64 by lia.
  destruct (Z.gtb_spec S (n * CoinbaseEmission rules)) as [| Hle]; [discriminate |].
  destruct (Z.gtb_spec n (MaturityCoinbase rules)) as [Hgt | Hngt].
  - assert (Hd : u64 (n - MaturityCoinbase rules) = n - MaturityCoinbase rules)
      by (apply Z.mod_small; lia).
    rewrite Hd, uintBig_mul_64 by lia.
    set (X := (n - MaturityCoinbase rules) * CoinbaseEmission rules).
    assert (HX : 0 <= X) by (subst X; nia).
    destruct (Z.gtb_spec S X) as [HSX | HSX]; cbn [fst]; intros Hres.
    + rewrite uintBig_sub in Hres by lia.
      apply Z.geb_le in Hres. repeat split; try assumption; lia.
    + apply Z.geb_le in Hres. repeat split; try assumption; lia.
  - cbn [fst]. intros Hres. repeat split; try assumption; lia.
Qed.

End SubsidyProps.

Lemma Toy_rules_wf : Rules_wf Toy.rules.
Proof. unfold Rules_wf; cbn; lia. Qed.

Lemma IsValidBlock_closed_subsidy_witness :
  fst (TxBase.IsValidBlock Toy.rules Toy.body_ctx Toy.body false) = true /\
  AmountBig.Export (TxBase.m_Coinbase Toy.body_ctx) >=
    AmountBig.Export (BodyBase.m_Subsidy Toy.body)
    - (TxBase.nBlocksInRange Toy.body_ctx - MaturityCoinbase Toy.rules)
      * CoinbaseEmission Toy.rules.
Proof.
  split; [reflexivity |].
  apply (IsValidBlock_closed_subsidy Toy.rules Toy.body_ctx Toy.body).
  - exact Toy_rules_wf.
  - unfold AmountBig.wf; cbn; lia.
  - unfold AmountBig.wf; cbn; lia.
  - reflexivity.
  - vm_compute. reflexivity.
Defined.

(** C1, as the claim has it, fails: the body of [Toy.body_reader] for heights
    1 to 3 is summarized and accepted with [bSubsidyOpen = false], three
    blocks exceed the maturity of one, and the coinbase total 10 is below
    [(3 - 1) * 10 - (10 * 3 - 30) = 20]. *)
Lemma IsValidBlock_claimed_bound_fails :
  TxBase.ValidateAndSummarize Toy.rules Toy.body_ctx0
    (BodyBase.m_Offset Toy.body) Toy.body_reader = Some Toy.body_ctx /\
  fst (TxBase.IsValidBlock Toy.rules Toy.body_ctx Toy.body false) = true /\
  TxBase.nBlocksInRange Toy.body_ctx > MaturityCoinbase Toy.rules /\
  ~ (AmountBig.Export (TxBase.m_Coinbase Toy.body_ctx) >=
       (TxBase.nBlocksInRange Toy.body_ctx - MaturityCoinbase Toy.rules)
         * CoinbaseEmission Toy.rules
       - (CoinbaseEmission Toy.rules * TxBase.nBlocksInRange Toy.body_ctx
          - AmountBig.Export (BodyBase.m_Subsidy Toy.body))).
Proof.
  repeat split; try reflexivity. vm_compute. intros Hge. apply Hge. reflexivity.
Qed.

(** ** Cut-through *)

Section CutThroughProps.
Context {P : Primitives}.

Lemma delete_loop_from_end (ins : list Input.t)
    (vOut : list (option Output.t)) (nDel : nat) :
  TxVectors.delete_loop ins vOut (length vOut) nDel
  = Some (map Some ins, vOut, nDel).
Proof.
  induction ins as [| pInp ins IH]; cbn [TxVectors.delete_loop map].
  - reflexivity.
  - rewrite Nat.sub_diag. cbn [TxVectors.scan_outputs]. rewrite IH. reflexivity.
Qed.

(** The scan of the outputs starts at [m_vOutputs.size()], so it never looks
    at an output: nothing is ever deleted. *)
Lemma DeleteIntermediateOutputs_deletes_nothing (txv : TxVectors.t) :
  TxVectors.DeleteIntermediateOutputs txv = Some (O, txv).
Proof.
  unfold TxVectors.DeleteIntermediateOutputs.
  cbn zeta.
  replace (length (TxVectors.m_vOutputs txv))
    with (length (map Some (TxVectors.m_vOutputs txv))) by apply length_map.
  rewrite delete_loop_from_end. reflexivity.
Qed.

Lemma at_reader_KernelIn (i : nat) (f : Reader.t -> Reader.t)
    (ppR : list Reader.t) :
  (forall r, Reader.KernelIn (f r) = Reader.KernelIn r) ->
  map Reader.m_pKernelIn (IWriter.at_reader i f ppR) = map Reader.m_pKernelIn ppR.
Proof.
  intros Hf. revert i.
  induction ppR as [| r ppR IH]; intros [| i]; cbn; try reflexivity.
  - unfold Reader.m_pKernelIn. rewrite Hf. reflexivity.
  - rewrite IH. reflexivity.
Qed.

Lemma at_reader_KernelOut (i : nat) (f : Reader.t -> Reader.t)
    (ppR : list Reader.t) :
  (forall r, Reader.KernelOut (f r) = Reader.KernelOut r) ->
  map Reader.m_pKernelOut (IWriter.at_reader i f ppR) = map Reader.m_pKernelOut ppR.
Proof.
  intros Hf. revert i.
  induction ppR as [| r ppR IH]; intros [| i]; cbn; try reflexivity.
  - unfold Reader.m_pKernelOut. rewrite Hf. reflexivity.
  - rewrite IH. reflexivity.
Qed.

(** Once the least input kernel and the least output kernel compare equal,
    the kernel loop of [Combine] advances UTXO cursors only, finds the same
    pair again and never ends (unless it is stopped). *)
Lemma Combine_Kernels_stuck (fuel : nat) (ppR : list Reader.t) (w : TxVectors.t)
    (inp out : TxKernel.t) (iInp iOut : nat) :
  IWriter.select_min TxKernel.gt (map Reader.m_pKernelIn ppR) 0 None
    = Some (inp, iInp) ->
  IWriter.select_min TxKernel.gt (map Reader.m_pKernelOut ppR) 0 None
    = Some (out, iOut) ->
  TxKernel.cmp inp out = 0 ->
  IWriter.Combine_Kernels fuel false ppR w = IWriter.OutOfFuel.
Proof.
  intros Hin Hout Hcmp. revert ppR Hin Hout.
  induction fuel as [| fuel IH]; intros ppR Hin Hout; cbn [IWriter.Combine_Kernels].
  - reflexivity.
  - rewrite Hin, Hout, Hcmp. cbn.
    apply IH.
    + rewrite !at_reader_KernelIn by reflexivity. exact Hin.
    + rewrite !at_reader_KernelOut by reflexivity. exact Hout.
Qed.

End CutThroughProps.

(** C5. [DeleteIntermediateOutputs] on the sorted transaction with the input
    [(20, 0)] and the output of the same commitment and maturity drops
    nothing and returns 0, where one pair should go. *)
Theorem DeleteIntermediateOutputs_keeps_pair :
  Input.cmp_CaM Toy.in_plain (Output.base Toy.out_plain) = 0 /\
  TxVectors.DeleteIntermediateOutputs Toy.tx_through = Some (O, Toy.tx_through).
Proof.
  split; [reflexivity |]. apply DeleteIntermediateOutputs_deletes_nothing.
Qed.

(** C6. [Combine] of a reader whose only item is the input kernel [K] and a
    reader whose only item is the output kernel [K] does not cancel the
    pair: whatever the bound on the iterations, the kernel loop is still
    running when the bound is reached. *)
Theorem Combine_kernel_match_never_ends (fuel : nat) :
  IWriter.Combine fuel false [Toy.reader_kernel_in; Toy.reader_kernel_out]
    Toy.empty_tx = IWriter.OutOfFuel.
Proof.
  unfold IWriter.Combine. destruct fuel as [| fuel]; [reflexivity |].
  assert (Hutxo :
    IWriter.Combine_Utxo (S fuel) false
      [Toy.reader_kernel_in; Toy.reader_kernel_out] Toy.empty_tx
    = IWriter.Finished ([Toy.reader_kernel_in; Toy.reader_kernel_out], Toy.empty_tx))
    by reflexivity.
  rewrite Hutxo.
  rewrite (Combine_Kernels_stuck (S fuel) _ _
             (Toy.kernel_locked None) (Toy.kernel_locked None) 0%nat 1%nat);
    reflexivity.
Qed.

(** ** Big integers as bytes *)

Lemma of_bytes_acc_spec (bs : list Z) (acc : Z) :
  uintBig.of_bytes_acc acc bs
  = acc * 256 ^ Z.of_nat (length bs) + uintBig.of_bytes bs.
Proof.
  unfold uintBig.of_bytes. revert acc.
  induction bs as [| b bs IH]; intros acc; cbn [uintBig.of_bytes_acc length].
  - rewrite Z.pow_0_r. lia.
  - rewrite IH, (IH (0 * 256 + b)), Nat2Z.inj_succ, Z.pow_succ_r by lia. ring.
Qed.

Lemma of_bytes_cons (b : Z) (bs : list Z) :
  uintBig.of_bytes (b :: bs) = b * 256 ^ Z.of_nat (length bs) + uintBig.of_bytes bs.
Proof.
  unfold uintBig.of_bytes at 1. cbn [uintBig.of_bytes_acc].
  rewrite of_bytes_acc_spec. f_equal. 
Qed.

Lemma of_bytes_app (a b : list Z) :
  uintBig.of_bytes (a ++ b)
  = uintBig.of_bytes a * 256 ^ Z.of_nat (length b) + uintBig.of_bytes b.
Proof.
  induction a as [| x a IH]; cbn [app].
  - reflexivity.
  - rewrite !of_bytes_cons, IH, length_app, Nat2Z.inj_add, Z.pow_add_r by lia. ring.
Qed.

Lemma of_bytes_range (bs : list Z) :
  uintBig.bytes_ok bs -> 0 <= uintBig.of_bytes bs < 256 ^ Z.of_nat (length bs).
Proof.
  induction 1 as [| b bs Hb _ IH].
  - cbn. lia.
  - rewrite of_bytes_cons. cbn [length]. rewrite Nat2Z.inj_succ, Z.pow_succ_r by lia.
    nia.
Qed.

Lemma to_bytes_rev_ok (n : nat) (x : Z) : uintBig.bytes_ok (uintBig.to_bytes_rev n x).
Proof.
  revert x. induction n as [| n IH]; intros x; cbn; constructor.
  - apply Z.mod_pos_bound. lia.
  - apply IH.
Qed.

Lemma to_bytes_rev_length (n : nat) (x : Z) : length (uintBig.to_bytes_rev n x) = n.
Proof. revert x. induction n as [| n IH]; intros x; cbn; [| rewrite IH]; reflexivity. Qed.

Lemma of_bytes_rev_digits (n : nat) (x : Z) :
  uintBig.of_bytes (rev (uintBig.to_bytes_rev n x)) = x mod 256 ^ Z.of_nat n.
Proof.
  revert x. induction n as [| n IH]; intros x.
  - cbn. rewrite Z.mod_1_r. reflexivity.
  - cbn [uintBig.to_bytes_rev rev]. rewrite of_bytes_app, IH.
    change (uintBig.of_bytes [x mod 256]) with (x mod 256).
    change (256 ^ Z.of_nat (length [x mod 256])) with 256.
    rewrite Nat2Z.inj_succ, Z.pow_succ_r by lia.
    rewrite Z.rem_mul_r by (try apply Z.pow_nonzero; lia). lia.
Qed.

Lemma to_bytes_ok (x : Z) : uintBig.bytes_ok (uintBig.to_bytes x).
Proof. apply Forall_rev, to_bytes_rev_ok. Qed.

Lemma to_bytes_length (x : Z) : length (uintBig.to_bytes x) = uintBig.nBytes.
Proof. unfold uintBig.to_bytes. rewrite length_rev. apply to_bytes_rev_length. Qed.

Lemma of_bytes_to_bytes (x : Z) : uintBig.of_bytes (uintBig.to_bytes x) = uintBig.norm x.
Proof. apply of_bytes_rev_digits. Qed.

(** TakeFraction *)
Lemma lor_bit_even (a c : Z) :
  0 <= a < 2 -> 0 <= c -> Z.lor a (2 * c) = a + 2 * c.
Proof.
  intros Ha Hc. replace (2 * c) with (c * 2 ^ 1) by (change (2 ^ 1) with 2; lia).
  apply lor_low_high; [lia | change (2 ^ 1) with 2; lia | lia].
Qed.

Lemma TakeFraction_loop_spec (bs : list Z) (Vp : Z) :
  uintBig.bytes_ok bs -> 0 <= Vp ->
  uintBig.of_bytes_acc (Vp / 128) (Sampler.TakeFraction_loop (2 * (Vp mod 128)) bs)
  = uintBig.of_bytes_acc Vp bs / 128.
Proof.
  intros Hok. revert Vp.
  induction Hok as [| x bs Hx _ IH]; intros Vp HVp;
    cbn [Sampler.TakeFraction_loop uintBig.of_bytes_acc]; [reflexivity |].
  assert (Hcarry : u8 (Z.shiftl x 1) = 2 * ((Vp * 256 + x) mod 128)).
  { unfold u8. rewrite Z.shiftl_mul_pow2 by lia. change (2 ^ 1) with 2.
    change (2 ^ 8) with (2 * 128). rewrite (Z.mul_comm x 2).
    rewrite Z.mul_mod_distr_l by lia. f_equal.
    replace (Vp * 256 + x) with (x + (2 * Vp) * 128) by lia.
    rewrite Z.mod_add by lia. reflexivity. }
  assert (Hbyte : Z.lor (Z.shiftr x 7) (2 * (Vp mod 128)) = x / 128 + 2 * (Vp mod 128)).
  { rewrite Z.shiftr_div_pow2 by lia. change (2 ^ 7) with 128.
    apply lor_bit_even.
    - split; [apply Z.div_pos; lia | apply Z.div_lt_upper_bound; lia].
    - apply Z.mod_pos_bound. lia. }
  rewrite Hcarry, Hbyte.
  replace (Vp / 128 * 256 + (x / 128 + 2 * (Vp mod 128))) with ((Vp * 256 + x) / 128).
  - apply IH. lia.
  - replace (Vp * 256 + x) with (x + (2 * Vp) * 128) by lia.
    rewrite Z.div_add by lia. pose proof (Z.div_mod Vp 128). lia.
Qed.

Lemma TakeFraction_spec (v : Z) :
  Sampler.TakeFraction v = uintBig.norm v / 128.
Proof.
  unfold Sampler.TakeFraction, uintBig.of_bytes.
  rewrite <- of_bytes_to_bytes. unfold uintBig.of_bytes.
  apply (TakeFraction_loop_spec (uintBig.to_bytes v) 0); [apply to_bytes_ok | lia].
Qed.

(** FindOrderOf *)
Lemma count_shifts_spec (fuel : nat) (x nOrder : Z) :
  0 < x < 2 ^ Z.of_nat fuel -> 0 <= nOrder -> nOrder + Z.log2 x < 2 ^ 32 ->
  Sampler.count_shifts fuel x nOrder = nOrder + Z.log2 x.
Proof.
  revert x nOrder. induction fuel as [| fuel IH]; intros x nOrder Hx Hn Hsum.
  - cbn in Hx. lia.
  - cbn [Sampler.count_shifts].
    assert (Hlog : 0 <= Z.log2 x) by apply Z.log2_nonneg.
    destruct (Z.eqb_spec (Z.shiftr x 1) 0) as [Hz | Hnz].
    + apply Z.shiftr_eq_0_iff in Hz. destruct Hz as [Hz | [_ Hz]]; lia.
    + assert (Hx1 : Z.log2 (Z.shiftr x 1) = Z.log2 x - 1).
      { rewrite Z.log2_shiftr by lia.
        destruct (Z.eq_dec (Z.log2 x) 0) as [H0 | H0]; [| lia].
        exfalso. apply Hnz. apply Z.shiftr_eq_0; lia. }
      assert (Hpos : 0 < Z.shiftr x 1).
      { rewrite Z.shiftr_div_pow2 by lia. change (2 ^ 1) with 2.
        rewrite Z.shiftr_div_pow2 in Hnz by lia. change (2 ^ 1) with 2 in Hnz.
        assert (0 <= x / 2) by (apply Z.div_pos; lia). lia. }
      pose proof (Z.log2_nonneg (Z.shiftr x 1)) as Hnn.
      assert (Hu : u32 (nOrder + 1) = nOrder + 1) by (unfold u32; apply Z.mod_small; lia).
      rewrite Hu, IH; try lia.
      split; [lia |]. rewrite Z.shiftr_div_pow2 by lia. change (2 ^ 1) with 2.
      apply Z.div_lt_upper_bound; [lia |].
      rewrite Nat2Z.inj_succ, Z.pow_succ_r in Hx by lia. lia.
Qed.

Lemma log2_high_byte (x r n : Z) :
  0 < x -> 0 <= n -> 0 <= r < 2 ^ n ->
  Z.log2 (x * 2 ^ n + r) = Z.log2 x + n.
Proof.
  intros Hx Hn Hr. pose proof (Z.log2_spec x Hx) as [Hlo Hhi].
  pose proof (Z.log2_nonneg x).
  apply Z.log2_unique; [lia |].
  rewrite <- Z.add_succ_l, !Z.pow_add_r by lia. 
  assert (0 < 2 ^ n) by (apply Z.pow_pos_nonneg; lia). split; nia.
Qed.

Lemma FindOrderOf_loop_spec (bs : list Z) :
  uintBig.bytes_ok bs -> (length bs <= 32)%nat ->
  Sampler.FindOrderOf_loop bs
  = if uintBig.of_bytes bs =? 0 then 0 else Z.log2 (uintBig.of_bytes bs) + 1.
Proof.
  induction 1 as [| x bs Hx Hok IH]; intros Hlen; [reflexivity |].
  cbn [Sampler.FindOrderOf_loop]. cbn [length] in Hlen.
  pose proof (of_bytes_range bs Hok) as Hr.
  rewrite of_bytes_cons.
  assert (Hp : 256 ^ Z.of_nat (length bs) = 2 ^ (8 * Z.of_nat (length bs))).
  { change 256 with (2 ^ 8). rewrite <- Z.pow_mul_r by lia. reflexivity. }
  destruct (Z.eqb_spec x 0) as [-> | Hnz].
  - rewrite Z.mul_0_l, Z.add_0_l. apply IH. lia.
  - rewrite Hp in *. rewrite log2_high_byte by lia.
    assert (Hpos : 0 < 2 ^ (8 * Z.of_nat (length bs))) by (apply Z.pow_pos_nonneg; lia).
    destruct (Z.eqb_spec (x * 2 ^ (8 * Z.of_nat (length bs)) + uintBig.of_bytes bs) 0);
      [nia |].
    assert (Hx7 : 0 <= Z.log2 x < 8).
    { split; [apply Z.log2_nonneg |]. apply Z.log2_lt_pow2; [lia |]. cbn; lia. }
    assert (Hinit : u32 (u32 (Z.shiftl (Z.of_nat (length (x :: bs))) 3) - 7)
                    = 8 * Z.of_nat (length bs) + 1).
    { cbn [length]. rewrite Z.shiftl_mul_pow2 by lia. change (2 ^ 3) with 8.
      unfold u32. rewrite (Z.mod_small (_ * 8)) by lia.
      rewrite Z.mod_small by lia. lia. }
    rewrite Hinit, count_shifts_spec; lia.
Qed.

Lemma FindOrderOf_spec (v : Z) :
  Sampler.FindOrderOf v
  = if uintBig.norm v =? 0 then 0 else Z.log2 (uintBig.norm v) + 1.
Proof.
  unfold Sampler.FindOrderOf. rewrite FindOrderOf_loop_spec.
  - rewrite of_bytes_to_bytes. reflexivity.
  - apply to_bytes_ok.
  - rewrite to_bytes_length. unfold uintBig.nBytes. lia.
Qed.

(** UnfiromRandom *)
Lemma memcmp_lt (a b : list Z) :
  uintBig.bytes_ok a -> uintBig.bytes_ok b -> length a = length b ->
  (Sampler.memcmp a b <? 0) = (uintBig.of_bytes a <? uintBig.of_bytes b).
Proof.
  intros Ha. revert b.
  induction Ha as [| x a Hx Ha IH]; intros b Hb Hlen.
  - destruct b; [reflexivity | discriminate].
  - destruct Hb as [| y b Hy Hb]; [discriminate |].
    injection Hlen as Hlen. cbn [Sampler.memcmp]. rewrite !of_bytes_cons, <- Hlen.
    pose proof (of_bytes_range a Ha) as Ra.
    pose proof (of_bytes_range b Hb) as Rb. rewrite <- Hlen in Rb.
    set (p := 256 ^ Z.of_nat (length a)) in *.
    destruct (Z.ltb_spec x y) as [Hlt | Hge].
    + symmetry. apply Z.ltb_lt. nia.
    + destruct (Z.gtb_spec x y) as [Hgt | Hle].
      * symmetry. apply Z.ltb_ge. nia.
      * replace y with x by lia. rewrite IH by assumption.
        destruct (Z.ltb_spec (uintBig.of_bytes a) (uintBig.of_bytes b));
          symmetry; [apply Z.ltb_lt | apply Z.ltb_ge]; lia.
Qed.

Lemma firstn_to_bytes_rev (m k : nat) (v : Z) :
  (m <= k)%nat -> firstn m (uintBig.to_bytes_rev k v) = uintBig.to_bytes_rev m v.
Proof.
  revert k v. induction m as [| m IH]; intros k v Hmk; [reflexivity |].
  destruct k as [| k]; [lia |]. cbn. rewrite IH by lia. reflexivity.
Qed.

Lemma skipn_to_bytes (n : nat) (v : Z) :
  (n <= uintBig.nBytes)%nat ->
  skipn n (uintBig.to_bytes v) = rev (uintBig.to_bytes_rev (uintBig.nBytes - n) v).
Proof.
  intros Hn. unfold uintBig.to_bytes.
  rewrite skipn_rev, to_bytes_rev_length, firstn_to_bytes_rev by lia. reflexivity.
Qed.

Lemma to_bytes_rev_snoc (q : nat) (x : Z) :
  uintBig.to_bytes_rev (S q) x
  = uintBig.to_bytes_rev q x ++ [(x / 256 ^ Z.of_nat q) mod 256].
Proof.
  revert x. induction q as [| q IH]; intros x.
  - cbn. rewrite Z.div_1_r. reflexivity.
  - change (uintBig.to_bytes_rev (S (S q)) x)
      with (x mod 256 :: uintBig.to_bytes_rev (S q) (x / 256)).
    rewrite IH. cbn [uintBig.to_bytes_rev app]. do 3 f_equal.
    rewrite Nat2Z.inj_succ, Z.pow_succ_r, Z.div_div by (try apply Z.pow_pos_nonneg; lia).
    reflexivity.
Qed.

Lemma skipn_update_at (n : nat) (f : Z -> Z) (l : list Z) :
  skipn n (Sampler.update_at n f l)
  = match skipn n l with
    | x :: r => f x :: r
    | [] => []
    end.
Proof.
  revert l. induction n as [| n IH]; intros [| x l]; cbn; try reflexivity.
  apply IH.
Qed.

Lemma masked_low_bytes (out : Z) (q : nat) (k : Z) :
  0 <= k < 8 ->
  let lo := match rev (uintBig.to_bytes_rev (S q) out) with
            | x :: r => Z.land x (2 ^ (k + 1) - 1) :: r
            | [] => []
            end in
  uintBig.bytes_ok lo /\ length lo = S q /\
  uintBig.of_bytes lo = out mod 2 ^ (8 * Z.of_nat q + k + 1).
Proof.
  intros Hk. rewrite to_bytes_rev_snoc, rev_app_distr. cbn [rev app].
  set (x := (out / 256 ^ Z.of_nat q) mod 256).
  assert (Hp8 : 256 ^ Z.of_nat q = 2 ^ (8 * Z.of_nat q)).
  { change 256 with (2 ^ 8). rewrite <- Z.pow_mul_r by lia. reflexivity. }
  assert (Hmask : Z.land x (2 ^ (k + 1) - 1) = (out / 256 ^ Z.of_nat q) mod 2 ^ (k + 1)).
  { replace (2 ^ (k + 1) - 1) with (Z.ones (k + 1)) by (rewrite Z.ones_equiv; lia).
    rewrite Z.land_ones by lia. subst x.
    replace 256 with (2 ^ (k + 1) * 2 ^ (7 - k)) at 2
      by (rewrite <- Z.pow_add_r by lia; replace (k + 1 + (7 - k)) with 8 by lia;
          reflexivity).
    rewrite Z.rem_mul_r by (try apply Z.pow_pos_nonneg; try apply Z.pow_nonzero; lia).
    rewrite Z.mul_comm, Z.mod_add by (apply Z.pow_nonzero; lia).
    apply Z.mod_mod. apply Z.pow_nonzero; lia. }
  assert (Hp : 0 < 2 ^ (k + 1) <= 256).
  { split; [apply Z.pow_pos_nonneg; lia |].
    change 256 with (2 ^ 8). apply Z.pow_le_mono_r; lia. }
  cbn zeta. repeat split.
  - constructor; [| apply Forall_rev, to_bytes_rev_ok].
    rewrite Hmask. pose proof (Z.mod_pos_bound (out / 256 ^ Z.of_nat q) (2 ^ (k + 1))).
    lia.
  - cbn [length]. rewrite length_rev, to_bytes_rev_length. reflexivity.
  - rewrite of_bytes_cons, of_bytes_rev_digits, length_rev, to_bytes_rev_length, Hmask.
    rewrite Hp8. replace (8 * Z.of_nat q + k + 1) with (8 * Z.of_nat q + (k + 1)) by lia.
    rewrite (Z.pow_add_r 2 (8 * Z.of_nat q) (k + 1)) by lia.
    rewrite (Z.rem_mul_r out) by (try apply Z.pow_pos_nonneg; try apply Z.pow_nonzero; lia).
    lia.
Qed.

Lemma of_bytes_zeros (n : nat) : uintBig.of_bytes (repeat 0 n) = 0.
Proof.
  induction n as [| n IH]; [reflexivity |].
  cbn [repeat]. rewrite of_bytes_cons, IH. lia.
Qed.

Section SamplerProps.
Context {P : Primitives} {CP : ChainPrimitives} {DC : DifficultyConsts}.

Lemma UnfiromRandom_loop_spec (fuel : nat) (oracle : Oracle) (thr : Z) :
  0 < thr < 2 ^ 256 ->
  Sampler.UnfiromRandom_loop fuel oracle thr
    (Z.to_nat (31 - Z.log2 thr / 8)) (2 ^ (Z.log2 thr mod 8 + 1) - 1)
  = Sampler.first_accepted fuel oracle (Z.log2 thr + 1) thr.
Proof.
  intros Hthr.
  pose proof (Z.log2_spec thr (proj1 Hthr)) as [Hlo Hhi].
  assert (Hhb : 0 <= Z.log2 thr < 256).
  { split; [apply Z.log2_nonneg | apply Z.log2_lt_pow2; lia]. }
  set (hb := Z.log2 thr) in *.
  pose proof (Z.div_mod hb 8 ltac:(lia)) as Hdm.
  pose proof (Z.mod_pos_bound hb 8 ltac:(lia)) as Hk.
  assert (Hq : 0 <= hb / 8 < 32)
    by (split; [apply Z.div_pos; lia | apply Z.div_lt_upper_bound; lia]).
  set (q := Z.to_nat (hb / 8)).
  assert (Hoffs : (Z.to_nat (31 - hb / 8) <= uintBig.nBytes)%nat)
    by (unfold uintBig.nBytes; lia).
  assert (Hrest : (uintBig.nBytes - Z.to_nat (31 - hb / 8))%nat = S q)
    by (unfold uintBig.nBytes; subst q; lia).
  assert (Hbits : 8 * Z.of_nat q + hb mod 8 + 1 = hb + 1) by (subst q; lia).
  assert (Hthr_lo :
    uintBig.of_bytes (rev (uintBig.to_bytes_rev (S q) thr)) = thr).
  { rewrite of_bytes_rev_digits. apply Z.mod_small. split; [lia |].
    apply Z.lt_le_trans with (2 ^ Z.succ hb); [exact Hhi |].
    change 256 with (2 ^ 8). rewrite <- Z.pow_mul_r by lia.
    apply Z.pow_le_mono_r; lia. }
  revert oracle. induction fuel as [| fuel IH]; intros oracle; [reflexivity |].
  cbn [Sampler.UnfiromRandom_loop Sampler.first_accepted].
  destruct (Oracle_out oracle) as [out oracle'].
  rewrite skipn_update_at, !skipn_to_bytes, Hrest by assumption.
  destruct (masked_low_bytes out q (hb mod 8) Hk) as (Hok & Hlen & Hval).
  rewrite Hbits in Hval.
  rewrite memcmp_lt.
  - rewrite Hthr_lo, Hval, of_bytes_app, of_bytes_zeros, Hval, IH.
    rewrite Z.mul_0_l, Z.add_0_l. reflexivity.
  - exact Hok.
  - apply Forall_rev, to_bytes_rev_ok.
  - rewrite Hlen, length_rev, to_bytes_rev_length. reflexivity.
Qed.

Lemma UnfiromRandom_spec (fuel : nat) (oracle : Oracle) (out thr : Z) :
  0 < thr < 2 ^ 256 ->
  Sampler.UnfiromRandom fuel oracle out thr
  = match Sampler.first_accepted fuel oracle (Z.log2 thr + 1) thr with
    | Some (rnd, oracle') => Some (true, rnd, oracle')
    | None => None
    end.
Proof.
  intros Hthr. unfold Sampler.UnfiromRandom.
  assert (Hnorm : uintBig.norm thr = thr) by (apply Z.mod_small; cbn; lia).
  rewrite FindOrderOf_spec, Hnorm.
  assert (Hhb : 0 <= Z.log2 thr < 256).
  { split; [apply Z.log2_nonneg | apply Z.log2_lt_pow2; lia]. }
  set (hb := Z.log2 thr) in *.
  destruct (Z.eqb_spec thr 0); [lia |].
  destruct (Z.eqb_spec (hb + 1) 0); [lia |].
  replace (hb + 1 - 1) with hb by lia.
  assert (Hu : u32 hb = hb) by (apply Z.mod_small; lia). rewrite Hu.
  pose proof (Z.mod_pos_bound hb 8 ltac:(lia)) as Hk.
  assert (Hq : 0 <= hb / 8 < 32)
    by (split; [apply Z.div_pos; lia | apply Z.div_lt_upper_bound; lia]).
  assert (Hoffs : u32 (Z.of_nat uintBig.nBytes - 1 - Z.shiftr hb 3) = 31 - hb / 8).
  { rewrite Z.shiftr_div_pow2 by lia. change (2 ^ 3) with 8.
    change (Z.of_nat uintBig.nBytes) with 32. apply Z.mod_small. lia. }
  assert (Hmsk : u8 (u8 (Z.shiftl 2 (Z.land 7 hb)) - 1) = 2 ^ (hb mod 8 + 1) - 1).
  { rewrite Z.land_comm. change 7 with (Z.ones 3). rewrite Z.land_ones by lia.
    change (2 ^ 3) with 8. rewrite Z.shiftl_mul_pow2 by lia.
    replace (2 * 2 ^ (hb mod 8)) with (2 ^ (hb mod 8 + 1))
      by (rewrite Z.pow_add_r by lia; change (2 ^ 1) with 2; lia).
    assert (Hp : 2 <= 2 ^ (hb mod 8 + 1) <= 256).
    { split.
      - change 2 with (2 ^ 1) at 1. apply Z.pow_le_mono_r; lia.
      - change 256 with (2 ^ 8). apply Z.pow_le_mono_r; lia. }
    unfold u8. change (2 ^ 8) with 256.
    destruct (Z.eq_dec (2 ^ (hb mod 8 + 1)) 256) as [-> | Hne]; [reflexivity |].
    rewrite (Z.mod_small (2 ^ _)) by lia. apply Z.mod_small. lia. }
  rewrite Hoffs, Hmsk, UnfiromRandom_loop_spec by assumption.
  subst hb.
  destruct (Sampler.first_accepted fuel oracle (Z.log2 thr + 1) thr) as [[rnd o'] |];
    reflexivity.
Qed.

Lemma first_accepted_range (fuel : nat) (oracle : Oracle) (n thr rnd : Z)
    (oracle' : Oracle) :
  0 <= n ->
  Sampler.first_accepted fuel oracle n thr = Some (rnd, oracle') ->
  0 <= rnd < thr.
Proof.
  intros Hn. revert oracle. induction fuel as [| fuel IH]; intros oracle; [discriminate |].
  cbn [Sampler.first_accepted]. destruct (Oracle_out oracle) as [out o'].
  destruct (Z.ltb_spec (out mod 2 ^ n) thr) as [Hlt | Hge].
  - intros [= <- <-]. split; [| exact Hlt].
    apply Z.mod_pos_bound. apply Z.pow_pos_nonneg; lia.
  - apply IH.
Qed.

End SamplerProps.

(** ** The sampler *)

Section SamplePointProps.
Context {P : Primitives}.

Lemma norm_range (x : Z) : 0 <= uintBig.norm x < 2 ^ 256.
Proof. apply Z.mod_pos_bound. reflexivity. Qed.

Lemma slice_range (samp : Sampler.t) : 0 < Sampler.slice samp < 2 ^ 256.
Proof.
  unfold Sampler.slice. cbn zeta.
  pose proof (norm_range (Sampler.m_End samp - Sampler.m_Begin samp)) as Hn.
  rewrite Z.shiftr_div_pow2 by lia. change (2 ^ 7) with 128.
  set (d := uintBig.norm _) in *.
  assert (0 <= d / 128 <= d) by (split; [apply Z.div_pos | apply Z.div_le_upper_bound]; lia).
  destruct (Z.eqb_spec (d / 128) 0); lia.
Qed.

Lemma SamplePoint_range (samp : Sampler.t) :
  (let range := uintBig.add (uintBig.Negate (Sampler.m_Begin samp)) (Sampler.m_End samp) in
   let range := Sampler.TakeFraction range in
   if range =? 0 then 1 else range) = Sampler.slice samp.
Proof.
  cbn zeta. rewrite TakeFraction_spec. unfold Sampler.slice.
  rewrite Z.shiftr_div_pow2 by lia. change (2 ^ 7) with 128.
  replace (uintBig.norm (uintBig.add (uintBig.Negate (Sampler.m_Begin samp)) (Sampler.m_End samp)))
    with (uintBig.norm (Sampler.m_End samp - Sampler.m_Begin samp)); [reflexivity |].
  unfold uintBig.add, uintBig.Negate, uintBig.norm.
  rewrite Z.mod_mod, Z.add_mod_idemp_l by (cbn; lia). f_equal. lia.
Qed.

(** C4, as the code has it.  [SamplePoint] takes for range the difference
    [m_End - m_Begin] shifted right by 7 bits (1 if that is zero), draws from
    the oracle a value [random] in [[0, range)] (the first output that, cut to
    the bit length of the range, is below it; the draw is assumed to succeed
    within [fuel] outputs), outputs [out = m_Begin - range + random] modulo
    [2^256], returns false exactly when [out < m_LowerBound] or
    [out >= m_Begin], and otherwise moves [m_Begin] to 0 when
    [range >= m_Begin] and down by [range] if not. *)
Theorem SamplePoint_spec (fuel : nat) (samp : Sampler.t) (out0 : Z)
    (random : Z) (oracle' : Oracle) :
  let range := Sampler.slice samp in
  Sampler.first_accepted fuel (Sampler.m_Oracle samp) (Z.log2 range + 1) range
    = Some (random, oracle') ->
  let out := uintBig.norm (Sampler.m_Begin samp - range + random) in
  let exhausted := (out <? Sampler.m_LowerBound samp) || (out >=? Sampler.m_Begin samp) in
  0 <= random < range /\
  Sampler.SamplePoint fuel samp out0
  = Some (negb exhausted, out,
          Sampler.Build oracle'
            (if exhausted then Sampler.m_Begin samp
             else if range >=? Sampler.m_Begin samp then 0
             else uintBig.norm (Sampler.m_Begin samp - range))
            (Sampler.m_End samp) (Sampler.m_LowerBound samp)).
Proof.
  intros range Hdraw out exhausted.
  pose proof (slice_range samp) as Hrange. fold range in Hrange.
  split.
  { apply (first_accepted_range fuel (Sampler.m_Oracle samp)
             (Z.log2 range + 1) range random oracle'); [| exact Hdraw].
    pose proof (Z.log2_nonneg range). lia. }
  unfold Sampler.SamplePoint.
  pose proof (SamplePoint_range samp) as Hslice. cbn zeta in Hslice.
  cbn zeta. rewrite Hslice. fold range.
  rewrite UnfiromRandom_spec by exact Hrange. rewrite Hdraw.
  cbn [Sampler.set_Oracle Sampler.set_Begin Sampler.m_Begin Sampler.m_End
       Sampler.m_LowerBound Sampler.m_Oracle].
  assert (Hout : uintBig.add (uintBig.add random (Sampler.m_Begin samp))
                             (uintBig.Negate range) = out).
  { subst out. unfold uintBig.add, uintBig.Negate, uintBig.norm.
    rewrite Z.add_mod_idemp_l, Z.add_mod_idemp_r by (cbn; lia). f_equal. lia. }
  assert (Hbegin : uintBig.add (Sampler.m_Begin samp) (uintBig.Negate range)
                   = uintBig.norm (Sampler.m_Begin samp - range)).
  { unfold uintBig.add, uintBig.Negate, uintBig.norm.
    rewrite Z.add_mod_idemp_r by (cbn; lia). f_equal. }
  rewrite Hout, Hbegin. fold exhausted.
  destruct exhausted; [reflexivity |].
  destruct (range >=? Sampler.m_Begin samp); reflexivity.
Qed.

End SamplePointProps.

Lemma SamplePoint_spec_witness :
  Sampler.SamplePoint 5 Toy.sampler 0
  = Some (true, 997, Sampler.Build (P := Toy.primitives) 0 996 1512 0).
Proof.
  destruct (SamplePoint_spec (P := Toy.primitives) 5 Toy.sampler 0 1 0)
    as [_ Hrun].
  - reflexivity.
  - exact Hrun.
Defined.

(** C4, as the claim has it, fails: from begin 1000 and end 1512 the range is
    4 and the sample is 997, inside the slice below [m_Begin], which is not
    [1000 + 4 - random] for any [random] in [[0, 4)]. *)
Lemma SamplePoint_claimed_output_fails :
  Sampler.slice Toy.sampler = 4 /\
  Sampler.SamplePoint 5 Toy.sampler 0
    = Some (true, 997, Sampler.Build (P := Toy.primitives) 0 996 1512 0) /\
  ~ (exists random, 0 <= random < Sampler.slice Toy.sampler /\
       997 = uintBig.norm (Sampler.m_Begin Toy.sampler
                           + Sampler.slice Toy.sampler - random)).
Proof.
  split; [reflexivity | split; [reflexivity |]].
  intros (random & Hr & Heq). change (Sampler.slice Toy.sampler) with 4 in *.
  change (Sampler.m_Begin Toy.sampler) with 1000 in Heq.
  unfold uintBig.norm, uintBig.modulus, uintBig.nBits in Heq.
  rewrite Z.mod_small in Heq; lia.
Qed.

(** ** Chain-work proof *)

Section ChainWorkProps.
Context {P : Primitives} {CP : ChainPrimitives} {DC : DifficultyConsts}.
Variable rules : Rules.

Lemma below_trans (a b c : SystemState.Full) : SystemState.below a b -> SystemState.below b c -> SystemState.below a c.
Proof. unfold SystemState.below. lia. Qed.

Lemma verify_loop_descending (fuel : nat) (proof : ChainWorkProof.t)
    (sRoot : SystemState.Full) (rest : list SystemState.Full) :
  forall (s0 : SystemState.Full) (iState : nat) (samp : Sampler.t) (dLoPrev : Z)
         (ver : Verifier) (iState' : nat) (ver' : Verifier),
    SystemState.height_ok s0 -> Forall SystemState.height_ok rest ->
    dLoPrev < SystemState.m_ChainWork s0 ->
    ChainWorkProof.verify_loop fuel proof sRoot s0 rest iState samp dLoPrev ver
      = ChainWorkProof.Ret (Some (iState', ver')) ->
    exists k : nat,
      iState' = (iState + k)%nat /\ (k <= length rest)%nat /\
      Sorted SystemState.below (s0 :: firstn k rest).
Proof.
  induction rest as [| s rest IH];
    intros s0 iState samp dLoPrev ver iState' ver' Hs0 Hrest Hprev;
    cbn [ChainWorkProof.verify_loop];
    destruct (Sampler.SamplePoint fuel samp 0) as [[[[|] dSamp] samp1] |];
    try discriminate.
  - intros Heq. inversion Heq; subst. exists O.
    repeat split; [lia | cbn; lia | repeat constructor].
  - inversion Hrest as [| ? ? Hs Hrest']; subst.
    destruct (Z.geb_spec dSamp (SystemState.m_ChainWork s)) as [| Hsamp];
      [discriminate |].
    set (dLo := Difficulty.Dec _ _).
    destruct (Z.ltb_spec dSamp dLo) as [| Hlo]; [discriminate |].
    assert (Hnext : forall samp2 ver2,
      ChainWorkProof.verify_loop fuel proof sRoot s rest (S iState) samp2 dLo ver2
        = ChainWorkProof.Ret (Some (iState', ver')) ->
      SystemState.below s0 s ->
      exists k : nat,
        iState' = (iState + k)%nat /\ (k <= length (s :: rest))%nat /\
        Sorted SystemState.below (s0 :: firstn k (s :: rest))).
    { intros samp2 ver2 Hrun Hbelow.
      destruct (IH s (S iState) samp2 dLo ver2 iState' ver' Hs Hrest' ltac:(lia) Hrun)
        as (k & -> & Hk & Hsorted).
      exists (S k). repeat split; [lia | cbn; lia |].
      cbn [firstn]. constructor; [exact Hsorted | constructor; exact Hbelow]. }
    destruct (Z.eqb_spec (u64 (SystemState.m_Height s + 1)) (SystemState.m_Height s0))
      as [Hadj | Hnadj].
    + destruct (SystemState.m_Prev s0 =? SystemState.get_Hash s); [| discriminate].
      destruct (Z.eqb_spec (SystemState.m_ChainWork s) dLoPrev) as [Hcw |];
        [| discriminate].
      cbn [negb]. intros Hrun. apply (Hnext _ _ Hrun).
      unfold SystemState.below, SystemState.height_ok, HeightGenesis, u64 in *. split; [| lia].
      destruct (Z_lt_ge_dec (SystemState.m_Height s + 1) (2 ^ 64)) as [Hlt | Hge].
      * rewrite Z.mod_small in Hadj by lia. lia.
      * replace (SystemState.m_Height s + 1) with (2 ^ 64) in Hadj by lia.
        rewrite Z.mod_same in Hadj by lia. lia.
    + destruct (Z.geb_spec (SystemState.m_Height s) (SystemState.m_Height s0))
        as [| Hh]; [discriminate |].
      destruct (Z.geb_spec (SystemState.m_ChainWork s) dLoPrev) as [| Hcw];
        [discriminate |].
      destruct (Verifier_bVerify _); [| discriminate].
      cbn [negb]. intros Hrun. apply (Hnext _ _ Hrun).
      unfold SystemState.below. lia.
  - intros Heq. inversion Heq; subst. exists O.
    repeat split; [lia | cbn; lia | repeat constructor].
Qed.

Lemma IsSane_height (s : SystemState.Full) :
  SystemState.IsSane s = true -> HeightGenesis <= SystemState.m_Height s.
Proof.
  unfold SystemState.IsSane.
  destruct (Z.ltb_spec (SystemState.m_Height s) HeightGenesis); [discriminate | lia].
Qed.

(** C3. A chain-work proof accepted by [IsValid] has a first state, the tip
    the verification is anchored to, every later state is below the tip, and
    along the list heights and chain-works decrease strictly (between
    neighbours, hence between any two states). *)
Theorem IsValid_descending (fuel : nat) (proof : ChainWorkProof.t) :
  Forall (fun s => 0 <= SystemState.m_Height s < 2 ^ 64)
         (ChainWorkProof.m_vStates proof) ->
  ChainWorkProof.IsValid rules fuel proof = ChainWorkProof.Ret true ->
  exists (sRoot : SystemState.Full) (rest : list SystemState.Full),
    ChainWorkProof.m_vStates proof = sRoot :: rest /\
    Forall (SystemState.below sRoot) rest /\
    StronglySorted SystemState.below (sRoot :: rest).
Proof.
  intros Hwf. unfold ChainWorkProof.IsValid, ChainWorkProof.IsValidInternal.
  destruct (ChainWorkProof.m_vStates proof) as [| sRoot rest] eqn:Hstates;
    [discriminate |].
  destruct (forallb _ (sRoot :: rest)) eqn:Hsane; cbn [negb]; [| discriminate].
  destruct (Z.geb_spec (Sampler.m_Begin (Sampler.new sRoot))
                       (Sampler.m_End (Sampler.new sRoot))) as [| Hbe];
    [discriminate |].
  cbn [Sampler.new Sampler.m_Begin Sampler.m_End] in Hbe.
  destruct (ChainWorkProof.verify_loop _ _ _ _ _ _ _ _ _)
    as [[[iState ver] |] | |] eqn:Hloop; try discriminate.
  intros [= Hres]. apply andb_prop in Hres. destruct Hres as [Hlen _].
  assert (Hlen' : length (sRoot :: rest) = iState)
    by (apply Nat.eqb_eq; exact Hlen).
  cbn [length] in Hlen'.
  assert (Hok : Forall SystemState.height_ok (sRoot :: rest)).
  { rewrite forallb_forall in Hsane. rewrite Forall_forall in Hwf |- *.
    intros s Hin. specialize (Hsane s Hin). apply andb_prop in Hsane.
    destruct Hsane as [Hs _]. apply IsSane_height in Hs.
    specialize (Hwf s Hin). unfold SystemState.height_ok. cbn beta in Hwf. lia. }
  inversion Hok as [| ? ? Hroot Hrest]; subst.
  destruct (verify_loop_descending _ _ _ _ _ _ _ _ _ _ _ Hroot Hrest Hbe Hloop)
    as (k & Hk & Hkle & Hsorted).
  assert (k = length rest) by lia. subst k. rewrite firstn_all in Hsorted.
  assert (Hstrong : StronglySorted SystemState.below (sRoot :: rest)).
  { apply Sorted_StronglySorted; [| exact Hsorted].
    intros a b c. apply below_trans. }
  exists sRoot, rest. repeat split; [| exact Hstrong].
  inversion Hstrong; assumption.
Qed.

End ChainWorkProps.

Lemma IsValid_descending_witness :
  exists sRoot rest,
    ChainWorkProof.m_vStates Toy.work_proof = sRoot :: rest /\
    Forall (SystemState.below sRoot) rest /\ StronglySorted SystemState.below (sRoot :: rest).
Proof.
  apply (IsValid_descending (P := Toy.primitives) (CP := Toy.chain)
           (DC := Toy.difficulty) Toy.rules 300 Toy.work_proof).
  - repeat constructor; cbn; lia.
  - vm_compute. reflexivity.
Defined.

(** ** N-shard validation equals one-context validation *)

Section AmountBigProps.
Context {P : Primitives}.

Lemma of_value_wf (v : Z) : AmountBig.wf (AmountBig.of_value v).
Proof. split; cbn [AmountBig.of_value AmountBig.add AmountBig.add_Amount AmountBig.Lo AmountBig.Hi u64]; apply Z.mod_pos_bound; lia. Qed.

Lemma of_value_value (a : AmountBig.t) : AmountBig.wf a -> AmountBig.of_value (AmountBig.value a) = a.
Proof.
  destruct a as [lo hi]. intros [Hlo Hhi]. cbn [AmountBig.Lo AmountBig.Hi] in *.
  unfold AmountBig.of_value, AmountBig.value. cbn [AmountBig.Lo AmountBig.Hi].
  f_equal.
  - rewrite Z.mod_add by lia. apply Z.mod_small; lia.
  - rewrite Z.div_add by lia. rewrite Z.div_small by lia. apply Z.mod_small; lia.
Qed.

Lemma of_value_add_mod (v w : Z) :
  AmountBig.of_value (AmountBig.value (AmountBig.of_value v) + w) = AmountBig.of_value (v + w).
Proof.
  unfold AmountBig.of_value, AmountBig.value. cbn [AmountBig.Lo AmountBig.Hi].
  assert (H128 : (v mod 2 ^ 64 + (v / 2 ^ 64) mod 2 ^ 64 * 2 ^ 64) = v mod 2 ^ 128).
  { change (2 ^ 128) with (2 ^ 64 * 2 ^ 64). rewrite Z.rem_mul_r by lia. lia. }
  rewrite H128.
  assert (Hlo : forall x, (x mod 2 ^ 128) mod 2 ^ 64 = x mod 2 ^ 64).
  { intros x. change (2 ^ 128) with (2 ^ 64 * 2 ^ 64).
    rewrite Z.rem_mul_r by lia. rewrite Z.mul_comm, Z.mod_add by lia.
    apply Z.mod_mod. lia. }
  assert (Hhi : forall x, ((x mod 2 ^ 128) / 2 ^ 64) mod 2 ^ 64 = (x / 2 ^ 64) mod 2 ^ 64).
  { intros x. change (2 ^ 128) with (2 ^ 64 * 2 ^ 64).
    rewrite Z.rem_mul_r by lia. rewrite Z.mul_comm, Z.div_add by lia.
    rewrite (Z.div_small (x mod 2 ^ 64)) by (apply Z.mod_pos_bound; lia).
    rewrite Z.add_0_l. apply Z.mod_mod. lia. }
  rewrite <- (Hlo (v mod 2 ^ 128 + w)), <- (Hhi (v mod 2 ^ 128 + w)).
  rewrite Z.add_mod_idemp_l by lia.
  rewrite Hlo, Hhi. reflexivity.
Qed.

Lemma add_Amount_of_value (a : AmountBig.t) (x : Z) :
  AmountBig.wf a -> 0 <= x < 2 ^ 64 ->
  AmountBig.add_Amount a x = AmountBig.of_value (AmountBig.value a + x).
Proof.
  destruct a as [lo hi]. intros [Hlo Hhi] Hx. cbn [AmountBig.Lo AmountBig.Hi] in *.
  unfold AmountBig.add_Amount, AmountBig.of_value, AmountBig.value, u64. cbn [AmountBig.Lo AmountBig.Hi].
  replace (lo + hi * 2 ^ 64 + x) with (lo + x + hi * 2 ^ 64) by lia.
  rewrite Z.mod_add, Z.div_add by lia. f_equal.
  destruct (Z_lt_ge_dec (lo + x) (2 ^ 64)) as [Hlt | Hge].
  - rewrite (Z.mod_small (lo + x)), (Z.div_small (lo + x)) by lia.
    destruct (Z.ltb_spec (lo + x) x); [lia |].
    rewrite Z.add_0_l. symmetry. apply Z.mod_small; lia.
  - assert (Hm : (lo + x) mod 2 ^ 64 = lo + x - 2 ^ 64)
      by (symmetry; apply Z.mod_unique with (q := 1); lia).
    assert (Hd : (lo + x) / 2 ^ 64 = 1)
      by (symmetry; apply Z.div_unique with (r := lo + x - 2 ^ 64); lia).
    rewrite Hm, Hd. destruct (Z.ltb_spec (lo + x - 2 ^ 64) x); [| lia].
    f_equal. lia.
Qed.

Lemma add_of_value (a b : AmountBig.t) :
  AmountBig.wf a -> AmountBig.wf b ->
  AmountBig.add a b = AmountBig.of_value (AmountBig.value a + AmountBig.value b).
Proof.
  intros Ha Hb. unfold AmountBig.add.
  rewrite add_Amount_of_value by (try assumption; apply Hb).
  unfold AmountBig.of_value, AmountBig.value, u64. cbn [AmountBig.Lo AmountBig.Hi].
  replace (AmountBig.Lo a + AmountBig.Hi a * 2 ^ 64
           + (AmountBig.Lo b + AmountBig.Hi b * 2 ^ 64))
    with (AmountBig.Lo a + AmountBig.Hi a * 2 ^ 64 + AmountBig.Lo b
          + AmountBig.Hi b * 2 ^ 64) by lia.
  rewrite Z.mod_add, Z.div_add by lia. f_equal.
  rewrite Z.add_mod_idemp_l by lia. reflexivity.
Qed.

Lemma add_wf (a b : AmountBig.t) : AmountBig.wf (AmountBig.add a b).
Proof. split; cbn [AmountBig.of_value AmountBig.add AmountBig.add_Amount AmountBig.Lo AmountBig.Hi u64]; apply Z.mod_pos_bound; lia. Qed.

Lemma add_Zero_r (a : AmountBig.t) : AmountBig.wf a -> AmountBig.add a AmountBig.Zero = a.
Proof.
  intros Ha. rewrite add_of_value; [| assumption | split; cbn [AmountBig.Zero AmountBig.Lo AmountBig.Hi]; lia].
  change (AmountBig.value AmountBig.Zero) with 0. rewrite Z.add_0_r. apply of_value_value, Ha.
Qed.

Lemma add_assoc_Amount (f f1 : AmountBig.t) (x : Z) :
  AmountBig.wf f -> AmountBig.wf f1 -> 0 <= x < 2 ^ 64 ->
  AmountBig.add_Amount (AmountBig.add f f1) x
  = AmountBig.add f (AmountBig.add_Amount f1 x).
Proof.
  intros Hf Hf1 Hx.
  rewrite (add_Amount_of_value f1) by assumption.
  rewrite add_Amount_of_value by (try apply add_wf; assumption).
  rewrite (add_of_value f f1) by assumption.
  rewrite (add_of_value f (AmountBig.of_value _)) by (try apply of_value_wf; assumption).
  rewrite of_value_add_mod.
  rewrite (Z.add_comm (AmountBig.value f) (AmountBig.value (AmountBig.of_value _))), of_value_add_mod.
  f_equal. lia.
Qed.

End AmountBigProps.

Section KernelProps.
Context {P : Primitives}.

Lemma fees_ok_nested (k : TxKernel.t) :
  TxKernel.fees_ok k ->
  0 <= TxKernel.m_Fee k < 2 ^ 64 /\ Forall TxKernel.fees_ok (TxKernel.m_vNested k).
Proof.
  destruct k as [ex mu sg fee hr hl nested]. cbn [TxKernel.fees_ok TxKernel.m_Fee TxKernel.m_vNested].
  intros [Hfee Hall]. split; [exact Hfee |].
  induction nested as [| v l IH]; constructor; [apply Hall | apply IH, Hall].
Qed.

Lemma kernel_ind_nested (Q : TxKernel.t -> Prop) :
  (forall ex mu sg fee hr hl nested,
      Forall Q nested -> Q (TxKernel.Build ex mu sg fee hr hl nested)) ->
  forall k, Q k.
Proof.
  intros Hstep. fix rec 1. intros [ex mu sg fee hr hl nested]. apply Hstep.
  induction nested as [| v l IH]; constructor; [apply rec | exact IH].
Qed.

Lemma Native_add_0_r (a : Native) : Native_add a Native_Zero = a.
Proof. rewrite Native_add_comm. apply Native_add_0_l. Qed.

Lemma Traverse_nested_equivariant
    (trav : TxKernel.t -> Z -> option AmountBig.t -> option Native ->
            option TxKernel.TraverseState) (it : list TxKernel.t) :
  Forall (fun v => Sharding.equivariant (trav v)) it ->
  forall p0 hp hv hv0 f e f0 e0,
    AmountBig.wf f -> AmountBig.wf f0 ->
    match TxKernel.Traverse_nested trav it p0 hp hv0 (Some f0) (Some e0) with
    | None =>
        TxKernel.Traverse_nested trav it p0 hp hv
          (Some (AmountBig.add f f0)) (Some (Native_add e e0)) = None
    | Some (hp', (_, Some f1, Some e1)) =>
        AmountBig.wf f1 /\
        exists hvL,
          TxKernel.Traverse_nested trav it p0 hp hv
            (Some (AmountBig.add f f0)) (Some (Native_add e e0))
          = Some (hp', (hvL, Some (AmountBig.add f f1), Some (Native_add e e1)))
    | Some _ => False
    end.
Proof.
  induction 1 as [| v it Hv _ IH]; intros p0 hp hv hv0 f e f0 e0 Hf Hf0;
    cbn [TxKernel.Traverse_nested].
  - split; [exact Hf0 |]. exists hv. reflexivity.
  - destruct (match p0 with Some k0 => TxKernel.gt k0 v | None => false end);
      [reflexivity |].
    destruct (Hv hv hv0 f e f0 e0 Hf Hf0) as [Heq Hshape]. rewrite Heq.
    destruct (trav v hv0 (Some f0) (Some e0)) as [[[hv1 [f1 |]] [e1 |]] |];
      cbn [Sharding.shift Sharding.shape] in *; try contradiction; try reflexivity.
    apply IH; assumption.
Qed.

Lemma Traverse_sign_equivariant (ex : Point) (mu : Z) (sg : Signature) (fee : Z)
    (hp : Processor) (f f1 : AmountBig.t) (e e1 : Native) :
  0 <= fee < 2 ^ 64 -> AmountBig.wf f -> AmountBig.wf f1 ->
  TxKernel.Traverse_sign ex mu sg fee hp
    (Some (AmountBig.add f f1)) (Some (Native_add e e1))
  = Sharding.shift f e (TxKernel.Traverse_sign ex mu sg fee hp (Some f1) (Some e1)) /\
  Sharding.shape (TxKernel.Traverse_sign ex mu sg fee hp (Some f1) (Some e1)).
Proof.
  intros Hfee Hf Hf1. unfold TxKernel.Traverse_sign. cbn zeta.
  destruct (Native_Import ex) as [pt |]; [| split; [reflexivity | exact I]].
  destruct (Signature_IsValid sg (hp_out hp) _); cbn [negb Sharding.shift Sharding.shape];
    [| split; [reflexivity | exact I]].
  split.
  - rewrite add_assoc_Amount, Native_add_assoc by assumption. reflexivity.
  - rewrite add_Amount_of_value by assumption. apply of_value_wf.
Qed.

Lemma Traverse_equivariant (k : TxKernel.t) :
  TxKernel.fees_ok k ->
  forall parent lock,
    Sharding.equivariant (fun hv pFee pExcess => TxKernel.Traverse k hv pFee pExcess parent lock).
Proof.
  induction k as [ex mu sg fee hr hl nested IH] using kernel_ind_nested.
  intros Hok parent lock hv hv0 f e f0 e0 Hf Hf0.
  apply fees_ok_nested in Hok. cbn [TxKernel.m_Fee TxKernel.m_vNested] in Hok.
  destruct Hok as [Hfee Hnested].
  cbn [TxKernel.Traverse].
  destruct (match parent with Some _ => _ | None => false end);
    [split; [reflexivity | exact I] |].
  set (hp0 := hp_bool _ _).
  set (k := TxKernel.Build ex mu sg fee hr hl nested).
  assert (Hloop : forall hp hvL hvR,
    (match TxKernel.Traverse_nested
             (fun v hv pFee pExcess => TxKernel.Traverse v hv pFee pExcess (Some k) None)
             nested None hp hvL (Some (AmountBig.add f f0)) (Some (Native_add e e0))
     with
     | Some (hp', (_, pFee, pExcess)) =>
         TxKernel.Traverse_sign ex mu sg fee hp' pFee pExcess
     | None => None
     end
     = Sharding.shift f e
         match TxKernel.Traverse_nested
                 (fun v hv pFee pExcess => TxKernel.Traverse v hv pFee pExcess (Some k) None)
                 nested None hp hvR (Some f0) (Some e0)
         with
         | Some (hp', (_, pFee, pExcess)) =>
             TxKernel.Traverse_sign ex mu sg fee hp' pFee pExcess
         | None => None
         end) /\
    Sharding.shape
      match TxKernel.Traverse_nested
              (fun v hv pFee pExcess => TxKernel.Traverse v hv pFee pExcess (Some k) None)
              nested None hp hvR (Some f0) (Some e0)
      with
      | Some (hp', (_, pFee, pExcess)) =>
          TxKernel.Traverse_sign ex mu sg fee hp' pFee pExcess
      | None => None
      end).
  { intros hp hvL hvR.
    assert (Hn := Traverse_nested_equivariant
      (fun v hv pFee pExcess => TxKernel.Traverse v hv pFee pExcess (Some k) None)
      nested
      ltac:(rewrite Forall_forall in IH, Hnested |- *;
            intros v Hin; apply IH; [exact Hin | apply Hnested, Hin])
      None hp hvL hvR f e f0 e0 Hf Hf0).
    destruct (TxKernel.Traverse_nested _ nested None hp hvR (Some f0) (Some e0))
      as [[hpR [[hvR' [fR |]] [eR |]]] |]; try contradiction.
    - destruct Hn as [Hwf [hvL' ->]]. apply Traverse_sign_equivariant; assumption.
    - rewrite Hn. split; [reflexivity | exact I]. }
  destruct hl as [lockv |]; [destruct lock as [image |] |]; apply Hloop.
Qed.

(** [IsValid] adds to its accumulators what it gives from zero. *)
Lemma IsValid_shift (k : TxKernel.t) (f : AmountBig.t) (e : Native) :
  TxKernel.fees_ok k -> AmountBig.wf f ->
  TxKernel.IsValid k f e
  = match TxKernel.IsValid k AmountBig.Zero Native_Zero with
    | Some (df, de) => Some (AmountBig.add f df, Native_add e de)
    | None => None
    end /\
  match TxKernel.IsValid k AmountBig.Zero Native_Zero with
  | Some (df, _) => AmountBig.wf df
  | None => True
  end.
Proof.
  intros Hok Hf. unfold TxKernel.IsValid.
  assert (Hz : AmountBig.wf AmountBig.Zero)
    by (split; cbn [AmountBig.Zero AmountBig.Lo AmountBig.Hi]; lia).
  destruct (Traverse_equivariant k Hok None None 0 0 f e AmountBig.Zero Native_Zero Hf Hz)
    as [Heq Hshape].
  rewrite add_Zero_r, Native_add_0_r in Heq by assumption. rewrite Heq.
  destruct (TxKernel.Traverse k 0 (Some AmountBig.Zero) (Some Native_Zero) None None)
    as [[[hv [df |]] [de |]] |]; cbn [Sharding.shift Sharding.shape] in *;
    try contradiction; split; try reflexivity; try exact I; exact Hshape.
Qed.

End KernelProps.

Section LoopProps.
Context {P : Primitives}.
Variable rules : Rules.

Lemma Native_neg_unique (a b : Native) :
  Native_add a b = Native_Zero -> b = Native_neg a.
Proof.
  intros Hab.
  rewrite <- (Native_add_0_l (Native_neg a)), <- Hab.
  rewrite (Native_add_comm a b), <- Native_add_assoc, Native_add_neg.
  symmetry. apply Native_add_0_r.
Qed.

Lemma Native_neg_involutive (a : Native) : Native_neg (Native_neg a) = a.
Proof.
  symmetry. apply Native_neg_unique. rewrite Native_add_comm. apply Native_add_neg.
Qed.

Lemma Native_neg_add (a b : Native) :
  Native_neg (Native_add a b) = Native_add (Native_neg a) (Native_neg b).
Proof.
  symmetry. apply Native_neg_unique.
  rewrite (Native_add_comm (Native_neg a)), Native_add_assoc.
  rewrite <- (Native_add_assoc a b), Native_add_neg, Native_add_0_r.
  apply Native_add_neg.
Qed.

Lemma Zero_wf : AmountBig.wf AmountBig.Zero.
Proof. split; cbn [AmountBig.Zero AmountBig.Lo AmountBig.Hi]; lia. Qed.

Lemma apply_delta_false (d : Sharding.Delta) (ctx : TxBase.Context) :
  Sharding.d_ok d = false -> Sharding.apply_delta d ctx = None.
Proof. intros Hd. unfold Sharding.apply_delta. rewrite Hd. reflexivity. Qed.

Lemma apply_delta_sigma (x : Native) (ctx : TxBase.Context) :
  Sharding.ctx_ok ctx ->
  Sharding.apply_delta
    (Sharding.Build_Delta true x AmountBig.Zero AmountBig.Zero None) ctx
  = Some (TxBase.set_Sigma ctx (Native_add (TxBase.m_Sigma ctx) x)).
Proof.
  intros (Hfee & Hcb & _). unfold Sharding.apply_delta.
  cbn [Sharding.d_ok Sharding.d_hr Sharding.d_sigma Sharding.d_fee Sharding.d_cb negb].
  destruct ctx. cbn [TxBase.set_Sigma TxBase.set_Fee TxBase.set_Coinbase
    TxBase.m_Sigma TxBase.m_Fee TxBase.m_Coinbase TxBase.m_Height TxBase.m_bBlockMode
    TxBase.m_nVerifiers TxBase.m_iVerifier TxBase.m_pAbort] in *.
  rewrite !add_Zero_r by assumption. reflexivity.
Qed.

Lemma apply_delta_keeps (d : Sharding.Delta) (ctx ctx' : TxBase.Context) :
  Sharding.ctx_ok ctx -> Sharding.apply_delta d ctx = Some ctx' ->
  Sharding.ctx_ok ctx' /\
  TxBase.m_nVerifiers ctx' = TxBase.m_nVerifiers ctx /\
  TxBase.m_bBlockMode ctx' = TxBase.m_bBlockMode ctx.
Proof.
  intros (Hfee & Hcb & Hab). unfold Sharding.apply_delta, TxBase.HandleElementHeight.
  destruct (Sharding.d_ok d); cbn [negb]; [| discriminate].
  destruct ctx. cbn [TxBase.set_Sigma TxBase.set_Fee TxBase.set_Coinbase TxBase.set_Height
    TxBase.m_Sigma TxBase.m_Fee TxBase.m_Coinbase TxBase.m_Height TxBase.m_bBlockMode
    TxBase.m_nVerifiers TxBase.m_iVerifier TxBase.m_pAbort] in *.
  destruct (Sharding.d_hr d) as [hr |].
  - destruct (HeightRange.IsEmpty _); [discriminate |].
    destruct m_bBlockMode; cbn [negb]; intros [= <-]; unfold Sharding.ctx_ok;
      cbn [TxBase.set_Height TxBase.m_Fee TxBase.m_Coinbase TxBase.m_pAbort
           TxBase.m_nVerifiers TxBase.m_bBlockMode TxBase.m_Sigma TxBase.m_Height];
      repeat split; try assumption; apply add_wf.
  - intros [= <-]. unfold Sharding.ctx_ok.
    cbn [TxBase.m_Fee TxBase.m_Coinbase TxBase.m_pAbort TxBase.m_nVerifiers
         TxBase.m_bBlockMode].
    repeat split; try assumption; apply add_wf.
Qed.

Lemma set_Sigma_ok (ctx : TxBase.Context) (x : Native) :
  Sharding.ctx_ok ctx -> Sharding.ctx_ok (TxBase.set_Sigma ctx x).
Proof. intros H. exact H. Qed.

Lemma loop_UtxoIn_gated (it : list Input.t) :
  forall pPrev ctx iV,
    Sharding.ctx_ok ctx ->
    TxBase.loop_UtxoIn pPrev it ctx iV
    = Sharding.gated (Sharding.deltas Sharding.delta_UtxoIn pPrev it) ctx iV.
Proof.
  induction it as [| cur it IH]; intros pPrev ctx iV Hok; [reflexivity |].
  cbn [TxBase.loop_UtxoIn Sharding.deltas Sharding.gated].
  assert (Habort : TxBase.ShouldAbort ctx = false)
    by (unfold TxBase.ShouldAbort; destruct Hok as (_ & _ & ->); reflexivity).
  rewrite Habort.
  change (TxBase.ShouldVerify ctx iV)
    with (Sharding.should_verify (TxBase.m_nVerifiers ctx) iV).
  destruct (Sharding.should_verify (TxBase.m_nVerifiers ctx) iV) as [[|] iV'];
    [| apply IH, Hok].
  unfold Sharding.delta_UtxoIn.
  destruct (Native_Import (Input.m_Commitment cur)) as [pt |].
  - destruct (TxBase.prev_gt TxBase.Input_gt pPrev cur); cbn [negb].
    + rewrite apply_delta_false by reflexivity. reflexivity.
    + rewrite apply_delta_sigma by exact Hok. apply IH, Hok.
  - rewrite apply_delta_false by reflexivity.
    destruct (TxBase.prev_gt TxBase.Input_gt pPrev cur); reflexivity.
Qed.

Lemma loop_KernelIn_gated (it : list TxKernel.t) :
  Forall TxKernel.fees_ok it ->
  forall pPrev out feeInp ctx iV,
    Sharding.ctx_ok ctx -> AmountBig.wf feeInp ->
    TxBase.loop_KernelIn pPrev it out feeInp ctx iV
    = if Sharding.locate_all it out
      then Sharding.gated
             (Sharding.deltas (fun p c => Sharding.delta_Kernel p c false false) pPrev it)
             ctx iV
      else None.
Proof.
  induction 1 as [| cur it Hcur _ IH]; intros pPrev out feeInp ctx iV Hok Hfee;
    [reflexivity |].
  cbn [TxBase.loop_KernelIn Sharding.deltas Sharding.gated Sharding.locate_all].
  assert (Habort : TxBase.ShouldAbort ctx = false)
    by (unfold TxBase.ShouldAbort; destruct Hok as (_ & _ & ->); reflexivity).
  rewrite Habort.
  destruct (TxBase.locate_KernelOut cur out) as [out' |]; [| reflexivity].
  change (TxBase.ShouldVerify ctx iV)
    with (Sharding.should_verify (TxBase.m_nVerifiers ctx) iV).
  destruct (Sharding.should_verify (TxBase.m_nVerifiers ctx) iV) as [[|] iV'];
    [| apply IH; assumption].
  unfold Sharding.delta_Kernel.
  destruct (IsValid_shift cur feeInp (TxBase.m_Sigma ctx) Hcur Hfee) as [Hvalid Hdf].
  rewrite Hvalid.
  destruct (TxKernel.IsValid cur AmountBig.Zero Native_Zero) as [[df de] |].
  - destruct (TxBase.prev_gt TxKernel.gt pPrev cur); cbn [negb].
    + rewrite apply_delta_false by reflexivity.
      destruct (Sharding.locate_all it out'); reflexivity.
    + rewrite apply_delta_sigma by exact Hok. apply IH; [exact Hok | apply add_wf].
  - rewrite apply_delta_false by reflexivity.
    destruct (TxBase.prev_gt TxKernel.gt pPrev cur);
      destruct (Sharding.locate_all it out'); reflexivity.
Qed.

Lemma add_add_Amount_Zero (a : AmountBig.t) (v : Z) :
  AmountBig.wf a -> 0 <= v < 2 ^ 64 ->
  AmountBig.add a (AmountBig.add_Amount AmountBig.Zero v) = AmountBig.add_Amount a v.
Proof.
  intros Ha Hv. rewrite <- add_assoc_Amount by (try apply Zero_wf; assumption).
  rewrite add_Zero_r by assumption. reflexivity.
Qed.

Lemma add_Amount_wf (a : AmountBig.t) (v : Z) :
  AmountBig.wf a -> AmountBig.wf (AmountBig.add_Amount a v).
Proof.
  intros [Hlo Hhi]. unfold AmountBig.add_Amount, u64. split; cbn [AmountBig.Lo AmountBig.Hi].
  - apply Z.mod_pos_bound. lia.
  - destruct (_ <? _); [apply Z.mod_pos_bound; lia | exact Hhi].
Qed.

(** The body of the third loop under [ShouldVerify], with what follows it
    as [k]. *)
Lemma verify_UtxoOut_delta {X : Type} (pPrev : option Output.t) (cur : Output.t)
    (ctx : TxBase.Context) (k : TxBase.Context -> option X) :
  Sharding.ctx_ok ctx -> Sharding.value_ok cur ->
  (if TxBase.prev_gt TxBase.Output_gt pPrev cur then None
   else
     let '(bValid, pt) := Output.IsValid rules cur in
     if negb bValid then None
     else
       let ctx := TxBase.set_Sigma ctx (Native_add (TxBase.m_Sigma ctx) pt) in
       if Output.m_Coinbase cur then
         if negb (TxBase.m_bBlockMode ctx) then None
         else
           match Output.m_pPublic cur with
           | None => None
           | Some pPublic =>
               k (TxBase.set_Coinbase ctx
                    (AmountBig.add_Amount (TxBase.m_Coinbase ctx)
                       (Public_m_Value pPublic)))
           end
       else k ctx)
  = match Sharding.apply_delta
            (Sharding.delta_UtxoOut rules (TxBase.m_bBlockMode ctx) pPrev cur) ctx with
    | None => None
    | Some ctx => k ctx
    end.
Proof.
  intros Hok Hcur. unfold Sharding.delta_UtxoOut, Sharding.value_ok in *.
  destruct (Output.IsValid rules cur) as [bValid pt].
  destruct (TxBase.prev_gt TxBase.Output_gt pPrev cur); cbn [negb andb].
  { rewrite apply_delta_false; [reflexivity |].
    destruct (Output.m_Coinbase cur); [destruct (Output.m_pPublic cur) |]; reflexivity. }
  destruct bValid; cbn [negb andb].
  2:{ rewrite apply_delta_false; [reflexivity |].
      destruct (Output.m_Coinbase cur); [destruct (Output.m_pPublic cur) |]; reflexivity. }
  destruct (Output.m_Coinbase cur).
  - change (TxBase.m_bBlockMode (TxBase.set_Sigma ctx (Native_add (TxBase.m_Sigma ctx) pt)))
      with (TxBase.m_bBlockMode ctx).
    destruct (Output.m_pPublic cur) as [pPublic |].
    + destruct (TxBase.m_bBlockMode ctx) eqn:Hbm; cbn [negb].
      * destruct Hok as (Hfee & Hcb & _). unfold Sharding.apply_delta.
        cbn [Sharding.d_ok Sharding.d_hr Sharding.d_sigma Sharding.d_fee
             Sharding.d_cb negb].
        destruct ctx. cbn [TxBase.set_Sigma TxBase.set_Fee TxBase.set_Coinbase
          TxBase.m_Sigma TxBase.m_Fee TxBase.m_Coinbase] in *.
        rewrite add_Zero_r, add_add_Amount_Zero by assumption. reflexivity.
      * rewrite apply_delta_false by reflexivity. reflexivity.
    + rewrite apply_delta_false by reflexivity.
      destruct (TxBase.m_bBlockMode ctx); reflexivity.
  - rewrite apply_delta_sigma by exact Hok. reflexivity.
Qed.

Lemma loop_UtxoOut_gated (it : list Output.t) :
  Forall Sharding.value_ok it ->
  forall pPrev ctx iV,
    Sharding.ctx_ok ctx ->
    TxBase.loop_UtxoOut rules pPrev it ctx iV
    = Sharding.gated
        (Sharding.deltas (Sharding.delta_UtxoOut rules (TxBase.m_bBlockMode ctx)) pPrev it)
        ctx iV.
Proof.
  induction 1 as [| cur it Hcur _ IH]; intros pPrev ctx iV Hok; [reflexivity |].
  cbn [TxBase.loop_UtxoOut Sharding.deltas Sharding.gated].
  assert (Habort : TxBase.ShouldAbort ctx = false)
    by (unfold TxBase.ShouldAbort; destruct Hok as (_ & _ & ->); reflexivity).
  rewrite Habort.
  change (TxBase.ShouldVerify ctx iV)
    with (Sharding.should_verify (TxBase.m_nVerifiers ctx) iV).
  destruct (Sharding.should_verify (TxBase.m_nVerifiers ctx) iV) as [[|] iV'];
    [| apply IH, Hok].
  etransitivity;
    [exact (verify_UtxoOut_delta pPrev cur ctx
              (fun c => TxBase.loop_UtxoOut rules (Some cur) it c iV') Hok Hcur) |].
  destruct (Sharding.apply_delta _ ctx) as [ctx' |] eqn:Hstep; [| reflexivity].
  destruct (apply_delta_keeps _ _ _ Hok Hstep) as (Hok' & _ & Hbm).
  rewrite IH, Hbm by exact Hok'. reflexivity.
Qed.

Lemma loop_KernelOut_gated (it : list TxKernel.t) :
  Forall TxKernel.fees_ok it ->
  forall pPrev ctx iV,
    Sharding.ctx_ok ctx ->
    TxBase.loop_KernelOut pPrev it ctx iV
    = Sharding.gated
        (Sharding.deltas (fun p c => Sharding.delta_Kernel p c true true) pPrev it)
        ctx iV.
Proof.
  induction 1 as [| cur it Hcur _ IH]; intros pPrev ctx iV Hok; [reflexivity |].
  cbn [TxBase.loop_KernelOut Sharding.deltas Sharding.gated].
  assert (Habort : TxBase.ShouldAbort ctx = false)
    by (unfold TxBase.ShouldAbort; destruct Hok as (_ & _ & ->); reflexivity).
  rewrite Habort.
  change (TxBase.ShouldVerify ctx iV)
    with (Sharding.should_verify (TxBase.m_nVerifiers ctx) iV).
  destruct (Sharding.should_verify (TxBase.m_nVerifiers ctx) iV) as [[|] iV'];
    [| apply IH, Hok].
  destruct (IsValid_shift cur (TxBase.m_Fee ctx) (TxBase.m_Sigma ctx) Hcur
              (proj1 Hok)) as [Hvalid Hdf].
  rewrite Hvalid. unfold Sharding.delta_Kernel.
  destruct (TxKernel.IsValid cur AmountBig.Zero Native_Zero) as [[df de] |].
  - destruct (TxBase.prev_gt TxKernel.gt pPrev cur); cbn [negb].
    + rewrite apply_delta_false by reflexivity. reflexivity.
    + assert (Hstep :
        Sharding.apply_delta
          (Sharding.Build_Delta true de df AmountBig.Zero
             (Some (TxKernel.m_Height cur))) ctx
        = TxBase.HandleElementHeight
            (TxBase.set_Sigma
               (TxBase.set_Fee ctx (AmountBig.add (TxBase.m_Fee ctx) df))
               (Native_add (TxBase.m_Sigma ctx) de))
            (TxKernel.m_Height cur)).
      { destruct Hok as (Hfee & Hcb & _). unfold Sharding.apply_delta.
        cbn [Sharding.d_ok Sharding.d_hr Sharding.d_sigma Sharding.d_fee
             Sharding.d_cb negb].
        destruct ctx. cbn [TxBase.set_Sigma TxBase.set_Fee TxBase.set_Coinbase
          TxBase.m_Sigma TxBase.m_Fee TxBase.m_Coinbase] in *.
        rewrite add_Zero_r by assumption. reflexivity. }
      rewrite <- Hstep.
      destruct (Sharding.apply_delta _ ctx) as [ctx' |] eqn:Hd; [| reflexivity].
      apply IH. apply (apply_delta_keeps _ _ _ Hok Hd).
  - rewrite apply_delta_false by reflexivity.
    destruct (TxBase.prev_gt TxKernel.gt pPrev cur); reflexivity.
Qed.

End LoopProps.

Section GatedProps.
Context {P : Primitives}.
Variable rules : Rules.

Lemma gated_keeps (D : list Sharding.Delta) :
  forall ctx iV ctx' iV',
    Sharding.ctx_ok ctx -> Sharding.gated D ctx iV = Some (ctx', iV') ->
    Sharding.ctx_ok ctx' /\
    TxBase.m_nVerifiers ctx' = TxBase.m_nVerifiers ctx /\
    TxBase.m_bBlockMode ctx' = TxBase.m_bBlockMode ctx.
Proof.
  induction D as [| d D IH]; intros ctx iV ctx' iV' Hok; cbn [Sharding.gated].
  - intros [= <- <-]. split; [exact Hok | split; reflexivity].
  - destruct (Sharding.should_verify _ iV) as [[|] iV1]; [| apply IH, Hok].
    destruct (Sharding.apply_delta d ctx) as [ctx1 |] eqn:Hd; [| discriminate].
    destruct (apply_delta_keeps _ _ _ Hok Hd) as (Hok1 & Hn & Hb).
    intros Hrun. destruct (IH _ _ _ _ Hok1 Hrun) as (Hok' & Hn' & Hb').
    split; [exact Hok' | split; congruence].
Qed.

Lemma gated_app (D1 D2 : list Sharding.Delta) :
  forall ctx iV,
    Sharding.gated (D1 ++ D2) ctx iV
    = match Sharding.gated D1 ctx iV with
      | Some (ctx, iV) => Sharding.gated D2 ctx iV
      | None => None
      end.
Proof.
  induction D1 as [| d D1 IH]; intros ctx iV; cbn [app Sharding.gated];
    [reflexivity |].
  destruct (Sharding.should_verify _ iV) as [[|] iV1]; [| apply IH].
  destruct (Sharding.apply_delta d ctx); [apply IH | reflexivity].
Qed.

Lemma apply_delta_neg (d : Sharding.Delta) (ctx : TxBase.Context) :
  Sharding.apply_delta (Sharding.neg_delta d) ctx
  = option_map Sharding.negS (Sharding.apply_delta d (Sharding.negS ctx)).
Proof.
  unfold Sharding.apply_delta, Sharding.neg_delta, Sharding.negS, TxBase.HandleElementHeight.
  cbn [Sharding.d_ok Sharding.d_sigma Sharding.d_fee Sharding.d_cb Sharding.d_hr].
  destruct (Sharding.d_ok d); cbn [negb]; [| reflexivity].
  destruct ctx. cbn [TxBase.set_Sigma TxBase.set_Fee TxBase.set_Coinbase TxBase.set_Height
    TxBase.m_Sigma TxBase.m_Fee TxBase.m_Coinbase TxBase.m_Height TxBase.m_bBlockMode
    TxBase.m_nVerifiers TxBase.m_iVerifier TxBase.m_pAbort].
  assert (Hs : Native_add m_Sigma (Native_neg (Sharding.d_sigma d))
               = Native_neg (Native_add (Native_neg m_Sigma) (Sharding.d_sigma d)))
    by (rewrite Native_neg_add, Native_neg_involutive; reflexivity).
  destruct (Sharding.d_hr d) as [hr |].
  - destruct (HeightRange.IsEmpty _); [reflexivity |].
    destruct m_bBlockMode; cbn [negb option_map TxBase.set_Sigma TxBase.set_Height
      TxBase.m_Sigma TxBase.m_Fee TxBase.m_Coinbase TxBase.m_Height TxBase.m_bBlockMode
      TxBase.m_nVerifiers TxBase.m_iVerifier TxBase.m_pAbort];
      rewrite Hs; reflexivity.
  - cbn [option_map TxBase.set_Sigma TxBase.m_Sigma TxBase.m_Fee TxBase.m_Coinbase
         TxBase.m_Height TxBase.m_bBlockMode TxBase.m_nVerifiers TxBase.m_iVerifier
         TxBase.m_pAbort].
    rewrite Hs. reflexivity.
Qed.

Lemma gated_neg (D : list Sharding.Delta) :
  forall ctx iV,
    Sharding.gated (map Sharding.neg_delta D) ctx iV
    = match Sharding.gated D (Sharding.negS ctx) iV with
      | Some (ctx, iV) => Some (Sharding.negS ctx, iV)
      | None => None
      end.
Proof.
  induction D as [| d D IH]; intros ctx iV; cbn [map Sharding.gated].
  - unfold Sharding.negS. destruct ctx. cbn [TxBase.set_Sigma TxBase.m_Sigma TxBase.m_Fee
      TxBase.m_Coinbase TxBase.m_Height TxBase.m_bBlockMode TxBase.m_nVerifiers
      TxBase.m_iVerifier TxBase.m_pAbort].
    rewrite Native_neg_involutive. reflexivity.
  - change (TxBase.m_nVerifiers (Sharding.negS ctx)) with (TxBase.m_nVerifiers ctx).
    destruct (Sharding.should_verify _ iV) as [[|] iV1]; [| apply IH].
    rewrite apply_delta_neg.
    destruct (Sharding.apply_delta d (Sharding.negS ctx)) as [ctx1 |]; cbn [option_map];
      [| reflexivity].
    rewrite IH.
    assert (Hnn : Sharding.negS (Sharding.negS ctx1) = ctx1).
    { unfold Sharding.negS. destruct ctx1. cbn [TxBase.set_Sigma TxBase.m_Sigma TxBase.m_Fee
        TxBase.m_Coinbase TxBase.m_Height TxBase.m_bBlockMode TxBase.m_nVerifiers
        TxBase.m_iVerifier TxBase.m_pAbort].
      rewrite Native_neg_involutive. reflexivity. }
    rewrite Hnn. reflexivity.
Qed.

Lemma apply_delta_nVerifiers (d : Sharding.Delta) (ctx ctx' : TxBase.Context) :
  Sharding.apply_delta d ctx = Some ctx' ->
  TxBase.m_nVerifiers ctx' = TxBase.m_nVerifiers ctx.
Proof.
  unfold Sharding.apply_delta, TxBase.HandleElementHeight.
  destruct (Sharding.d_ok d); cbn [negb]; [| discriminate].
  destruct (Sharding.d_hr d) as [hr |].
  - destruct (HeightRange.IsEmpty _); [discriminate |].
    destruct ctx. cbn [TxBase.m_bBlockMode TxBase.set_Coinbase TxBase.set_Fee
      TxBase.set_Sigma TxBase.m_Sigma TxBase.m_Fee TxBase.m_Coinbase TxBase.m_Height
      TxBase.m_nVerifiers TxBase.m_iVerifier TxBase.m_pAbort].
    destruct m_bBlockMode; intros [= <-]; reflexivity.
  - intros [= <-]. destruct ctx. reflexivity.
Qed.

Lemma gated_owned (D : list Sharding.Delta) :
  forall ctx iV,
    option_map fst (Sharding.gated D ctx iV)
    = Sharding.run (Sharding.owned (TxBase.m_nVerifiers ctx) iV D) ctx.
Proof.
  induction D as [| d D IH]; intros ctx iV; cbn [Sharding.gated Sharding.owned];
    [reflexivity |].
  destruct (Sharding.should_verify _ iV) as [[|] iV1]; [| apply IH].
  cbn [Sharding.run].
  destruct (Sharding.apply_delta d ctx) as [ctx1 |] eqn:Hd; [| reflexivity].
  rewrite IH, (apply_delta_nVerifiers _ _ _ Hd). reflexivity.
Qed.

(** [ValidateAndSummarize] is one gated run over the deltas of the stream. *)
Lemma ValidateAndSummarize_gated (ctx : TxBase.Context) (m_Offset : Scalar)
    (r : Reader.t) :
  Sharding.ctx_ok ctx -> Sharding.reader_ok r ->
  TxBase.ValidateAndSummarize rules ctx m_Offset r
  = if HeightRange.IsEmpty (TxBase.m_Height ctx) then None
    else if Sharding.locate_all (Reader.KernelIn r) (Reader.KernelOut r) then
      option_map fst
        (Sharding.gated
           (Sharding.deltas_all rules (TxBase.m_bBlockMode ctx) m_Offset r)
           ctx (TxBase.m_iVerifier ctx))
    else None.
Proof.
  intros Hok (Hkin & Hkout & Hout). unfold TxBase.ValidateAndSummarize.
  destruct (HeightRange.IsEmpty (TxBase.m_Height ctx)); [reflexivity |].
  fold (Sharding.negS ctx).
  change (TxBase.m_iVerifier (Sharding.negS ctx)) with (TxBase.m_iVerifier ctx).
  unfold Sharding.deltas_all.
  rewrite gated_app, gated_neg, gated_app.
  rewrite loop_UtxoIn_gated by exact Hok.
  destruct (Sharding.gated (Sharding.deltas Sharding.delta_UtxoIn None (Reader.UtxoIn r))
              (Sharding.negS ctx) (TxBase.m_iVerifier ctx)) as [[ctx1 iV1] |] eqn:H1;
    [| destruct (Sharding.locate_all _ _); reflexivity].
  destruct (gated_keeps _ (Sharding.negS ctx) _ _ _ Hok H1) as (Hok1 & _ & Hb1).
  rewrite loop_KernelIn_gated by (try exact Zero_wf; assumption).
  destruct (Sharding.locate_all (Reader.KernelIn r) (Reader.KernelOut r));
    [| reflexivity].
  destruct (Sharding.gated _ ctx1 iV1) as [[ctx2 iV2] |] eqn:H2; [| reflexivity].
  destruct (gated_keeps _ _ _ _ _ Hok1 H2) as (Hok2 & _ & Hb2).
  fold (Sharding.negS ctx2).
  rewrite gated_app.
  rewrite (loop_UtxoOut_gated rules _ Hout) by exact Hok2.
  change (TxBase.m_bBlockMode (Sharding.negS ctx2)) with (TxBase.m_bBlockMode ctx2).
  change (TxBase.m_bBlockMode (Sharding.negS ctx)) with (TxBase.m_bBlockMode ctx) in Hb1.
  rewrite Hb2, Hb1.
  destruct (Sharding.gated _ (Sharding.negS ctx2) iV2) as [[ctx3 iV3] |] eqn:H3; [| reflexivity].
  destruct (gated_keeps _ (Sharding.negS ctx2) _ _ _ Hok2 H3) as (Hok3 & _ & Hb3).
  rewrite gated_app.
  rewrite (loop_KernelOut_gated _ Hkout) by exact Hok3.
  destruct (Sharding.gated _ ctx3 iV3) as [[ctx4 iV4] |] eqn:H4; [| reflexivity].
  destruct (gated_keeps _ _ _ _ _ Hok3 H4) as (Hok4 & _ & Hb4).
  cbn [Sharding.gated].
  change (TxBase.ShouldVerify ctx4 iV4)
    with (Sharding.should_verify (TxBase.m_nVerifiers ctx4) iV4).
  destruct (Sharding.should_verify (TxBase.m_nVerifiers ctx4) iV4) as [[|] iV5];
    [| reflexivity].
  unfold Sharding.delta_Offset. rewrite apply_delta_sigma by exact Hok4. reflexivity.
Qed.

End GatedProps.

Section SummaryProps.
Context {P : Primitives}.

Lemma Intersect_comm (a b : HeightRange.t) :
  HeightRange.Intersect a b = HeightRange.Intersect b a.
Proof. unfold HeightRange.Intersect. f_equal; lia. Qed.

Lemma Intersect_assoc (a b c : HeightRange.t) :
  HeightRange.Intersect a (HeightRange.Intersect b c)
  = HeightRange.Intersect (HeightRange.Intersect a b) c.
Proof.
  unfold HeightRange.Intersect. cbn [HeightRange.m_Min HeightRange.m_Max]. f_equal; lia.
Qed.

Lemma Intersect_idem (a : HeightRange.t) : HeightRange.Intersect a a = a.
Proof. destruct a. unfold HeightRange.Intersect. cbn. f_equal; lia. Qed.

Lemma IsEmpty_Intersect (a b : HeightRange.t) :
  HeightRange.IsEmpty (HeightRange.Intersect a b) = false ->
  HeightRange.IsEmpty a = false.
Proof.
  unfold HeightRange.IsEmpty, HeightRange.Intersect.
  cbn [HeightRange.m_Min HeightRange.m_Max].
  intros H. destruct (Z.gtb_spec (HeightRange.m_Min a) (HeightRange.m_Max a));
    [| reflexivity].
  destruct (Z.gtb_spec (Z.max (HeightRange.m_Min a) (HeightRange.m_Min b))
                       (Z.min (HeightRange.m_Max a) (HeightRange.m_Max b)));
    [discriminate | lia].
Qed.

Lemma meet_comm (a b : option HeightRange.t) : Sharding.meet a b = Sharding.meet b a.
Proof. destruct a, b; cbn; try reflexivity. f_equal. apply Intersect_comm. Qed.

Lemma meet_assoc (a b c : option HeightRange.t) :
  Sharding.meet a (Sharding.meet b c) = Sharding.meet (Sharding.meet a b) c.
Proof. destruct a, b, c; cbn; try reflexivity. f_equal. apply Intersect_assoc. Qed.

Lemma meet_h_meet (h0 : HeightRange.t) (a b : option HeightRange.t) :
  Sharding.meet_h h0 (Sharding.meet a b)
  = Sharding.meet_h (Sharding.meet_h h0 a) b.
Proof. destruct a, b; cbn; try reflexivity. apply Intersect_assoc. Qed.

Lemma Summary_add_comm (a b : Sharding.Summary) :
  Sharding.Summary_add a b = Sharding.Summary_add b a.
Proof.
  unfold Sharding.Summary_add.
  rewrite andb_comm, Native_add_comm, meet_comm, (Z.add_comm (Sharding.s_fee a)),
    (Z.add_comm (Sharding.s_cb a)).
  reflexivity.
Qed.

Lemma Summary_add_assoc (a b c : Sharding.Summary) :
  Sharding.Summary_add a (Sharding.Summary_add b c)
  = Sharding.Summary_add (Sharding.Summary_add a b) c.
Proof.
  unfold Sharding.Summary_add.
  cbn [Sharding.s_ok Sharding.s_sigma Sharding.s_fee Sharding.s_cb Sharding.s_hr].
  rewrite andb_assoc, Native_add_assoc, meet_assoc, !Z.add_assoc. reflexivity.
Qed.

Lemma Summary_add_0_l (a : Sharding.Summary) :
  Sharding.Summary_add Sharding.Summary_zero a = a.
Proof.
  destruct a. unfold Sharding.Summary_add, Sharding.Summary_zero.
  cbn [Sharding.s_ok Sharding.s_sigma Sharding.s_fee Sharding.s_cb Sharding.s_hr
       andb Sharding.meet].
  rewrite Native_add_0_l. reflexivity.
Qed.

Lemma Summary_add_0_r (a : Sharding.Summary) :
  Sharding.Summary_add a Sharding.Summary_zero = a.
Proof. rewrite Summary_add_comm. apply Summary_add_0_l. Qed.

Lemma fold_left_Summary_add (l : list Sharding.Summary) (a : Sharding.Summary) :
  fold_left Sharding.Summary_add l a = Sharding.Summary_add a (Sharding.bigsum l).
Proof.
  unfold Sharding.bigsum. revert a. induction l as [| x l IH]; intros a; cbn [fold_left].
  - symmetry. apply Summary_add_0_r.
  - rewrite IH, (IH (Sharding.Summary_add _ x)), Summary_add_0_l.
    symmetry. apply Summary_add_assoc.
Qed.

Lemma bigsum_cons (x : Sharding.Summary) (l : list Sharding.Summary) :
  Sharding.bigsum (x :: l) = Sharding.Summary_add x (Sharding.bigsum l).
Proof.
  unfold Sharding.bigsum at 1. cbn [fold_left]. rewrite fold_left_Summary_add, Summary_add_0_l.
  reflexivity.
Qed.

Lemma bigsum_perm (l l' : list Sharding.Summary) :
  Permutation l l' -> Sharding.bigsum l = Sharding.bigsum l'.
Proof.
  induction 1 as [| x l l' _ IH | x y l | l l' l'' _ IH1 _ IH2].
  - reflexivity.
  - rewrite !bigsum_cons, IH. reflexivity.
  - rewrite !bigsum_cons, !Summary_add_assoc, (Summary_add_comm y x). reflexivity.
  - congruence.
Qed.

Lemma bigsum_map_add {A : Type} (f g : A -> Sharding.Summary) (l : list A) :
  Sharding.bigsum (map (fun c => Sharding.Summary_add (f c) (g c)) l)
  = Sharding.Summary_add (Sharding.bigsum (map f l)) (Sharding.bigsum (map g l)).
Proof.
  induction l as [| c l IH]; cbn [map].
  - symmetry. apply Summary_add_0_l.
  - rewrite !bigsum_cons, IH.
    rewrite <- !Summary_add_assoc. f_equal.
    rewrite !Summary_add_assoc. f_equal. apply Summary_add_comm.
Qed.

Lemma total_cons (bm : bool) (h0 : HeightRange.t) (d : Sharding.Delta)
    (L : list Sharding.Delta) :
  Sharding.total bm h0 (d :: L)
  = Sharding.Summary_add (Sharding.elem bm h0 d) (Sharding.total bm h0 L).
Proof. unfold Sharding.total. cbn [map]. apply bigsum_cons. Qed.

Lemma should_verify_small (N iV : Z) :
  0 <= iV < N -> N < 2 ^ 32 ->
  Sharding.should_verify N iV = (iV =? 0, if iV =? 0 then N - 1 else iV - 1).
Proof.
  intros HiV HN. unfold Sharding.should_verify, u32.
  destruct (Z.eqb_spec iV 0); cbn [negb]; f_equal; apply Z.mod_small; lia.
Qed.

Lemma counters_rotate (n : nat) :
  Z.of_nat (S n) < 2 ^ 32 ->
  Permutation (map (Sharding.next_counter (Z.of_nat (S n))) (map Z.of_nat (seq 0 (S n))))
              (map Z.of_nat (seq 0 (S n))).
Proof.
  intros Hn.
  assert (Hmap : map (Sharding.next_counter (Z.of_nat (S n))) (map Z.of_nat (seq 0 (S n)))
                 = Z.of_nat n :: map Z.of_nat (seq 0 n)).
  { cbn [seq map]. f_equal.
    - unfold Sharding.next_counter. rewrite should_verify_small by lia.
      destruct (Z.eqb_spec (Z.of_nat 0) 0); cbn [snd]; lia.
    - rewrite <- seq_shift, !map_map. apply map_ext_in. intros i Hi.
      apply in_seq in Hi. unfold Sharding.next_counter.
      rewrite should_verify_small by lia.
      destruct (Z.eqb_spec (Z.of_nat (S i)) 0); cbn [snd]; lia. }
  rewrite Hmap, seq_S, map_app. cbn [map Nat.add].
  apply Permutation_cons_append.
Qed.

Lemma bigsum_indicator (cs : list Z) (a : Sharding.Summary) (n : nat) :
  Permutation cs (map Z.of_nat (seq 0 (S n))) ->
  Sharding.bigsum (map (fun c => if c =? 0 then a else Sharding.Summary_zero) cs) = a.
Proof.
  intros Hperm.
  rewrite (bigsum_perm _ _ (Permutation_map _ Hperm)).
  change (seq 0 (S n)) with (O :: seq 1 n). cbn [map]. rewrite bigsum_cons.
  change (Z.of_nat 0 =? 0) with true. cbn iota.
  assert (Hrest : forall l, Forall (fun i => (0 < i)%nat) l ->
            Sharding.bigsum (map (fun c => if c =? 0 then a else Sharding.Summary_zero)
                        (map Z.of_nat l)) = Sharding.Summary_zero).
  { induction 1 as [| i l Hi _ IH]; [reflexivity |].
    cbn [map]. rewrite bigsum_cons, IH.
    destruct (Z.eqb_spec (Z.of_nat i) 0); [lia | apply Summary_add_0_l]. }
  rewrite Hrest; [apply Summary_add_0_r |].
  apply Forall_forall. intros i Hi. apply in_seq in Hi. lia.
Qed.

(** Every delta is owned by exactly one counter. *)
Lemma owned_partition (bm : bool) (h0 : HeightRange.t) (n : nat)
    (D : list Sharding.Delta) :
  Z.of_nat (S n) < 2 ^ 32 ->
  forall cs : list Z,
    Permutation cs (map Z.of_nat (seq 0 (S n))) ->
    Sharding.bigsum (map (fun c => Sharding.total bm h0 (Sharding.owned (Z.of_nat (S n)) c D)) cs)
    = Sharding.total bm h0 D.
Proof.
  intros Hn. set (N := Z.of_nat (S n)) in *.
  induction D as [| d D IH]; intros cs Hperm.
  - cbn [Sharding.owned]. change (Sharding.total bm h0 []) with Sharding.Summary_zero.
    clear Hperm. induction cs as [| c cs IHcs]; [reflexivity |].
    cbn [map]. rewrite bigsum_cons, IHcs. apply Summary_add_0_l.
  - assert (Hcs : Forall (fun c => 0 <= c < N) cs).
    { apply Forall_forall. intros c Hc.
      apply (Permutation_in _ Hperm) in Hc. apply in_map_iff in Hc.
      destruct Hc as (i & <- & Hi). apply in_seq in Hi. subst N. lia. }
    assert (Hstep : map (fun c => Sharding.total bm h0 (Sharding.owned N c (d :: D))) cs
                    = map (fun c => Sharding.Summary_add
                                      (if c =? 0 then Sharding.elem bm h0 d
                                       else Sharding.Summary_zero)
                                      (Sharding.total bm h0
                                         (Sharding.owned N (Sharding.next_counter N c) D))) cs).
    { apply map_ext_in. intros c Hc. rewrite Forall_forall in Hcs.
      specialize (Hcs c Hc). cbn [Sharding.owned]. unfold Sharding.next_counter.
      rewrite should_verify_small by lia. cbn [snd].
      destruct (Z.eqb_spec c 0).
      - apply total_cons.
      - symmetry. apply Summary_add_0_l. }
    rewrite Hstep, bigsum_map_add, (bigsum_indicator cs _ n Hperm).
    rewrite total_cons. f_equal.
    rewrite <- (map_map (Sharding.next_counter N)
                  (fun c => Sharding.total bm h0 (Sharding.owned N c D))).
    apply IH.
    apply (Permutation_trans (Permutation_map _ Hperm)).
    apply counters_rotate. exact Hn.
Qed.

End SummaryProps.

Section ShardingProps.
Context {P : Primitives}.
Variable rules : Rules.

Lemma good_add_l (h0 : HeightRange.t) (a b : Sharding.Summary) :
  Sharding.good h0 (Sharding.Summary_add a b) = true -> Sharding.good h0 a = true.
Proof.
  unfold Sharding.good, Sharding.Summary_add.
  cbn [Sharding.s_ok Sharding.s_hr]. rewrite meet_h_meet.
  intros H. apply andb_prop in H. destruct H as [Hok Hh].
  apply andb_prop in Hok. destruct Hok as [Ha _]. rewrite Ha. cbn [andb].
  apply negb_true_iff in Hh. apply negb_true_iff.
  destruct (Sharding.s_hr b) as [y |]; cbn [Sharding.meet_h] in Hh;
    [apply (IsEmpty_Intersect _ y) |]; exact Hh.
Qed.

Lemma good_add_r (h0 : HeightRange.t) (a b : Sharding.Summary) :
  Sharding.good h0 (Sharding.Summary_add a b) = true -> Sharding.good h0 b = true.
Proof. rewrite Summary_add_comm. apply good_add_l. Qed.

Lemma good_fold (h0 : HeightRange.t) (l : list Sharding.Summary) (a : Sharding.Summary) :
  Sharding.good h0 (fold_left Sharding.Summary_add l a) = true ->
  Sharding.good h0 a = true.
Proof. rewrite fold_left_Summary_add. apply good_add_l. Qed.

Lemma not_good_fold (h0 : HeightRange.t) (l : list Sharding.Summary)
    (a : Sharding.Summary) :
  Sharding.good h0 a = false ->
  Sharding.good h0 (fold_left Sharding.Summary_add l a) = false.
Proof.
  intros Ha. destruct (Sharding.good h0 (fold_left _ l a)) eqn:Hg; [| reflexivity].
  apply good_fold in Hg. congruence.
Qed.

Lemma meet_None_r (a : option HeightRange.t) : Sharding.meet a None = a.
Proof. destruct a; reflexivity. Qed.

Lemma add_of_values (x y : Z) (b : AmountBig.t) :
  AmountBig.wf b -> AmountBig.value b = y \/ b = AmountBig.of_value y ->
  AmountBig.add (AmountBig.of_value x) b = AmountBig.of_value (x + y).
Proof.
  intros Hb Hy. rewrite add_of_value by (try apply of_value_wf; exact Hb).
  destruct Hy as [<- | ->].
  - apply of_value_add_mod.
  - rewrite of_value_add_mod, Z.add_comm, of_value_add_mod. f_equal. lia.
Qed.

Lemma apply_delta_den (N i : Z) (bm : bool) (h0 : HeightRange.t)
    (s : Sharding.Summary) (d : Sharding.Delta) :
  Sharding.delta_wf d -> Sharding.inv bm h0 s ->
  Sharding.apply_delta d (Sharding.den N i bm h0 s)
  = if Sharding.good h0 (Sharding.Summary_add s (Sharding.elem bm h0 d))
    then Some (Sharding.den N i bm h0 (Sharding.Summary_add s (Sharding.elem bm h0 d)))
    else None.
Proof.
  intros [Hfee Hcb] [Hgood Hblock].
  unfold Sharding.good in Hgood. apply andb_prop in Hgood.
  destruct Hgood as [Hok Hh]. apply negb_true_iff in Hh.
  unfold Sharding.apply_delta, Sharding.good, Sharding.Summary_add, Sharding.elem,
    Sharding.den, TxBase.HandleElementHeight.
  cbn [Sharding.s_ok Sharding.s_sigma Sharding.s_fee Sharding.s_cb Sharding.s_hr
       TxBase.set_Sigma TxBase.set_Fee TxBase.set_Coinbase TxBase.set_Height
       TxBase.m_Sigma TxBase.m_Fee TxBase.m_Coinbase TxBase.m_Height
       TxBase.m_bBlockMode TxBase.m_nVerifiers TxBase.m_iVerifier TxBase.m_pAbort].
  assert (HF : AmountBig.add (AmountBig.of_value (Sharding.s_fee s)) (Sharding.d_fee d)
               = AmountBig.of_value (Sharding.s_fee s + AmountBig.value (Sharding.d_fee d)))
    by (apply add_of_values; [exact Hfee | left; reflexivity]).
  assert (HC : AmountBig.add (AmountBig.of_value (Sharding.s_cb s)) (Sharding.d_cb d)
               = AmountBig.of_value (Sharding.s_cb s + AmountBig.value (Sharding.d_cb d)))
    by (apply add_of_values; [exact Hcb | left; reflexivity]).
  rewrite Hok, HF, HC. destruct (Sharding.d_ok d); cbn [negb andb]; [| reflexivity].
  destruct (Sharding.d_hr d) as [hr |].
  - destruct bm.
    + rewrite (Hblock eq_refl) in *. cbn [Sharding.meet Sharding.meet_h negb] in *.
      destruct (HeightRange.IsEmpty (HeightRange.Intersect h0 hr));
        cbn [negb andb]; [reflexivity |].
      rewrite Hh. reflexivity.
    + cbn [negb andb]. rewrite meet_h_meet. cbn [Sharding.meet_h].
      destruct (HeightRange.IsEmpty
                  (HeightRange.Intersect (Sharding.meet_h h0 (Sharding.s_hr s)) hr));
        reflexivity.
  - replace (if bm then None else None) with (@None HeightRange.t)
      by (destruct bm; reflexivity).
    replace (if bm then true else true) with true by (destruct bm; reflexivity).
    rewrite meet_None_r, Hh. reflexivity.
Qed.

Lemma inv_add_elem (bm : bool) (h0 : HeightRange.t) (s : Sharding.Summary)
    (d : Sharding.Delta) :
  Sharding.inv bm h0 s ->
  Sharding.good h0 (Sharding.Summary_add s (Sharding.elem bm h0 d)) = true ->
  Sharding.inv bm h0 (Sharding.Summary_add s (Sharding.elem bm h0 d)).
Proof.
  intros [_ Hblock] Hgood. split; [exact Hgood |].
  intros ->. cbn [Sharding.Summary_add Sharding.elem Sharding.s_hr].
  rewrite (Hblock eq_refl). reflexivity.
Qed.

Lemma run_den (N i : Z) (bm : bool) (h0 : HeightRange.t) (L : list Sharding.Delta) :
  Forall Sharding.delta_wf L ->
  forall s,
    Sharding.inv bm h0 s ->
    Sharding.run L (Sharding.den N i bm h0 s)
    = let t := fold_left Sharding.Summary_add (map (Sharding.elem bm h0) L) s in
      if Sharding.good h0 t then Some (Sharding.den N i bm h0 t) else None.
Proof.
  induction 1 as [| d L Hd _ IH]; intros s Hs; cbn [Sharding.run map fold_left].
  - cbn zeta. rewrite (proj1 Hs). reflexivity.
  - rewrite apply_delta_den by assumption.
    destruct (Sharding.good h0 (Sharding.Summary_add s (Sharding.elem bm h0 d))) eqn:Hg.
    + apply IH. apply inv_add_elem; assumption.
    + cbn zeta. rewrite not_good_fold by exact Hg. reflexivity.
Qed.

Lemma Intersect_both (h0 : HeightRange.t) (a b : option HeightRange.t) :
  HeightRange.Intersect (Sharding.meet_h h0 a) (Sharding.meet_h h0 b)
  = Sharding.meet_h h0 (Sharding.meet a b).
Proof.
  destruct h0 as [lo hi].
  destruct a as [[alo ahi] |], b as [[blo bhi] |];
    cbn [Sharding.meet Sharding.meet_h];
    unfold HeightRange.Intersect;
    cbn [HeightRange.m_Min HeightRange.m_Max];
    f_equal; lia.
Qed.

Lemma Merge_den (N i N' j : Z) (bm : bool) (h0 : HeightRange.t)
    (a b : Sharding.Summary) :
  Sharding.inv bm h0 a -> Sharding.inv bm h0 b ->
  TxBase.Merge (Sharding.den N i bm h0 a) (Sharding.den N' j bm h0 b)
  = if Sharding.good h0 (Sharding.Summary_add a b)
    then Some (Sharding.den N i bm h0 (Sharding.Summary_add a b))
    else None.
Proof.
  intros [Ha Hablock] [Hb Hbblock].
  unfold Sharding.good in Ha, Hb. apply andb_prop in Ha, Hb.
  destruct Ha as [Haok Hah], Hb as [Hbok Hbh]. apply negb_true_iff in Hah, Hbh.
  unfold TxBase.Merge, TxBase.HandleElementHeight, Sharding.den, Sharding.good,
    Sharding.Summary_add.
  cbn [Sharding.s_ok Sharding.s_sigma Sharding.s_fee Sharding.s_cb Sharding.s_hr
       TxBase.set_Sigma TxBase.set_Fee TxBase.set_Coinbase TxBase.set_Height
       TxBase.m_Sigma TxBase.m_Fee TxBase.m_Coinbase TxBase.m_Height
       TxBase.m_bBlockMode TxBase.m_nVerifiers TxBase.m_iVerifier TxBase.m_pAbort].
  assert (HF : AmountBig.add (AmountBig.of_value (Sharding.s_fee a))
                             (AmountBig.of_value (Sharding.s_fee b))
               = AmountBig.of_value (Sharding.s_fee a + Sharding.s_fee b))
    by (apply add_of_values; [apply of_value_wf | right; reflexivity]).
  assert (HC : AmountBig.add (AmountBig.of_value (Sharding.s_cb a))
                             (AmountBig.of_value (Sharding.s_cb b))
               = AmountBig.of_value (Sharding.s_cb a + Sharding.s_cb b))
    by (apply add_of_values; [apply of_value_wf | right; reflexivity]).
  rewrite Intersect_both, Haok, Hbok. cbn [andb].
  destruct bm.
  - rewrite (Hablock eq_refl), (Hbblock eq_refl) in *.
    cbn [Sharding.meet Sharding.meet_h negb] in *. rewrite Hah. cbn [negb].
    cbn [TxBase.set_Sigma TxBase.set_Fee TxBase.set_Coinbase TxBase.set_Height
         TxBase.m_Sigma TxBase.m_Fee TxBase.m_Coinbase TxBase.m_Height
         TxBase.m_bBlockMode TxBase.m_nVerifiers TxBase.m_iVerifier TxBase.m_pAbort].
    rewrite HF, HC. reflexivity.
  - destruct (HeightRange.IsEmpty
                (Sharding.meet_h h0 (Sharding.meet (Sharding.s_hr a) (Sharding.s_hr b))));
      cbn [negb]; [reflexivity |].
    cbn [TxBase.set_Sigma TxBase.set_Fee TxBase.set_Coinbase TxBase.set_Height
         TxBase.m_Sigma TxBase.m_Fee TxBase.m_Coinbase TxBase.m_Height
         TxBase.m_bBlockMode TxBase.m_nVerifiers TxBase.m_iVerifier TxBase.m_pAbort].
    rewrite HF, HC. reflexivity.
Qed.

Lemma fold_Merge_None (l : list (option TxBase.Context)) :
  fold_left Sharding.Merge_results l None = None.
Proof. induction l as [| x l IH]; [reflexivity | exact IH]. Qed.

Lemma fold_Merge_den (N : Z) (bm : bool) (h0 : HeightRange.t)
    (T : nat -> Sharding.Summary) (l : list nat) :
  (forall j, bm = true -> Sharding.s_hr (T j) = None) ->
  forall a,
    Sharding.inv bm h0 a ->
    fold_left Sharding.Merge_results
      (map (fun j => Sharding.shard_result N bm h0 (Z.of_nat j) (T j)) l)
      (Some (Sharding.den N 0 bm h0 a))
    = Sharding.shard_result N bm h0 0 (fold_left Sharding.Summary_add (map T l) a).
Proof.
  intros Hblock. induction l as [| j l IH]; intros a Ha; cbn [map fold_left].
  - unfold Sharding.shard_result. rewrite (proj1 Ha). reflexivity.
  - assert (Hhead :
      Sharding.Merge_results (Some (Sharding.den N 0 bm h0 a))
        (Sharding.shard_result N bm h0 (Z.of_nat j) (T j))
      = Sharding.shard_result N bm h0 0 (Sharding.Summary_add a (T j))).
    { unfold Sharding.shard_result.
      destruct (Sharding.good h0 (T j)) eqn:Hj; cbn [Sharding.Merge_results].
      - apply Merge_den; [exact Ha | split; [exact Hj | apply Hblock]].
      - destruct (Sharding.good h0 (Sharding.Summary_add a (T j))) eqn:Hg;
          [| reflexivity].
        apply good_add_r in Hg. congruence. }
    rewrite Hhead.
    destruct (Sharding.good h0 (Sharding.Summary_add a (T j))) eqn:Hg.
    + assert (Hacc : Sharding.shard_result N bm h0 0 (Sharding.Summary_add a (T j))
                     = Some (Sharding.den N 0 bm h0 (Sharding.Summary_add a (T j))))
        by (unfold Sharding.shard_result; rewrite Hg; reflexivity).
      rewrite Hacc. apply IH. split; [exact Hg |]. intros ->.
      cbn [Sharding.Summary_add Sharding.s_hr].
      rewrite (proj2 Ha eq_refl), (Hblock j eq_refl). reflexivity.
    + assert (Hacc : Sharding.shard_result N bm h0 0 (Sharding.Summary_add a (T j)) = None)
        by (unfold Sharding.shard_result; rewrite Hg; reflexivity).
      rewrite Hacc, fold_Merge_None. unfold Sharding.shard_result.
      rewrite not_good_fold by exact Hg. reflexivity.
Qed.

Lemma total_block (h0 : HeightRange.t) (L : list Sharding.Delta) :
  Sharding.s_hr (Sharding.total true h0 L) = None.
Proof.
  unfold Sharding.total.
  assert (H : forall s, Sharding.s_hr s = None ->
            Sharding.s_hr (fold_left Sharding.Summary_add
                             (map (Sharding.elem true h0) L) s) = None).
  { induction L as [| d L IH]; intros s Hs; cbn [map fold_left]; [exact Hs |].
    apply IH. cbn [Sharding.Summary_add Sharding.elem Sharding.s_hr].
    rewrite Hs. reflexivity. }
  apply H. reflexivity.
Qed.

Lemma owned_wf (N : Z) (D : list Sharding.Delta) :
  Forall Sharding.delta_wf D ->
  forall c, Forall Sharding.delta_wf (Sharding.owned N c D).
Proof.
  induction 1 as [| d D Hd _ IH]; intros c; cbn [Sharding.owned]; [constructor |].
  destruct (Sharding.should_verify N c) as [[|] c']; [constructor; [exact Hd |] |];
    apply IH.
Qed.

Lemma owned_all (D : list Sharding.Delta) : Sharding.owned 1 0 D = D.
Proof.
  induction D as [| d D IH]; [reflexivity |].
  cbn [Sharding.owned]. change (Sharding.should_verify 1 0) with (true, 0).
  cbn iota. rewrite IH. reflexivity.
Qed.

Lemma deltas_wf {T : Type} (delta : option T -> T -> Sharding.Delta)
    (Q : T -> Prop) (it : list T) :
  (forall p c, Q c -> Sharding.delta_wf (delta p c)) ->
  Forall Q it ->
  forall pPrev, Forall Sharding.delta_wf (Sharding.deltas delta pPrev it).
Proof.
  intros Hdelta. induction 1 as [| c it Hc _ IH]; intros pPrev;
    cbn [Sharding.deltas]; constructor; [apply Hdelta, Hc | apply IH].
Qed.

Lemma delta_Kernel_wf (p : option TxKernel.t) (c : TxKernel.t) (bFee bHeight : bool) :
  TxKernel.fees_ok c -> Sharding.delta_wf (Sharding.delta_Kernel p c bFee bHeight).
Proof.
  intros Hc. unfold Sharding.delta_Kernel.
  destruct (IsValid_shift c AmountBig.Zero Native_Zero Hc Zero_wf) as [_ Hdf].
  destruct (TxKernel.IsValid c AmountBig.Zero Native_Zero) as [[df de] |];
    split; cbn [Sharding.d_fee Sharding.d_cb]; try exact Zero_wf.
  destruct bFee; [exact Hdf | exact Zero_wf].
Qed.

Lemma delta_UtxoOut_wf (bm : bool) (p : option Output.t) (c : Output.t) :
  Sharding.delta_wf (Sharding.delta_UtxoOut rules bm p c).
Proof.
  unfold Sharding.delta_UtxoOut. destruct (Output.IsValid rules c) as [bValid pt].
  destruct (Output.m_Coinbase c); [destruct (Output.m_pPublic c) |];
    split; cbn [Sharding.d_fee Sharding.d_cb]; try exact Zero_wf.
  apply add_Amount_wf, Zero_wf.
Qed.

Lemma delta_UtxoIn_wf (p : option Input.t) (c : Input.t) :
  Sharding.delta_wf (Sharding.delta_UtxoIn p c).
Proof.
  unfold Sharding.delta_UtxoIn. destruct (Native_Import _); split; exact Zero_wf.
Qed.

Lemma deltas_all_wf (bm : bool) (m_Offset : Scalar) (r : Reader.t) :
  Sharding.reader_ok r ->
  Forall Sharding.delta_wf (Sharding.deltas_all rules bm m_Offset r).
Proof.
  intros (Hkin & Hkout & Hout). unfold Sharding.deltas_all.
  apply Forall_app. split; [| apply Forall_app; split; [| apply Forall_app; split]].
  - apply Forall_map. apply Forall_app. split.
    + apply Forall_impl with (P := Sharding.delta_wf); [intros d Hd; exact Hd |].
      apply (deltas_wf _ (fun _ => True)); [intros; apply delta_UtxoIn_wf |].
      apply Forall_forall. intros; exact I.
    + apply (deltas_wf _ TxKernel.fees_ok); [intros; apply delta_Kernel_wf |];
        assumption.
  - apply (deltas_wf _ (fun _ => True)); [intros; apply delta_UtxoOut_wf |].
    apply Forall_forall. intros; exact I.
  - apply (deltas_wf _ TxKernel.fees_ok); [intros; apply delta_Kernel_wf |];
      assumption.
  - constructor; [split; exact Zero_wf | constructor].
Qed.

(** One shard in closed form. *)
Lemma shard_closed_form (N i : Z) (hr : HeightRange.t) (bm : bool)
    (m_Offset : Scalar) (r : Reader.t) :
  Sharding.reader_ok r ->
  TxBase.ValidateAndSummarize rules (Sharding.shard_ctx N i hr bm) m_Offset r
  = if HeightRange.IsEmpty hr then None
    else if Sharding.locate_all (Reader.KernelIn r) (Reader.KernelOut r) then
      Sharding.shard_result N bm hr i
        (Sharding.total bm hr
           (Sharding.owned N i (Sharding.deltas_all rules bm m_Offset r)))
    else None.
Proof.
  intros Hr.
  rewrite (ValidateAndSummarize_gated rules)
    by (first [assumption
              | split; [exact Zero_wf | split; [exact Zero_wf | reflexivity]]]).
  cbn [Sharding.shard_ctx TxBase.m_Height TxBase.m_bBlockMode TxBase.m_iVerifier].
  destruct (HeightRange.IsEmpty hr) eqn:Hempty; [reflexivity |].
  destruct (Sharding.locate_all _ _); [| reflexivity].
  rewrite gated_owned. cbn [TxBase.m_nVerifiers].
  change (Sharding.shard_ctx N i hr bm)
    with (Sharding.den N i bm hr Sharding.Summary_zero).
  rewrite run_den.
  - reflexivity.
  - apply owned_wf, deltas_all_wf, Hr.
  - split; [| reflexivity]. unfold Sharding.good.
    cbn [Sharding.Summary_zero Sharding.s_ok Sharding.s_hr Sharding.meet_h andb].
    rewrite Hempty. reflexivity.
Qed.

End ShardingProps.

Section ShardingTheorem.
Context {P : Primitives}.
Variable rules : Rules.

Lemma sharded_closed_form (m : nat) (hr : HeightRange.t) (bm : bool)
    (m_Offset : Scalar) (r : Reader.t) :
  Z.of_nat (S m) < 2 ^ 32 -> Sharding.reader_ok r ->
  Sharding.sharded_ValidateAndSummarize rules (S m) hr bm m_Offset r
  = if HeightRange.IsEmpty hr then None
    else if Sharding.locate_all (Reader.KernelIn r) (Reader.KernelOut r) then
      Sharding.shard_result (Z.of_nat (S m)) bm hr 0
        (Sharding.total bm hr (Sharding.deltas_all rules bm m_Offset r))
    else None.
Proof.
  intros Hm Hr. unfold Sharding.sharded_ValidateAndSummarize.
  set (N := Z.of_nat (S m)) in *.
  set (D := Sharding.deltas_all rules bm m_Offset r).
  rewrite (map_ext _ _ (fun i => shard_closed_form rules N (Z.of_nat i) hr bm m_Offset r Hr)).
  fold D. change (seq 0 (S m)) with (O :: seq 1 m). cbn [map].
  destruct (HeightRange.IsEmpty hr); [apply fold_Merge_None |].
  destruct (Sharding.locate_all _ _); [| apply fold_Merge_None].
  set (T := fun i : nat => Sharding.total bm hr (Sharding.owned N (Z.of_nat i) D)).
  change (Sharding.total bm hr (Sharding.owned N (Z.of_nat 0) D)) with (T O).
  change (map (fun i : nat =>
                 Sharding.shard_result N bm hr (Z.of_nat i)
                   (Sharding.total bm hr (Sharding.owned N (Z.of_nat i) D)))
              (seq 1 m))
    with (map (fun i : nat => Sharding.shard_result N bm hr (Z.of_nat i) (T i)) (seq 1 m)).
  assert (Htotal : Sharding.total bm hr D
                   = fold_left Sharding.Summary_add (map T (seq 1 m)) (T O)).
  { rewrite <- (owned_partition bm hr m D Hm (map Z.of_nat (seq 0 (S m)))
                  (Permutation_refl _)).
    rewrite map_map. change (seq 0 (S m)) with (O :: seq 1 m). cbn [map].
    unfold Sharding.bigsum. cbn [fold_left]. rewrite Summary_add_0_l. reflexivity. }
  rewrite Htotal.
  assert (Hblock : forall j, bm = true -> Sharding.s_hr (T j) = None)
    by (intros j ->; apply total_block).
  change (Z.of_nat 0) with 0.
  destruct (Sharding.good hr (T O)) eqn:H0.
  - assert (Hacc : Sharding.shard_result N bm hr 0 (T O) = Some (Sharding.den N 0 bm hr (T O)))
      by (unfold Sharding.shard_result; rewrite H0; reflexivity).
    rewrite Hacc.
    apply fold_Merge_den; [exact Hblock | split; [exact H0 | apply Hblock]].
  - assert (Hacc : Sharding.shard_result N bm hr 0 (T O) = None)
      by (unfold Sharding.shard_result; rewrite H0; reflexivity).
    rewrite Hacc, fold_Merge_None. unfold Sharding.shard_result.
    rewrite not_good_fold by exact H0. reflexivity.
Qed.

(** C2.  Sharding equivalence.  For every number of shards [n >= 1] that a
    [uint32_t] holds (so for every [n] from 1 to 8) and every stream whose
    amounts are within [Amount]: [n] contexts with [m_nVerifiers = n] and
    [m_iVerifier = 0 .. n-1], each running [ValidateAndSummarize] on the
    stream and then combined with [Merge], accept exactly when one context
    with [m_nVerifiers = 1] accepts, and then both hold the same commitment
    sum, the same fee and coinbase totals and the same height range. *)
Theorem sharding_equivalence (n : nat) (hr : HeightRange.t) (bBlockMode : bool)
    (m_Offset : Scalar) (r : Reader.t) :
  (1 <= n)%nat -> Z.of_nat n < 2 ^ 32 -> Sharding.reader_ok r ->
  Sharding.same_outcome
    (Sharding.single_ValidateAndSummarize rules hr bBlockMode m_Offset r)
    (Sharding.sharded_ValidateAndSummarize rules n hr bBlockMode m_Offset r).
Proof.
  intros Hn Hlt Hr. destruct n as [| m]; [lia |].
  rewrite sharded_closed_form by assumption.
  unfold Sharding.single_ValidateAndSummarize.
  rewrite shard_closed_form by assumption. rewrite owned_all.
  destruct (HeightRange.IsEmpty hr); [exact I |].
  destruct (Sharding.locate_all _ _); [| exact I].
  unfold Sharding.shard_result.
  destruct (Sharding.good hr _); [| exact I].
  repeat split.
Qed.

End ShardingTheorem.


Lemma sharding_equivalence_witness :
  Sharding.same_outcome
    (Sharding.single_ValidateAndSummarize (P := Toy.primitives) Toy.rules
       Toy.body_heights true 4 Toy.shard_reader)
    (Sharding.sharded_ValidateAndSummarize (P := Toy.primitives) Toy.rules 3
       Toy.body_heights true 4 Toy.shard_reader).
Proof.
  apply (sharding_equivalence (P := Toy.primitives)).
  - lia.
  - cbn. lia.
  - unfold Sharding.reader_ok, Toy.shard_reader, Sharding.value_ok. cbn.
    repeat split; repeat constructor; cbn; lia.
Defined.


(** * Further properties of the code *)

(** ** Height ranges *)

Section HeightRangeProps.

Lemma u64_sub (a b : Z) :
  0 <= a < 2 ^ 64 -> 0 <= b < 2 ^ 64 ->
  u64 (a - b) = if b <=? a then a - b else a - b + 2 ^ 64.
Proof.
  intros Ha Hb. unfold u64.
  destruct (Z.leb_spec b a).
  - apply Z.mod_small. lia.
  - symmetry. apply (Z.mod_unique _ _ (-1)); lia.
Qed.

(** X1. [HeightRange::IsInRange].  On a range that is not empty, [IsInRange]
    tells whether [m_Min <= h <= m_Max].  On an empty range (where
    [m_Min > m_Max]) the unsigned subtraction wraps and [IsInRange] accepts
    every height from [m_Min] up and every height up to [m_Max]: the test
    does not look at [IsEmpty]. *)
Theorem IsInRange_spec (r : HeightRange.t) (h : Z) :
  0 <= HeightRange.m_Min r < 2 ^ 64 -> 0 <= HeightRange.m_Max r < 2 ^ 64 ->
  0 <= h < 2 ^ 64 ->
  HeightRange.IsInRange r h
  = if HeightRange.IsEmpty r
    then (HeightRange.m_Min r <=? h) || (h <=? HeightRange.m_Max r)
    else (HeightRange.m_Min r <=? h) && (h <=? HeightRange.m_Max r).
Proof.
  intros Hmin Hmax Hh.
  unfold HeightRange.IsInRange, HeightRange.IsInRangeRelative, HeightRange.IsEmpty.
  rewrite !u64_sub by lia. rewrite Z.gtb_ltb.
  destruct (Z.ltb_spec (HeightRange.m_Max r) (HeightRange.m_Min r));
    repeat match goal with
           | |- context [if ?x <=? ?y then _ else _] =>
               destruct (Z.leb_spec x y); cbv beta iota
           end;
    repeat match goal with
           | |- context [?x <=? ?y] => destruct (Z.leb_spec x y)
           end; cbn [andb orb]; try reflexivity; lia.
Qed.

(** X2. [HeightRange::Intersect].  When the intersection of two ranges is
    not empty, a height is in it exactly when it is in both ranges. *)
Theorem Intersect_IsInRange (a b : HeightRange.t) (h : Z) :
  0 <= HeightRange.m_Min a -> HeightRange.m_Max a < 2 ^ 64 ->
  0 <= HeightRange.m_Min b -> HeightRange.m_Max b < 2 ^ 64 ->
  0 <= h < 2 ^ 64 ->
  HeightRange.IsEmpty (HeightRange.Intersect a b) = false ->
  HeightRange.IsInRange (HeightRange.Intersect a b) h
  = HeightRange.IsInRange a h && HeightRange.IsInRange b h.
Proof.
  intros Ha0 Ha1 Hb0 Hb1 Hh Hne.
  unfold HeightRange.IsEmpty in Hne. rewrite Z.gtb_ltb in Hne.
  cbn [HeightRange.Intersect HeightRange.m_Min HeightRange.m_Max] in Hne.
  apply Z.ltb_ge in Hne.
  unfold HeightRange.IsInRange, HeightRange.IsInRangeRelative.
  cbn [HeightRange.Intersect HeightRange.m_Min HeightRange.m_Max].
  rewrite !u64_sub by lia.
  repeat match goal with
         | |- context [if ?x <=? ?y then _ else _] =>
             destruct (Z.leb_spec x y); cbv beta iota
         end;
  repeat match goal with
         | |- context [?x <=? ?y] => destruct (Z.leb_spec x y)
         end; cbn [andb]; try reflexivity; lia.
Qed.

End HeightRangeProps.

Lemma IsInRange_spec_witness :
  HeightRange.IsInRange (HeightRange.Build 7 3) 9
  = if HeightRange.IsEmpty (HeightRange.Build 7 3)
    then (7 <=? 9) || (9 <=? 3) else (7 <=? 9) && (9 <=? 3).
Proof.
  apply (IsInRange_spec (HeightRange.Build 7 3) 9); cbn; lia.
Defined.

Lemma Intersect_IsInRange_witness :
  HeightRange.IsInRange
    (HeightRange.Intersect Toy.body_heights (HeightRange.Build 2 9)) 3
  = HeightRange.IsInRange Toy.body_heights 3
    && HeightRange.IsInRange (HeightRange.Build 2 9) 3.
Proof.
  apply (Intersect_IsInRange Toy.body_heights (HeightRange.Build 2 9) 3);
    cbn; (reflexivity || lia).
Defined.

(** ** 128-bit amounts *)

Section AmountBigRoundTrip.
Context {P : Primitives}.

Lemma value_of_value (v : Z) :
  AmountBig.value (AmountBig.of_value v) = v mod 2 ^ 128.
Proof.
  unfold AmountBig.of_value, AmountBig.value. cbn [AmountBig.Lo AmountBig.Hi].
  change (2 ^ 128) with (2 ^ 64 * 2 ^ 64).
  rewrite Z.rem_mul_r by lia. lia.
Qed.

Lemma of_value_sub_mod (v w : Z) :
  AmountBig.of_value (AmountBig.value (AmountBig.of_value v) - w)
  = AmountBig.of_value (v - w).
Proof.
  replace (AmountBig.value (AmountBig.of_value v) - w)
    with (AmountBig.value (AmountBig.of_value v) + - w) by lia.
  rewrite of_value_add_mod. reflexivity.
Qed.

Lemma sub_Amount_of_value (a : AmountBig.t) (x : Z) :
  AmountBig.wf a -> 0 <= x < 2 ^ 64 ->
  AmountBig.sub_Amount a x = AmountBig.of_value (AmountBig.value a - x).
Proof.
  destruct a as [lo hi]. intros [Hlo Hhi] Hx. cbn [AmountBig.Lo AmountBig.Hi] in *.
  unfold AmountBig.sub_Amount, AmountBig.of_value, AmountBig.value, u64.
  cbn [AmountBig.Lo AmountBig.Hi].
  replace (lo + hi * 2 ^ 64 - x) with (lo - x + hi * 2 ^ 64) by lia.
  rewrite Z.mod_add, Z.div_add by lia. f_equal.
  destruct (Z.ltb_spec lo x) as [Hlt | Hge].
  - assert (Hd : (lo - x) / 2 ^ 64 = -1)
      by (symmetry; apply Z.div_unique with (r := lo - x + 2 ^ 64); lia).
    rewrite Hd. f_equal. lia.
  - rewrite (Z.div_small (lo - x)) by lia.
    rewrite Z.add_0_l. symmetry. apply Z.mod_small; lia.
Qed.

Lemma sub_Amount_wf (a : AmountBig.t) (x : Z) :
  AmountBig.wf a -> AmountBig.wf (AmountBig.sub_Amount a x).
Proof.
  intros [Hlo Hhi]. unfold AmountBig.sub_Amount, u64. split; cbn [AmountBig.Lo AmountBig.Hi].
  - apply Z.mod_pos_bound; lia.
  - destruct (AmountBig.Lo a <? x); [apply Z.mod_pos_bound; lia | exact Hhi].
Qed.

Lemma sub_of_value (a b : AmountBig.t) :
  AmountBig.wf a -> AmountBig.wf b ->
  AmountBig.sub a b = AmountBig.of_value (AmountBig.value a - AmountBig.value b).
Proof.
  intros Ha Hb. unfold AmountBig.sub.
  rewrite sub_Amount_of_value by (try assumption; apply Hb).
  unfold AmountBig.of_value, AmountBig.value, u64. cbn [AmountBig.Lo AmountBig.Hi].
  replace (AmountBig.Lo a + AmountBig.Hi a * 2 ^ 64
           - (AmountBig.Lo b + AmountBig.Hi b * 2 ^ 64))
    with (AmountBig.Lo a + AmountBig.Hi a * 2 ^ 64 - AmountBig.Lo b
          + - AmountBig.Hi b * 2 ^ 64) by lia.
  rewrite Z.mod_add, Z.div_add by lia. f_equal.
  rewrite Zminus_mod_idemp_l. reflexivity.
Qed.

(** X3. [AmountBig::operator +=], both overloads.  An [AmountBig] holds the
    number [Lo + Hi * 2^64]; adding an [Amount] or another [AmountBig] adds
    the numbers modulo [2^128], the carry of the low half going into the
    high half. *)
Theorem AmountBig_add_value (a b : AmountBig.t) (x : Z) :
  AmountBig.wf a -> AmountBig.wf b -> 0 <= x < 2 ^ 64 ->
  AmountBig.value (AmountBig.add_Amount a x)
  = (AmountBig.value a + x) mod 2 ^ 128 /\
  AmountBig.value (AmountBig.add a b)
  = (AmountBig.value a + AmountBig.value b) mod 2 ^ 128 /\
  AmountBig.wf (AmountBig.add_Amount a x) /\ AmountBig.wf (AmountBig.add a b).
Proof.
  intros Ha Hb Hx. split; [| split; [| split]].
  - rewrite add_Amount_of_value by assumption. apply value_of_value.
  - rewrite add_of_value by assumption. apply value_of_value.
  - apply add_Amount_wf. exact Ha.
  - apply add_wf.
Qed.

(** X4. [AmountBig::operator -=] undoes [operator +=], for an [Amount] and
    for an [AmountBig], also when the addition wrapped around; and adding
    back what was subtracted restores the amount. *)
Theorem AmountBig_sub_undoes_add (a b : AmountBig.t) (x : Z) :
  AmountBig.wf a -> AmountBig.wf b -> 0 <= x < 2 ^ 64 ->
  AmountBig.sub_Amount (AmountBig.add_Amount a x) x = a /\
  AmountBig.sub (AmountBig.add a b) b = a /\
  AmountBig.add (AmountBig.sub a b) b = a.
Proof.
  intros Ha Hb Hx. repeat split.
  - rewrite sub_Amount_of_value by (try apply add_Amount_wf; assumption).
    rewrite add_Amount_of_value by assumption.
    rewrite of_value_sub_mod.
    replace (AmountBig.value a + x - x) with (AmountBig.value a) by lia.
    apply of_value_value, Ha.
  - rewrite sub_of_value by (try apply add_wf; assumption).
    rewrite add_of_value by assumption.
    rewrite of_value_sub_mod.
    replace (AmountBig.value a + AmountBig.value b - AmountBig.value b)
      with (AmountBig.value a) by lia.
    apply of_value_value, Ha.
  - rewrite sub_of_value by assumption.
    rewrite add_of_value by (try apply of_value_wf; assumption).
    rewrite of_value_add_mod.
    replace (AmountBig.value a - AmountBig.value b + AmountBig.value b)
      with (AmountBig.value a) by lia.
    apply of_value_value, Ha.
Qed.

End AmountBigRoundTrip.

Lemma AmountBig_add_value_witness :
  AmountBig.value (AmountBig.add_Amount (AmountBig.Build (2 ^ 64 - 1) 7) 5)
  = (AmountBig.value (AmountBig.Build (2 ^ 64 - 1) 7) + 5) mod 2 ^ 128 /\
  AmountBig.value (AmountBig.add (AmountBig.Build (2 ^ 64 - 1) 7)
                                 (AmountBig.Build 3 (2 ^ 64 - 1)))
  = (AmountBig.value (AmountBig.Build (2 ^ 64 - 1) 7)
     + AmountBig.value (AmountBig.Build 3 (2 ^ 64 - 1))) mod 2 ^ 128 /\
  AmountBig.wf (AmountBig.add_Amount (AmountBig.Build (2 ^ 64 - 1) 7) 5) /\
  AmountBig.wf (AmountBig.add (AmountBig.Build (2 ^ 64 - 1) 7)
                              (AmountBig.Build 3 (2 ^ 64 - 1))).
Proof.
  apply (AmountBig_add_value (AmountBig.Build (2 ^ 64 - 1) 7)
           (AmountBig.Build 3 (2 ^ 64 - 1)) 5);
    unfold AmountBig.wf; cbn; lia.
Defined.

Lemma AmountBig_sub_undoes_add_witness :
  AmountBig.sub_Amount (AmountBig.add_Amount (AmountBig.Build (2 ^ 64 - 1) 7) 5) 5
  = AmountBig.Build (2 ^ 64 - 1) 7 /\
  AmountBig.sub (AmountBig.add (AmountBig.Build (2 ^ 64 - 1) 7)
                               (AmountBig.Build 3 (2 ^ 64 - 1)))
                (AmountBig.Build 3 (2 ^ 64 - 1))
  = AmountBig.Build (2 ^ 64 - 1) 7 /\
  AmountBig.add (AmountBig.sub (AmountBig.Build (2 ^ 64 - 1) 7)
                               (AmountBig.Build 3 (2 ^ 64 - 1)))
                (AmountBig.Build 3 (2 ^ 64 - 1))
  = AmountBig.Build (2 ^ 64 - 1) 7.
Proof.
  apply (AmountBig_sub_undoes_add (AmountBig.Build (2 ^ 64 - 1) 7)
           (AmountBig.Build 3 (2 ^ 64 - 1)) 5);
    unfold AmountBig.wf; cbn; lia.
Defined.

(** ** The packed difficulty and its raw value *)

Section DifficultyRaw.
Context {DC : DifficultyConsts}.

Lemma Unpack_parts (p : Z) :
  DifficultyConsts_wf DC -> 0 <= p ->
  Difficulty.Unpack p
  = (p / 2 ^ s_MantissaBits, 2 ^ s_MantissaBits + p mod 2 ^ s_MantissaBits).
Proof.
  intros (Hmb & Hmo & Hinf) Hp.
  set (n := s_MantissaBits) in *.
  assert (Hpow : 0 < 2 ^ n) by (apply Z.pow_pos_nonneg; lia).
  assert (Hp32 : 2 ^ n < 2 ^ 32) by (apply Z.pow_lt_mono_r; lia).
  assert (Hlead : u32 (Z.shiftl 1 n) = 2 ^ n).
  { unfold u32. rewrite Z.shiftl_mul_pow2, Z.mul_1_l by lia.
    apply Z.mod_small; lia. }
  assert (Hmask : u32 (2 ^ n - 1) = Z.ones n).
  { unfold u32. rewrite Z.ones_equiv, Z.mod_small; lia. }
  unfold Difficulty.Unpack. fold n.
  rewrite Hlead, Hmask, Z.land_ones, Z.shiftr_div_pow2 by lia.
  f_equal.
  replace (Z.lor (2 ^ n) (p mod 2 ^ n)) with (Z.lor (p mod 2 ^ n) (1 * 2 ^ n))
    by (rewrite Z.mul_1_l; apply Z.lor_comm).
  rewrite lor_low_high; [lia | lia | apply Z.mod_pos_bound; lia | lia].
Qed.

Lemma UnpackRaw_parts (p : Z) :
  DifficultyConsts_wf DC -> Difficulty.consts_fit ->
  0 <= p < s_Inf ->
  Difficulty.UnpackRaw p
  = (2 ^ s_MantissaBits + p mod 2 ^ s_MantissaBits) * 2 ^ (p / 2 ^ s_MantissaBits)
  /\ p / 2 ^ s_MantissaBits <= s_MaxOrder.
Proof.
  intros Hwf (Hmb & Hmo & Hfit & Hinf) Hp.
  set (n := s_MantissaBits) in *.
  assert (Hpow : 0 < 2 ^ n) by (apply Z.pow_pos_nonneg; lia).
  assert (Hord : 0 <= p / 2 ^ n <= s_MaxOrder).
  { split; [apply Z.div_pos; lia |].
    apply Z.lt_succ_r. apply Z.div_lt_upper_bound; lia. }
  split; [| apply Hord].
  unfold Difficulty.UnpackRaw.
  destruct (Z.ltb_spec p s_Inf); [| lia].
  rewrite Unpack_parts by (assumption || lia). fold n.
  unfold uintBig.AssignSafe, uintBig.norm, uintBig.modulus.
  rewrite Z.shiftl_mul_pow2 by lia.
  apply Z.mod_small.
  pose proof (Z.mod_pos_bound p (2 ^ n) Hpow) as Hm.
  split; [apply Z.mul_nonneg_nonneg; [lia | apply Z.pow_nonneg; lia] |].
  apply Z.lt_le_trans with (2 ^ (n + 1) * 2 ^ (p / 2 ^ n)).
  - apply Z.mul_lt_mono_pos_r; [apply Z.pow_pos_nonneg; lia |].
    rewrite Z.pow_add_r by lia. change (2 ^ 1) with 2. lia.
  - rewrite <- Z.pow_add_r by lia. apply Z.pow_le_mono_r; [lia |].
    unfold uintBig.nBits in *. lia.
Qed.

Lemma UnpackRaw_Inf (p : Z) :
  s_Inf <= p -> Difficulty.UnpackRaw p = 2 ^ 256 - 1.
Proof.
  intros Hp. unfold Difficulty.UnpackRaw.
  destruct (Z.ltb_spec p s_Inf); [lia | reflexivity].
Qed.

Lemma UnpackRaw_lt (p1 p2 : Z) :
  DifficultyConsts_wf DC -> Difficulty.consts_fit ->
  0 <= p1 -> p1 < p2 -> p1 < s_Inf ->
  2 ^ s_MantissaBits <= Difficulty.UnpackRaw p1 /\
  Difficulty.UnpackRaw p1 < Difficulty.UnpackRaw p2.
Proof.
  intros Hwf Hfit H0 Hlt Hinf.
  destruct (UnpackRaw_parts p1 Hwf Hfit (conj H0 Hinf)) as [E1 Ho1].
  pose proof Hwf as (Hmb & Hmo & _).
  pose proof Hfit as (_ & _ & Hbits & HInf).
  set (n := s_MantissaBits) in *.
  assert (Hpow : 0 < 2 ^ n) by (apply Z.pow_pos_nonneg; lia).
  pose proof (Z.mod_pos_bound p1 (2 ^ n) Hpow) as Hm1.
  assert (Hq1 : 0 <= p1 / 2 ^ n) by (apply Z.div_pos; lia).
  assert (Hpo1 : 1 <= 2 ^ (p1 / 2 ^ n)) by (apply (Z.pow_le_mono_r 2 0); lia).
  split; [rewrite E1; fold n; nia |].
  destruct (Z_lt_ge_dec p2 s_Inf) as [Hlt2 | Hge2].
  - assert (H02 : 0 <= p2) by lia.
    destruct (UnpackRaw_parts p2 Hwf Hfit (conj H02 Hlt2)) as [E2 Ho2].
    rewrite E1, E2. fold n.
    pose proof (Z.mod_pos_bound p2 (2 ^ n) Hpow) as Hm2.
    assert (Hq : p1 / 2 ^ n <= p2 / 2 ^ n) by (apply Z.div_le_mono; lia).
    destruct (Z.eq_dec (p1 / 2 ^ n) (p2 / 2 ^ n)) as [Heq | Hne].
    + rewrite <- Heq. apply Z.mul_lt_mono_pos_r; [lia |].
      pose proof (Z.div_mod p1 (2 ^ n) ltac:(lia)) as D1.
      pose proof (Z.div_mod p2 (2 ^ n) ltac:(lia)) as D2.
      rewrite <- Heq in D2. lia.
    + assert (Hstep : 2 * 2 ^ (p1 / 2 ^ n) <= 2 ^ (p2 / 2 ^ n)).
      { rewrite <- (Z.pow_succ_r 2) by lia. apply Z.pow_le_mono_r; lia. }
      nia.
  - rewrite (UnpackRaw_Inf p2) by lia. rewrite E1. fold n.
    apply Z.lt_le_trans with (2 ^ (n + 1) * 2 ^ (p1 / 2 ^ n) - 2 ^ (p1 / 2 ^ n) + 1).
    + rewrite Z.pow_add_r by lia. change (2 ^ 1) with 2. nia.
    + rewrite <- Z.pow_add_r by lia.
      destruct (Z.eq_dec (p1 / 2 ^ n) 0) as [Hz | Hnz].
      * rewrite Hz, Z.add_0_r. change (2 ^ 0) with 1.
        assert (2 ^ (n + 1) <= 2 ^ 32) by (apply Z.pow_le_mono_r; lia).
        assert (2 ^ 32 < 2 ^ 256) by (apply Z.pow_lt_mono_r; lia). lia.
      * assert (2 ^ (n + 1 + p1 / 2 ^ n) <= 2 ^ 256)
          by (apply Z.pow_le_mono_r; unfold uintBig.nBits in *; lia).
        assert (2 <= 2 ^ (p1 / 2 ^ n)) by (apply (Z.pow_le_mono_r 2 1); lia).
        lia.
Qed.

(** X6. [Difficulty::Unpack(Raw&)].  The raw value grows with the packed
    value: it is at least [2^s_MantissaBits], never smaller for a larger
    packed value, and strictly larger below [s_Inf]; every packed value
    from [s_Inf] on unpacks to the all-ones value, above all others. *)
Theorem UnpackRaw_monotone (p1 p2 : Z) :
  DifficultyConsts_wf DC -> Difficulty.consts_fit ->
  0 <= p1 -> p1 <= p2 ->
  2 ^ s_MantissaBits <= Difficulty.UnpackRaw p1 /\
  Difficulty.UnpackRaw p1 <= Difficulty.UnpackRaw p2 /\
  (p1 < p2 -> p1 < s_Inf -> Difficulty.UnpackRaw p1 < Difficulty.UnpackRaw p2).
Proof.
  intros Hwf Hfit H0 Hle.
  assert (Hinf : forall p, s_Inf <= p -> Difficulty.UnpackRaw p = 2 ^ 256 - 1)
    by exact UnpackRaw_Inf.
  assert (Hmb : 2 ^ s_MantissaBits <= 2 ^ 256 - 1).
  { destruct Hwf as (Hmb & _).
    assert (2 ^ s_MantissaBits <= 2 ^ 32) by (apply Z.pow_le_mono_r; lia).
    assert (2 ^ 32 < 2 ^ 256) by (apply Z.pow_lt_mono_r; lia). lia. }
  destruct (Z_lt_ge_dec p1 s_Inf) as [Hlt1 | Hge1].
  - destruct (Z.eq_dec p1 p2) as [<- | Hne].
    + destruct (UnpackRaw_lt p1 (p1 + 1) Hwf Hfit H0 ltac:(lia) Hlt1) as [Hlow _].
      repeat split; [exact Hlow | lia | lia].
    + destruct (UnpackRaw_lt p1 p2 Hwf Hfit H0 ltac:(lia) Hlt1) as [Hlow Hlt].
      repeat split; [exact Hlow | lia | intros; exact Hlt].
  - rewrite (Hinf p1), (Hinf p2) by lia.
    repeat split; [exact Hmb | lia | lia].
Qed.

Lemma Pack_parts (p : Z) :
  DifficultyConsts_wf DC ->
  0 <= p < (s_MaxOrder + 1) * 2 ^ s_MantissaBits ->
  Difficulty.Pack (p / 2 ^ s_MantissaBits)
                  (2 ^ s_MantissaBits + p mod 2 ^ s_MantissaBits) = p.
Proof.
  intros Hwf Hp. pose proof Hwf as (Hmb & Hmo & Hinf).
  set (n := s_MantissaBits) in *.
  assert (Hpow : 0 < 2 ^ n) by (apply Z.pow_pos_nonneg; lia).
  assert (Hp32 : 2 ^ n < 2 ^ 32) by (apply Z.pow_lt_mono_r; lia).
  assert (Hord : 0 <= p / 2 ^ n <= s_MaxOrder).
  { split; [apply Z.div_pos; lia |].
    apply Z.lt_succ_r. apply Z.div_lt_upper_bound; lia. }
  pose proof (Z.mod_pos_bound p (2 ^ n) Hpow) as Hm.
  assert (Hlead : u32 (Z.shiftl 1 n) = 2 ^ n).
  { unfold u32. rewrite Z.shiftl_mul_pow2, Z.mul_1_l by lia.
    apply Z.mod_small; lia. }
  assert (Hmask : u32 (2 ^ n - 1) = Z.ones n).
  { unfold u32. rewrite Z.ones_equiv, Z.mod_small; lia. }
  assert (Hsh : u32 (Z.shiftl (p / 2 ^ n) n) = p / 2 ^ n * 2 ^ n).
  { unfold u32. rewrite Z.shiftl_mul_pow2 by lia. apply Z.mod_small. nia. }
  unfold Difficulty.Pack. fold n.
  destruct (Z.leb_spec (p / 2 ^ n) s_MaxOrder); [| lia].
  rewrite Hlead, Hmask, Hsh, Z.land_ones by lia.
  replace (2 ^ n + p mod 2 ^ n) with (p mod 2 ^ n + 1 * 2 ^ n) by lia.
  rewrite Z.mod_add by lia. rewrite Z.mod_mod by lia.
  rewrite lor_low_high by lia.
  pose proof (Z.div_mod p (2 ^ n) ltac:(lia)). lia.
Qed.

(** X7. [Difficulty::Inc] and [Difficulty::Dec].  [Dec] takes away what
    [Inc] adds and the other way round, modulo [2^256], whatever the packed
    difficulty; the one-argument [Inc] adds the same raw value. *)
Theorem Dec_Inc (p base : Z) :
  0 <= base < 2 ^ 256 ->
  Difficulty.Dec p (Difficulty.Inc p base) = base /\
  Difficulty.Inc p (Difficulty.Dec p base) = base /\
  Difficulty.Inc_acc p base = Difficulty.Inc p base.
Proof.
  intros Hb. unfold Difficulty.Dec, Difficulty.Inc, Difficulty.Inc_acc.
  set (raw := Difficulty.UnpackRaw p).
  unfold uintBig.add, uintBig.Negate, uintBig.norm, uintBig.modulus, uintBig.nBits.
  repeat split.
  - rewrite Z.add_mod_idemp_l, Z.add_mod_idemp_r by lia.
    replace (- raw + (raw + base)) with base by lia. apply Z.mod_small. exact Hb.
  - rewrite Z.add_mod_idemp_l, Z.add_mod_idemp_r by lia.
    replace (raw + (- raw + base)) with base by lia. apply Z.mod_small. exact Hb.
  - f_equal. lia.
Qed.

(** X5. [Difficulty::Pack] after [Difficulty::Unpack].  A packed value
    whose order is at most [s_MaxOrder] unpacks to an order in range and a
    mantissa with its leading bit set, and packing them gives the packed
    value back. *)
Theorem Pack_Unpack (p : Z) :
  DifficultyConsts_wf DC ->
  0 <= p < (s_MaxOrder + 1) * 2 ^ s_MantissaBits ->
  Difficulty.Pack (fst (Difficulty.Unpack p)) (snd (Difficulty.Unpack p)) = p /\
  0 <= fst (Difficulty.Unpack p) <= s_MaxOrder /\
  2 ^ s_MantissaBits <= snd (Difficulty.Unpack p) < 2 ^ (s_MantissaBits + 1).
Proof.
  intros Hwf Hp. pose proof Hwf as (Hmb & Hmo & Hinf).
  rewrite Unpack_parts by (assumption || lia). cbn [fst snd].
  assert (Hpow : 0 < 2 ^ s_MantissaBits) by (apply Z.pow_pos_nonneg; lia).
  pose proof (Z.mod_pos_bound p (2 ^ s_MantissaBits) Hpow) as Hm.
  split; [apply Pack_parts; assumption |]. split.
  - split; [apply Z.div_pos; lia |].
    apply Z.lt_succ_r. apply Z.div_lt_upper_bound; lia.
  - rewrite Z.pow_add_r by lia. change (2 ^ 1) with 2. lia.
Qed.

End DifficultyRaw.

Lemma Toy_difficulty_wf : DifficultyConsts_wf Toy.difficulty.
Proof. unfold DifficultyConsts_wf. cbn. lia. Qed.

Lemma Toy_difficulty_fit : @Difficulty.consts_fit Toy.difficulty.
Proof. unfold Difficulty.consts_fit, uintBig.nBits. cbn. lia. Qed.

Lemma Pack_Unpack_witness :
  @Difficulty.Pack Toy.difficulty
    (fst (@Difficulty.Unpack Toy.difficulty (100 * 2 ^ 24 + 5)))
    (snd (@Difficulty.Unpack Toy.difficulty (100 * 2 ^ 24 + 5)))
  = 100 * 2 ^ 24 + 5 /\
  0 <= fst (@Difficulty.Unpack Toy.difficulty (100 * 2 ^ 24 + 5))
    <= @s_MaxOrder Toy.difficulty /\
  2 ^ @s_MantissaBits Toy.difficulty
  <= snd (@Difficulty.Unpack Toy.difficulty (100 * 2 ^ 24 + 5))
  < 2 ^ (@s_MantissaBits Toy.difficulty + 1).
Proof.
  apply (@Pack_Unpack Toy.difficulty (100 * 2 ^ 24 + 5)).
  - exact Toy_difficulty_wf.
  - cbn. lia.
Defined.

Lemma UnpackRaw_monotone_witness :
  2 ^ @s_MantissaBits Toy.difficulty <= @Difficulty.UnpackRaw Toy.difficulty 5 /\
  @Difficulty.UnpackRaw Toy.difficulty 5
  <= @Difficulty.UnpackRaw Toy.difficulty (2 ^ 24) /\
  (5 < 2 ^ 24 -> 5 < @s_Inf Toy.difficulty ->
   @Difficulty.UnpackRaw Toy.difficulty 5
   < @Difficulty.UnpackRaw Toy.difficulty (2 ^ 24)).
Proof.
  apply (@UnpackRaw_monotone Toy.difficulty 5 (2 ^ 24)).
  - exact Toy_difficulty_wf.
  - exact Toy_difficulty_fit.
  - lia.
  - lia.
Defined.

Lemma Dec_Inc_witness :
  @Difficulty.Dec Toy.difficulty 7 (@Difficulty.Inc Toy.difficulty 7 (2 ^ 256 - 1))
  = 2 ^ 256 - 1 /\
  @Difficulty.Inc Toy.difficulty 7 (@Difficulty.Dec Toy.difficulty 7 (2 ^ 256 - 1))
  = 2 ^ 256 - 1 /\
  @Difficulty.Inc_acc Toy.difficulty 7 (2 ^ 256 - 1)
  = @Difficulty.Inc Toy.difficulty 7 (2 ^ 256 - 1).
Proof.
  apply (@Dec_Inc Toy.difficulty 7 (2 ^ 256 - 1)). lia.
Defined.

Lemma forallb_rev_eq {A : Type} (f : A -> bool) (l : list A) :
  forallb f (rev l) = forallb f l.
Proof.
  induction l as [| x l IH]; [reflexivity |].
  cbn [rev forallb]. rewrite forallb_app, IH. cbn [forallb].
  rewrite andb_true_r. apply andb_comm.
Qed.

Lemma skipn_to_bytes_rev (m k : nat) (a : Z) :
  skipn m (uintBig.to_bytes_rev (m + k) a)
  = uintBig.to_bytes_rev k (a / 256 ^ Z.of_nat m).
Proof.
  revert a. induction m as [| m IH]; intros a.
  - cbn [skipn Nat.add]. change (256 ^ Z.of_nat 0) with 1. rewrite Z.div_1_r. reflexivity.
  - cbn [Nat.add uintBig.to_bytes_rev skipn]. rewrite IH.
    rewrite Nat2Z.inj_succ, Z.pow_succ_r by lia.
    rewrite Z.div_div by (try apply Z.pow_pos_nonneg; lia). reflexivity.
Qed.

Lemma zero_digits (k : nat) (y : Z) :
  forallb (fun x => x =? 0) (uintBig.to_bytes_rev k y)
  = (y mod 256 ^ Z.of_nat k =? 0).
Proof.
  revert y. induction k as [| k IH]; intros y.
  - cbn [uintBig.to_bytes_rev forallb]. change (256 ^ Z.of_nat 0) with 1.
    rewrite Z.mod_1_r. reflexivity.
  - cbn [uintBig.to_bytes_rev forallb]. rewrite IH.
    rewrite Nat2Z.inj_succ, Z.pow_succ_r by lia.
    assert (Hp : 0 < 256 ^ Z.of_nat k) by (apply Z.pow_pos_nonneg; lia).
    rewrite (Z.rem_mul_r y 256 (256 ^ Z.of_nat k)) by lia.
    pose proof (Z.mod_pos_bound y 256 ltac:(lia)).
    pose proof (Z.mod_pos_bound (y / 256) (256 ^ Z.of_nat k) Hp).
    destruct (Z.eqb_spec (y mod 256) 0); destruct (Z.eqb_spec ((y / 256) mod 256 ^ Z.of_nat k) 0);
      cbn [andb]; symmetry; (apply Z.eqb_eq || apply Z.eqb_neq); nia.
Qed.

(** The first [k] of the [n] big-endian bytes of [a] are zero exactly when
    [a] fits the other [n - k] bytes. *)
Lemma memis0_spec (n k : nat) (a : Z) :
  (k <= n)%nat -> 0 <= a < 256 ^ Z.of_nat n ->
  Difficulty.memis0 (rev (uintBig.to_bytes_rev n a)) k
  = (a <? 256 ^ Z.of_nat (n - k)).
Proof.
  intros Hk Ha. unfold Difficulty.memis0.
  rewrite firstn_rev, forallb_rev_eq, to_bytes_rev_length.
  replace n with ((n - k) + k)%nat at 2 by lia.
  rewrite skipn_to_bytes_rev, zero_digits.
  assert (Hp : 0 < 256 ^ Z.of_nat (n - k)) by (apply Z.pow_pos_nonneg; lia).
  assert (Hsplit : 256 ^ Z.of_nat n = 256 ^ Z.of_nat (n - k) * 256 ^ Z.of_nat k).
  { rewrite <- Z.pow_add_r by lia. f_equal. lia. }
  assert (Hq : 0 <= a / 256 ^ Z.of_nat (n - k) < 256 ^ Z.of_nat k).
  { split; [apply Z.div_pos; lia |]. apply Z.div_lt_upper_bound; lia. }
  rewrite Z.mod_small by exact Hq.
  destruct (Z.ltb_spec a (256 ^ Z.of_nat (n - k))) as [Hlt | Hge].
  - apply Z.eqb_eq. apply Z.div_small. lia.
  - apply Z.eqb_neq. intros Hz.
    pose proof (Z.div_mod a (256 ^ Z.of_nat (n - k)) ltac:(lia)) as D.
    pose proof (Z.mod_pos_bound a (256 ^ Z.of_nat (n - k)) Hp).
    rewrite Hz in D. lia.
Qed.

(** ** The target test *)

Section TargetProps.
Context {DC : DifficultyConsts}.

Lemma UnpackRaw_range (p : Z) : 0 <= Difficulty.UnpackRaw p < 2 ^ 256.
Proof.
  unfold Difficulty.UnpackRaw. destruct (p <? s_Inf).
  - destruct (Difficulty.Unpack p) as [order mantissa].
    unfold uintBig.AssignSafe, uintBig.norm, uintBig.modulus, uintBig.nBits.
    apply Z.mod_pos_bound. lia.
  - unfold uintBig.Inv, uintBig.modulus, uintBig.nBits. lia.
Qed.

Lemma IsTargetReached_eq (p hv : Z) :
  0 <= s_MantissaBits <= 256 -> s_MantissaBits mod 8 = 0 ->
  0 <= hv < 2 ^ 256 ->
  Difficulty.IsTargetReached p hv
  = (p <=? s_Inf) && (hv * Difficulty.UnpackRaw p <? 2 ^ (256 + s_MantissaBits)).
Proof.
  intros Hmb Hal Hhv. unfold Difficulty.IsTargetReached.
  rewrite Z.gtb_ltb.
  destruct (Z.ltb_spec s_Inf p) as [Hinv | Hok];
    [destruct (Z.leb_spec p s_Inf); [lia | reflexivity] |].
  destruct (Z.leb_spec p s_Inf); [| lia]. cbn [andb].
  pose proof (UnpackRaw_range p) as Hraw.
  set (raw := Difficulty.UnpackRaw p) in *.
  assert (Hprod : 0 <= hv * raw < 2 ^ 512).
  { change (2 ^ 512) with (2 ^ 256 * 2 ^ 256). nia. }
  change (2 * uintBig.nBits) with 512.
  change (2 * uintBig.nBytes)%nat with 64%nat.
  rewrite (Z.mod_small (hv * raw)) by exact Hprod.
  rewrite Z.shiftr_div_pow2 by lia. change (2 ^ 3) with 8.
  assert (Hq : 0 <= s_MantissaBits / 8 <= 32).
  { split; [apply Z.div_pos; lia |]. apply Z.div_le_upper_bound; lia. }
  rewrite memis0_spec.
  - f_equal.
    replace (Z.of_nat (64 - (64 / 2 - Z.to_nat (s_MantissaBits / 8))))
      with (32 + s_MantissaBits / 8).
    + change 256 with (2 ^ 8) at 1. rewrite <- Z.pow_mul_r by lia.
      f_equal. pose proof (Z.div_mod s_MantissaBits 8 ltac:(lia)). lia.
    + change (64 / 2)%nat with 32%nat. lia.
  - change (64 / 2)%nat with 32%nat. lia.
  - change (256 ^ Z.of_nat 64) with (2 ^ 512). exact Hprod.
Qed.

(** X8. [Difficulty::IsTargetReached].  A packed value above [s_Inf] is
    refused; otherwise the target is reached exactly when the hash times the
    raw difficulty is below [2^(256 + s_MantissaBits)].  So a hash that
    reaches the target at some difficulty reaches it at every smaller
    difficulty, and so does every smaller hash. *)
Theorem IsTargetReached_threshold (p hv : Z) :
  DifficultyConsts_wf DC -> Difficulty.consts_fit ->
  s_MantissaBits mod 8 = 0 -> 0 <= hv < 2 ^ 256 ->
  Difficulty.IsTargetReached p hv
  = (p <=? s_Inf) && (hv * Difficulty.UnpackRaw p <? 2 ^ (256 + s_MantissaBits))
  /\
  (forall p' hv',
      0 <= p' <= p -> 0 <= hv' <= hv ->
      Difficulty.IsTargetReached p hv = true ->
      Difficulty.IsTargetReached p' hv' = true).
Proof.
  intros Hwf Hfit Hal Hhv.
  assert (Hmb : 0 <= s_MantissaBits <= 256) by (destruct Hwf as (? & _); lia).
  split; [apply IsTargetReached_eq; assumption |].
  intros p' hv' Hp' Hhv'.
  rewrite !IsTargetReached_eq by (assumption || lia).
  intros Hreach. apply andb_prop in Hreach. destruct Hreach as [Hp Hprod].
  apply Z.leb_le in Hp. apply Z.ltb_lt in Hprod.
  apply andb_true_intro. split; [apply Z.leb_le; lia |].
  apply Z.ltb_lt.
  assert (Hraw : Difficulty.UnpackRaw p' <= Difficulty.UnpackRaw p).
  { destruct (Z.eq_dec p' p) as [-> | Hne]; [lia |].
    destruct (UnpackRaw_lt p' p Hwf Hfit) as [_ Hlt]; lia. }
  pose proof (UnpackRaw_range p') as Hr'.
  apply Z.le_lt_trans with (hv * Difficulty.UnpackRaw p); [| exact Hprod].
  apply Z.mul_le_mono_nonneg; lia.
Qed.

End TargetProps.

Lemma IsTargetReached_threshold_witness :
  @Difficulty.IsTargetReached Toy.difficulty (3 * 2 ^ 24) (2 ^ 200)
  = (3 * 2 ^ 24 <=? @s_Inf Toy.difficulty)
    && (2 ^ 200 * @Difficulty.UnpackRaw Toy.difficulty (3 * 2 ^ 24)
        <? 2 ^ (256 + @s_MantissaBits Toy.difficulty))
  /\
  (forall p' hv',
      0 <= p' <= 3 * 2 ^ 24 -> 0 <= hv' <= 2 ^ 200 ->
      @Difficulty.IsTargetReached Toy.difficulty (3 * 2 ^ 24) (2 ^ 200) = true ->
      @Difficulty.IsTargetReached Toy.difficulty p' hv' = true).
Proof.
  apply (@IsTargetReached_threshold Toy.difficulty (3 * 2 ^ 24) (2 ^ 200)).
  - exact Toy_difficulty_wf.
  - exact Toy_difficulty_fit.
  - reflexivity.
  - lia.
Defined.

(** ** Retargeting *)

Section AdjustProps.
Context {DC : DifficultyConsts}.

(** What the rough loop hands to the division, when it breaks while
    increasing. *)
Lemma Adjust_loop_increase (n : nat) (trg : Z) :
  0 <= trg ->
  forall src order src' order',
    Difficulty.Adjust_loop n true src trg order = inr (src', order') ->
    src' <> 0.
Proof.
  intros Htrg. induction n as [| n IH]; intros src order src' order' H;
    cbn [Difficulty.Adjust_loop] in H; [discriminate |].
  destruct (Z.gtb_spec (u32 (Z.shiftl src 1)) trg) as [Hgt | Hle].
  - inversion H; subst. intros ->. cbn in Hgt. lia.
  - destruct (u32 (order + 1) >? s_MaxOrder); [discriminate |].
    exact (IH _ _ _ _ H).
Qed.

(** The same while decreasing: [src] stays at least [trg]. *)
Lemma Adjust_loop_decrease (n : nat) (trg : Z) :
  forall src order src' order',
    0 <= src -> trg <= src ->
    Difficulty.Adjust_loop n false src trg order = inr (src', order') ->
    src' <> 0.
Proof.
  induction n as [| n IH]; intros src order src' order' Hsrc Hle H;
    cbn [Difficulty.Adjust_loop] in H; [discriminate |].
  destruct (Z.ltb_spec (Z.shiftr src 1) trg) as [Hlt | Hge].
  - inversion H; subst.
    assert (0 <= Z.shiftr src' 1) by (apply Z.shiftr_nonneg; exact Hsrc). lia.
  - destruct (order =? 0); [discriminate |].
    apply (IH _ _ _ _ ltac:(apply Z.shiftr_nonneg; exact Hsrc) Hge H).
Qed.

(** X9. [Difficulty::Adjust], both overloads.  The division by [src] that
    follows the rough loop never divides by zero: when the loop breaks
    while increasing, the doubled [src] exceeds [trg]; while decreasing,
    [src] stays at least [trg], which exceeds the halved [src]. *)
Theorem Adjust_divisor_nonzero (m_Packed src trg nMaxOrderChange : Z) :
  0 <= src -> 0 <= trg ->
  (forall order mantissa,
      Difficulty.Adjust_parts src trg nMaxOrderChange order mantissa <> None) /\
  Difficulty.Adjust m_Packed src trg nMaxOrderChange <> None.
Proof.
  intros Hsrc Htrg.
  assert (Hparts : forall order mantissa,
             Difficulty.Adjust_parts src trg nMaxOrderChange order mantissa <> None).
  { intros order mantissa. unfold Difficulty.Adjust_parts.
    destruct (Difficulty.Adjust_loop _ _ src trg order) as [o | [src' o]] eqn:Hloop;
      [discriminate |].
    assert (Hnz : src' <> 0).
    { destruct (Z.ltb_spec src trg) as [Hlt | Hge].
      - exact (Adjust_loop_increase _ trg Htrg _ _ _ _ Hloop).
      - exact (Adjust_loop_decrease _ trg _ _ _ _ Hsrc Hge Hloop). }
    unfold Difficulty.Adjust_mantissa.
    destruct (Z.eqb_spec src' 0) as [Hz | _]; [contradiction |].
    destruct (src <? trg);
      [destruct (_ >? 1) | destruct (_ =? 0)]; discriminate. }
  split; [exact Hparts |].
  unfold Difficulty.Adjust.
  destruct (negb _); [discriminate |].
  destruct (Difficulty.Unpack m_Packed) as [order mantissa].
  specialize (Hparts order mantissa).
  destruct (Difficulty.Adjust_parts src trg nMaxOrderChange order mantissa)
    as [[o m] |]; [| contradiction].
  destruct (o <? 2 ^ 31); discriminate.
Qed.




End AdjustProps.

Lemma Adjust_divisor_nonzero_witness :
  (forall order mantissa,
      @Difficulty.Adjust_parts Toy.difficulty 0 600 3 order mantissa <> None) /\
  @Difficulty.Adjust Toy.difficulty (5 * 2 ^ 24) 0 600 3 <> None.
Proof.
  apply (@Adjust_divisor_nonzero Toy.difficulty (5 * 2 ^ 24) 0 600 3); lia.
Defined.


(** ** Comparisons and header links *)

(** The comparison macros: when the code after them is reached. *)
Lemma CMP_SIMPLE_zero (a b k : Z) : CMP_SIMPLE a b k = 0 <-> a = b /\ k = 0.
Proof.
  unfold CMP_SIMPLE.
  destruct (Z.ltb_spec a b); [split; [discriminate | lia] |].
  destruct (Z.gtb_spec a b); [split; [discriminate | lia] |].
  split; [intros ->; lia | intros [_ ->]; reflexivity].
Qed.

Lemma CMP_NONZERO_zero (n k : Z) : CMP_NONZERO n k = 0 <-> n = 0 /\ k = 0.
Proof.
  unfold CMP_NONZERO. destruct (Z.eqb_spec n 0) as [-> | Hn].
  - split; [intros ->; split; reflexivity | intros [_ ->]; reflexivity].
  - split; [intros H; contradiction | intros [H _]; contradiction].
Qed.

Lemma CMP_PTRS_zero {T : Type} (cmp : T -> T -> Z) (a b : option T) (k : Z) :
  CMP_PTRS cmp a b k = 0 <-> same_ptr cmp a b /\ k = 0.
Proof.
  unfold CMP_PTRS, same_ptr. destruct a as [x |], b as [y |].
  - apply CMP_NONZERO_zero.
  - split; [discriminate | intros [[] _]].
  - split; [discriminate | intros [[] _]].
  - split; [intros ->; split; [exact I | reflexivity] | intros [_ ->]; reflexivity].
Qed.

Section IdProps.
Context {P : Primitives} {CP : ChainPrimitives}.

(** [Block::SystemState::ID::cmp] is zero on equal identifiers only, is
    antisymmetric, and orders by height first. *)
Lemma ID_cmp_order (a b : SystemState.ID) :
  (SystemState.ID_cmp a b = 0 <-> a = b) /\
  SystemState.ID_cmp b a = - SystemState.ID_cmp a b /\
  (SystemState.id_Height a < SystemState.id_Height b ->
   SystemState.ID_cmp a b = -1).
Proof.
  destruct a as [ha xa], b as [hb xb]. unfold SystemState.ID_cmp.
  cbn [SystemState.id_Height SystemState.id_Hash]. repeat split.
  - intros H. apply CMP_SIMPLE_zero in H. destruct H as [-> H].
    apply CMP_SIMPLE_zero in H. destruct H as [-> _]. reflexivity.
  - intros H. inversion H; subst. apply CMP_SIMPLE_zero. split; [reflexivity |].
    apply CMP_SIMPLE_zero. split; reflexivity.
  - unfold CMP_SIMPLE.
    destruct (Z.ltb_spec ha hb); destruct (Z.gtb_spec ha hb);
      destruct (Z.ltb_spec hb ha); destruct (Z.gtb_spec hb ha); try lia;
      destruct (Z.ltb_spec xa xb); destruct (Z.gtb_spec xa xb);
      destruct (Z.ltb_spec xb xa); destruct (Z.gtb_spec xb xa); lia.
  - intros Hlt. unfold CMP_SIMPLE. destruct (Z.ltb_spec ha hb); [reflexivity | lia].
Qed.

(** X11. [Block::SystemState::Full::NextPrefix].  The next prefix points
    back at the header it was made from: its [m_Prev] is that header's hash
    and its chain-work is unchanged.  Its height is one more, wrapping to 0
    from [MaxHeight]; it is sane unless the height wrapped, or the header
    had height 0 and a hash that is not zero. *)
Theorem NextPrefix_links (s : SystemState.Full) :
  0 <= SystemState.m_Height s < 2 ^ 64 ->
  SystemState.m_Prev (SystemState.NextPrefix s) = SystemState.get_Hash s /\
  SystemState.m_ChainWork (SystemState.NextPrefix s) = SystemState.m_ChainWork s /\
  SystemState.m_Height (SystemState.NextPrefix s)
  = (if SystemState.m_Height s =? MaxHeight then 0
     else SystemState.m_Height s + 1) /\
  SystemState.IsSane (SystemState.NextPrefix s)
  = (if SystemState.m_Height s =? MaxHeight then false
     else if SystemState.m_Height s =? 0 then SystemState.get_Hash s =? 0
     else true).
Proof.
  intros Hh. unfold SystemState.NextPrefix, SystemState.IsSane, MaxHeight, HeightGenesis, u64.
  cbn [SystemState.m_Prev SystemState.m_ChainWork SystemState.m_Height].
  repeat split.
  - destruct (Z.eqb_spec (SystemState.m_Height s) (2 ^ 64 - 1)) as [-> | Hne].
    + reflexivity.
    + apply Z.mod_small. lia.
  - destruct (Z.eqb_spec (SystemState.m_Height s) (2 ^ 64 - 1)) as [-> | Hne].
    + reflexivity.
    + rewrite Z.mod_small by lia.
      destruct (Z.ltb_spec (SystemState.m_Height s + 1) 1); [lia |].
      destruct (Z.eqb_spec (SystemState.m_Height s) 0) as [-> | Hnz].
      * cbn [Z.add Z.eqb andb Pos.eqb]. destruct (SystemState.get_Hash s =? 0); reflexivity.
      * destruct (Z.eqb_spec (SystemState.m_Height s + 1) 1); [lia | reflexivity].
Qed.

End IdProps.

Section VectorCmp.
Context {P : Primitives}.

Lemma CmpPtrVectors_loop_zero {T : Type} (cmp : T -> T -> Z) (a : list (option T)) :
  forall b, length a = length b ->
    (Transaction.CmpPtrVectors_loop cmp a b = 0 <-> Forall2 (same_ptr cmp) a b).
Proof.
  induction a as [| x a IH]; intros [| y b] Hlen; try discriminate.
  - split; [constructor | reflexivity].
  - cbn [Transaction.CmpPtrVectors_loop]. rewrite CMP_PTRS_zero.
    injection Hlen as Hlen. rewrite (IH b Hlen). split.
    + intros [Hx Hr]. constructor; assumption.
    + intros H. inversion H; subst. split; assumption.
Qed.

(** X12. [CmpPtrVectors].  Vectors are compared by size first: the shorter
    one is the smaller whatever the two hold.  The result is zero exactly
    when the sizes agree and, position by position, both pointers are null
    or point to items that compare equal. *)
Theorem CmpPtrVectors_sizes_first {T : Type} (cmp : T -> T -> Z)
    (a b : list (option T)) :
  ((length a < length b)%nat -> Transaction.CmpPtrVectors cmp a b = -1) /\
  ((length b < length a)%nat -> Transaction.CmpPtrVectors cmp a b = 1) /\
  (Transaction.CmpPtrVectors cmp a b = 0 <-> Forall2 (same_ptr cmp) a b).
Proof.
  unfold Transaction.CmpPtrVectors, CMP_SIMPLE. repeat split.
  - intros Hlt. destruct (Z.ltb_spec (Z.of_nat (length a)) (Z.of_nat (length b)));
      [reflexivity | lia].
  - intros Hlt. destruct (Z.ltb_spec (Z.of_nat (length a)) (Z.of_nat (length b)));
      [lia |].
    destruct (Z.gtb_spec (Z.of_nat (length a)) (Z.of_nat (length b))); [reflexivity | lia].
  - destruct (Z.ltb_spec (Z.of_nat (length a)) (Z.of_nat (length b)));
      [discriminate |].
    destruct (Z.gtb_spec (Z.of_nat (length a)) (Z.of_nat (length b)));
      [discriminate |].
    apply CmpPtrVectors_loop_zero. lia.
  - intros H. pose proof (Forall2_length H) as Hlen.
    destruct (Z.ltb_spec (Z.of_nat (length a)) (Z.of_nat (length b))); [lia |].
    destruct (Z.gtb_spec (Z.of_nat (length a)) (Z.of_nat (length b))); [lia |].
    apply CmpPtrVectors_loop_zero; assumption.
Qed.

(** [Output::cmp] is zero exactly when the commitments compare equal, the
    maturities, coinbase flags and incubations agree, and each proof is
    absent on both sides or present and equal on both. *)
Lemma Output_cmp_zero (a v : Output.t) :
  Output.cmp a v = 0 <->
  Point_cmp (Output.m_Commitment a) (Output.m_Commitment v) = 0 /\
  Output.m_Maturity a = Output.m_Maturity v /\
  Output.m_Coinbase a = Output.m_Coinbase v /\
  Output.m_Incubation a = Output.m_Incubation v /\
  same_ptr Confidential_cmp (Output.m_pConfidential a) (Output.m_pConfidential v) /\
  same_ptr Public_cmp (Output.m_pPublic a) (Output.m_pPublic v).
Proof.
  unfold Output.cmp, Input.cmp_CaM, Output.m_Commitment, Output.m_Maturity.
  rewrite !CMP_NONZERO_zero, !CMP_SIMPLE_zero, !CMP_PTRS_zero.
  assert (Hb : Z.b2z (Output.m_Coinbase a) = Z.b2z (Output.m_Coinbase v)
               <-> Output.m_Coinbase a = Output.m_Coinbase v).
  { destruct (Output.m_Coinbase a), (Output.m_Coinbase v); cbn;
      split; intros H; (reflexivity || discriminate). }
  rewrite Hb. tauto.
Qed.

End VectorCmp.

Lemma NextPrefix_links_witness :
  SystemState.m_Prev (SystemState.NextPrefix (P := Toy.primitives) Toy.state1)
  = SystemState.get_Hash (P := Toy.primitives) Toy.state1 /\
  SystemState.m_ChainWork (SystemState.NextPrefix (P := Toy.primitives) Toy.state1)
  = SystemState.m_ChainWork Toy.state1 /\
  SystemState.m_Height (SystemState.NextPrefix (P := Toy.primitives) Toy.state1)
  = (if SystemState.m_Height Toy.state1 =? MaxHeight then 0
     else SystemState.m_Height Toy.state1 + 1) /\
  SystemState.IsSane (SystemState.NextPrefix (P := Toy.primitives) Toy.state1)
  = (if SystemState.m_Height Toy.state1 =? MaxHeight then false
     else if SystemState.m_Height Toy.state1 =? 0
          then SystemState.get_Hash (P := Toy.primitives) Toy.state1 =? 0
          else true).
Proof.
  apply (NextPrefix_links (P := Toy.primitives) Toy.state1). cbn. lia.
Defined.

(** ** Merkle proofs of kernels and of inputs *)

Lemma last_two {A : Type} (l : list A) :
  (2 <= length l)%nat -> exists body x y, l = body ++ [x; y].
Proof.
  intros Hlen.
  destruct (exists_last (l := l)) as (l1 & y & ->); [intros ->; cbn in Hlen; lia |].
  rewrite length_app in Hlen. cbn [length] in Hlen.
  destruct (exists_last (l := l1)) as (body & x & ->); [intros ->; cbn in Hlen; lia |].
  exists body, x, y. rewrite <- app_assoc. reflexivity.
Qed.

Section MerkleProofProps.
Context {P : Primitives}.

Lemma tail_ok_spec (b : bool) (proof : list Merkle.Node) :
  Element.tail_ok b proof = true <->
  exists body h1 h2, proof = body ++ [(b, h1); (false, h2)].
Proof.
  unfold Element.tail_ok. split.
  - destruct (Nat.ltb_spec (length proof) 2) as [Hlt | Hge]; [discriminate |].
    destruct (last_two proof Hge) as (body & [b1 h1] & [b2 h2] & ->).
    rewrite length_app. cbn [length].
    replace (length body + 2 - 1)%nat with (length body + 1)%nat by lia.
    replace (length body + 2 - 2)%nat with (length body + 0)%nat by lia.
    rewrite !app_nth2_plus. cbn [nth fst].
    destruct b2; [discriminate |]. intros H. apply eqb_prop in H. subst b1.
    exists body, h1, h2. reflexivity.
  - intros (body & h1 & h2 & ->).
    rewrite length_app. cbn [length].
    destruct (Nat.ltb_spec (length body + 2) 2) as [Hlt | Hge]; [lia |].
    replace (length body + 2 - 1)%nat with (length body + 1)%nat by lia.
    replace (length body + 2 - 2)%nat with (length body + 0)%nat by lia.
    rewrite !app_nth2_plus. cbn [nth fst]. apply eqb_reflx.
Qed.

Lemma app_two_inj {A : Type} (l l' : list A) (x y x' y' : A) :
  l ++ [x; y] = l' ++ [x'; y'] -> l = l' /\ x = x' /\ y = y'.
Proof.
  intros H.
  change (l ++ [x; y]) with (l ++ [x] ++ [y]) in H.
  change (l' ++ [x'; y']) with (l' ++ [x'] ++ [y']) in H.
  rewrite !app_assoc in H. apply app_inj_tail in H. destruct H as [H ->].
  apply app_inj_tail in H. destruct H as [-> ->]. repeat split.
Qed.

Lemma Interpret_proof_two (hv : Z) (body : list Merkle.Node) (b : bool) (h1 h2 : Z) :
  Merkle.Interpret_proof hv (body ++ [(b, h1); (false, h2)])
  = Merkle.Interpret h2
      (Merkle.Interpret_side (Merkle.Interpret_proof hv body) h1 b).
Proof.
  unfold Merkle.Interpret_proof. rewrite fold_left_app. reflexivity.
Qed.


Section Utxo.
Variable State : Type.
Variable State_get_ID : State -> Input.t -> Z.

(** [Element::IsValidProofUtxo] refuses a proof of fewer than two nodes and
    accepts exactly the proofs whose last node goes on the left, the one
    before on the right, and that fold to [m_Definition]. *)
Lemma IsValidProofUtxo_accepts (m_Definition : Z) (inp : Input.t)
    (p : Element.Proof State) :
  ((length (Element.m_Proof State p) < 2)%nat ->
   Element.IsValidProofUtxo State State_get_ID m_Definition inp p = false) /\
  (Element.IsValidProofUtxo State State_get_ID m_Definition inp p = true <->
   exists body h1 h2,
     Element.m_Proof State p = body ++ [(true, h1); (false, h2)] /\
     Merkle.Interpret h2
       (Merkle.Interpret
          (Merkle.Interpret_proof
             (State_get_ID (Element.m_State State p) inp) body) h1)
     = m_Definition).
Proof.
  unfold Element.IsValidProofUtxo. split.
  - intros Hlen. unfold Element.tail_ok.
    destruct (Nat.ltb_spec (length (Element.m_Proof State p)) 2); [reflexivity | lia].
  - destruct (Element.tail_ok true (Element.m_Proof State p)) eqn:Htail; cbn [negb].
    + apply tail_ok_spec in Htail. destruct Htail as (body & h1 & h2 & Hp).
      rewrite Hp, Interpret_proof_two. cbn [Merkle.Interpret_side].
      split.
      * intros H. apply Z.eqb_eq in H. exists body, h1, h2. split; [reflexivity | exact H].
      * intros (body' & h1' & h2' & Heq & Hdef).
        apply app_two_inj in Heq. destruct Heq as (<- & Hx & Hy).
        injection Hx as <-. injection Hy as <-.
        apply Z.eqb_eq. exact Hdef.
    + split; [discriminate |].
      intros (body & h1 & h2 & Hp & _).
      assert (Hok : Element.tail_ok true (Element.m_Proof State p) = true)
        by (apply tail_ok_spec; exists body, h1, h2; exact Hp).
      congruence.
Qed.

End Utxo.

End MerkleProofProps.

(** ** The hash and the ID of a kernel *)

Section KernelHashProps.
Context {P : Primitives}.





(** X16. [TxKernel::HashToID].  The ID of a kernel is never zero: a zero
    hash is incremented. *)
Theorem HashToID_never_zero (k : TxKernel.t) (hv : Z) :
  TxKernel.HashToID k hv <> 0 /\
  (forall out pLockImage id,
      TxKernel.get_ID k out pLockImage = Some id -> id <> 0).
Proof.
  assert (Hnz : forall hv', TxKernel.HashToID k hv' <> 0).
  { intros hv'. unfold TxKernel.HashToID.
    destruct (Z.eqb_spec (hp_out (hp_u32 (hp_point (hp_hash hp_new hv') (TxKernel.m_Excess k))
                                    (TxKernel.m_Multiplier k))) 0) as [-> | Hne].
    - cbn. discriminate.
    - exact Hne. }
  split; [apply Hnz |].
  intros out pLockImage id. unfold TxKernel.get_ID.
  destruct (TxKernel.get_Hash k out pLockImage); [| discriminate].
  intros H. injection H as <-. apply Hnz.
Qed.

End KernelHashProps.

(** ** Nested kernels *)

Section KernelTreeProps.
Context {P : Primitives}.

Lemma Traverse_nested_accepts
    (trav : TxKernel.t -> Z -> option AmountBig.t -> option Native ->
            option TxKernel.TraverseState) (Q : TxKernel.t -> Prop) :
  (forall v hv pFee pExcess, trav v hv pFee pExcess <> None -> Q v) ->
  forall it p0 hp hv pFee pExcess,
    TxKernel.Traverse_nested trav it p0 hp hv pFee pExcess <> None ->
    Forall Q it /\
    Sorted TxKernel.in_order (match p0 with Some k0 => k0 :: it | None => it end).
Proof.
  intros Htrav. induction it as [| v it IH]; intros p0 hp hv pFee pExcess H.
  - split; [constructor |]. destruct p0; repeat constructor.
  - cbn [TxKernel.Traverse_nested] in H.
    destruct (match p0 with Some k0 => TxKernel.gt k0 v | None => false end) eqn:Hgt;
      [contradiction |].
    destruct (trav v hv pFee pExcess) as [[[hv' f'] e'] |] eqn:Hv; [| contradiction].
    destruct (IH _ _ _ _ _ H) as [Hall Hsorted].
    split.
    + constructor; [apply (Htrav v hv pFee pExcess); congruence | exact Hall].
    + destruct p0 as [k0 |]; [| exact Hsorted].
      constructor; [exact Hsorted | constructor; exact Hgt].
Qed.

Lemma Traverse_parent (v parent : TxKernel.t) (hv : Z) (pFee : option AmountBig.t)
    (pExcess : option Native) (lock : option Z) :
  TxKernel.Traverse v hv pFee pExcess (Some parent) lock <> None ->
  TxKernel.nested_in parent v.
Proof.
  destruct v as [ex mu sg fee hr hl nested]. cbn [TxKernel.Traverse].
  unfold TxKernel.nested_in. cbn [TxKernel.m_Multiplier TxKernel.m_Height].
  destruct (Z.eqb_spec mu (TxKernel.m_Multiplier parent));
    cbn [negb orb]; [| contradiction].
  destruct (Z.gtb_spec (HeightRange.m_Min hr) (HeightRange.m_Min (TxKernel.m_Height parent)));
    cbn [orb]; [contradiction |].
  destruct (Z.ltb_spec (HeightRange.m_Max hr) (HeightRange.m_Max (TxKernel.m_Height parent)));
    [contradiction |].
  intros _. lia.
Qed.

(** X17. [TxKernel::IsValid] on nested kernels.  A kernel that is valid
    has its excess importable, its nested kernels in the order of [cmp],
    and each of them with the multiplier of the kernel and a height range
    that contains the kernel's. *)
Theorem IsValid_nested_kernels (k : TxKernel.t) (fee : AmountBig.t) (exc : Native) :
  TxKernel.IsValid k fee exc <> None ->
  Forall (TxKernel.nested_in k) (TxKernel.m_vNested k) /\
  Sorted TxKernel.in_order (TxKernel.m_vNested k) /\
  exists pt, Native_Import (TxKernel.m_Excess k) = Some pt.
Proof.
  unfold TxKernel.IsValid. destruct k as [ex mu sg fee0 hr hl nested].
  cbn [TxKernel.Traverse TxKernel.m_vNested TxKernel.m_Excess].
  set (k := TxKernel.Build ex mu sg fee0 hr hl nested).
  set (hp0 := hp_bool _ _).
  assert (Hloop : forall hp hv,
    match
      match TxKernel.Traverse_nested
              (fun v hv pFee pExcess => TxKernel.Traverse v hv pFee pExcess (Some k) None)
              nested None hp hv (Some fee) (Some exc) with
      | Some (hp', (_, pFee, pExcess)) => TxKernel.Traverse_sign ex mu sg fee0 hp' pFee pExcess
      | None => None
      end
    with
    | Some (_, Some f, Some e) => Some (f, e)
    | _ => None
    end <> None ->
    Forall (TxKernel.nested_in k) nested /\ Sorted TxKernel.in_order nested /\
    exists pt, Native_Import ex = Some pt).
  { intros hp hv H.
    destruct (TxKernel.Traverse_nested _ nested None hp hv (Some fee) (Some exc))
      as [[hp' [[hv' pFee] pExcess]] |] eqn:Hn; [| contradiction].
    destruct (Traverse_nested_accepts
                (fun v hv pFee pExcess => TxKernel.Traverse v hv pFee pExcess (Some k) None)
                (TxKernel.nested_in k)
                ltac:(intros v a b c; apply Traverse_parent)
                nested None hp hv (Some fee) (Some exc) ltac:(congruence))
      as [Hall Hsorted].
    split; [exact Hall |]. split; [exact Hsorted |].
    unfold TxKernel.Traverse_sign in H.
    destruct pExcess as [e |].
    - destruct (Native_Import ex) as [pt |];
        [exists pt; reflexivity | exfalso; apply H; reflexivity].
    - exfalso. apply H. destruct pFee; reflexivity. }
  destruct hl as [lockv |]; apply Hloop.
Qed.

Lemma Traverse_sign_fee (ex : Point) (mu : Z) (sg : Signature) (fee : Z)
    (hp : Processor) (f : AmountBig.t) (pExcess : option Native)
    (r : TxKernel.TraverseState) :
  TxKernel.Traverse_sign ex mu sg fee hp (Some f) pExcess = Some r ->
  snd (fst r) = Some (AmountBig.add_Amount f fee).
Proof.
  unfold TxKernel.Traverse_sign. destruct pExcess as [e |].
  - destruct (Native_Import ex) as [pt |]; [| discriminate].
    destruct (negb _); [discriminate |]. intros H. inversion H. reflexivity.
  - intros H. inversion H. reflexivity.
Qed.

Lemma Traverse_nested_fee
    (trav : TxKernel.t -> Z -> option AmountBig.t -> option Native ->
            option TxKernel.TraverseState) (it : list TxKernel.t) :
  Forall (fun v => forall hv f pExcess r,
              AmountBig.wf f ->
              trav v hv (Some f) pExcess = Some r ->
              snd (fst r)
              = Some (AmountBig.of_value (AmountBig.value f + TxKernel.fee_total v))) it ->
  forall p0 hp hv f pExcess r,
    AmountBig.wf f ->
    TxKernel.Traverse_nested trav it p0 hp hv (Some f) pExcess = Some r ->
    snd (fst (snd r))
    = Some (AmountBig.of_value
              (AmountBig.value f + fold_right Z.add 0 (map TxKernel.fee_total it))).
Proof.
  induction 1 as [| v it Hv _ IH]; intros p0 hp hv f pExcess r Hf H;
    cbn [TxKernel.Traverse_nested] in H.
  - inversion H. cbn [snd fst map fold_right]. rewrite Z.add_0_r.
    rewrite of_value_value by exact Hf. reflexivity.
  - destruct (match p0 with Some k0 => TxKernel.gt k0 v | None => false end);
      [discriminate |].
    destruct (trav v hv (Some f) pExcess) as [[[hv' pf'] e'] |] eqn:Etrav;
      [| discriminate].
    pose proof (Hv _ _ _ _ Hf Etrav) as Hfee. cbn [fst snd] in Hfee. subst pf'.
    rewrite (IH _ _ _ _ _ _ (of_value_wf _) H).
    rewrite of_value_add_mod. cbn [map fold_right]. f_equal. f_equal. lia.
Qed.

Lemma Traverse_fee (k : TxKernel.t) :
  TxKernel.fees_ok k ->
  forall hv f pExcess pParent lock r,
    AmountBig.wf f ->
    TxKernel.Traverse k hv (Some f) pExcess pParent lock = Some r ->
    snd (fst r)
    = Some (AmountBig.of_value (AmountBig.value f + TxKernel.fee_total k)).
Proof.
  induction k as [ex mu sg fee hr hl nested IH] using kernel_ind_nested.
  intros Hok hv f pExcess pParent lock r Hf.
  apply fees_ok_nested in Hok. cbn [TxKernel.m_Fee TxKernel.m_vNested] in Hok.
  destruct Hok as [Hfee Hnested].
  cbn [TxKernel.Traverse TxKernel.fee_total].
  destruct (match pParent with Some _ => _ | None => false end); [discriminate |].
  set (k := TxKernel.Build ex mu sg fee hr hl nested).
  assert (Hloop : forall hp hv0,
    match TxKernel.Traverse_nested
            (fun v hv pFee pExcess => TxKernel.Traverse v hv pFee pExcess (Some k) None)
            nested None hp hv0 (Some f) pExcess with
    | Some (hp', (_, pFee, pExcess)) => TxKernel.Traverse_sign ex mu sg fee hp' pFee pExcess
    | None => None
    end = Some r ->
    snd (fst r)
    = Some (AmountBig.of_value
              (AmountBig.value f + (fee + fold_right Z.add 0 (map TxKernel.fee_total nested))))).
  { intros hp hv0 H.
    destruct (TxKernel.Traverse_nested _ nested None hp hv0 (Some f) pExcess)
      as [[hp' [[hv' pf'] e']] |] eqn:Hn; [| discriminate].
    pose proof (Traverse_nested_fee
      (fun v hv pFee pExcess => TxKernel.Traverse v hv pFee pExcess (Some k) None)
      nested
      ltac:(rewrite Forall_forall in IH, Hnested |- *;
            intros v Hin a b c d Hb Hd;
            exact (IH v Hin (Hnested v Hin) a b c (Some k) None d Hb Hd))
      None hp hv0 f pExcess _ Hf Hn) as Hsum.
    cbn [fst snd] in Hsum. subst pf'.
    rewrite (Traverse_sign_fee _ _ _ _ _ _ _ _ H).
    rewrite add_Amount_of_value by (try apply of_value_wf; exact Hfee).
    rewrite of_value_add_mod. f_equal. f_equal. lia. }
  destruct hl as [lockv |]; [destruct lock as [image |] |]; apply Hloop.
Qed.

(** X18. [TxKernel::IsValid] and the fee.  A valid kernel adds to the
    fee accumulator its own fee and the fees of all the kernels nested in
    it, at any depth, modulo [2^128]. *)
Theorem IsValid_adds_all_fees (k : TxKernel.t) (fee fee' : AmountBig.t)
    (exc exc' : Native) :
  TxKernel.fees_ok k -> AmountBig.wf fee ->
  TxKernel.IsValid k fee exc = Some (fee', exc') ->
  AmountBig.value fee'
  = (AmountBig.value fee + TxKernel.fee_total k) mod 2 ^ 128.
Proof.
  intros Hok Hf. unfold TxKernel.IsValid.
  destruct (TxKernel.Traverse k 0 (Some fee) (Some exc) None None)
    as [[[hv pf] pe] |] eqn:Ht; [| discriminate].
  pose proof (Traverse_fee k Hok _ _ _ _ _ _ Hf Ht) as Hfee.
  cbn [fst snd] in Hfee. subst pf.
  destruct pe as [e |]; [| discriminate].
  intros H. injection H as <- _.
  unfold AmountBig.of_value, AmountBig.value. cbn [AmountBig.Lo AmountBig.Hi].
  change (2 ^ 128) with (2 ^ 64 * 2 ^ 64).
  rewrite Z.rem_mul_r by lia. lia.
Qed.

End KernelTreeProps.

Lemma IsValid_nested_kernels_witness :
  Forall (TxKernel.nested_in (P := Toy.primitives) Toy.kernel_tree)
         (TxKernel.m_vNested Toy.kernel_tree) /\
  Sorted (TxKernel.in_order (P := Toy.primitives)) (TxKernel.m_vNested Toy.kernel_tree) /\
  exists pt, Native_Import (TxKernel.m_Excess Toy.kernel_tree) = Some pt.
Proof.
  apply (IsValid_nested_kernels (P := Toy.primitives) Toy.kernel_tree
           (AmountBig.Build (2 ^ 64 - 3) 0) 100).
  vm_compute. discriminate.
Defined.

Lemma IsValid_adds_all_fees_witness :
  AmountBig.value (AmountBig.Build 4 1)
  = (AmountBig.value (AmountBig.Build (2 ^ 64 - 3) 0)
     + TxKernel.fee_total (P := Toy.primitives) Toy.kernel_tree) mod 2 ^ 128.
Proof.
  apply (IsValid_adds_all_fees (P := Toy.primitives) Toy.kernel_tree
           (AmountBig.Build (2 ^ 64 - 3) 0) (AmountBig.Build 4 1) 100 112).
  - cbn. repeat split; lia.
  - unfold AmountBig.wf. cbn. lia.
  - vm_compute. reflexivity.
Defined.

(** ** What a validation does to its context *)

Section ContextInvariants.
Context {P : Primitives}.
Variable rules : Rules.

Lemma stable_refl (ctx : TxBase.Context) : Sharding.stable ctx ctx.
Proof. unfold Sharding.stable. repeat split; auto; lia. Qed.

Lemma stable_trans (a b c : TxBase.Context) : Sharding.stable a b -> Sharding.stable b c -> Sharding.stable a c.
Proof.
  unfold Sharding.stable.
  intros (B1 & N1 & I1 & A1 & H1 & C1 & E1 & L1 & U1)
         (B2 & N2 & I2 & A2 & H2 & C2 & E2 & L2 & U2).
  repeat split; try congruence; try lia.
  - intros Hb. rewrite H2, H1; congruence.
  - intros Hb. rewrite C2, C1; congruence.
  - auto.
Qed.

Lemma stable_set_Sigma (ctx : TxBase.Context) (x : Native) :
  Sharding.stable ctx (TxBase.set_Sigma ctx x).
Proof. unfold Sharding.stable. cbn. repeat split; auto; lia. Qed.

Lemma stable_set_Fee (ctx : TxBase.Context) (x : AmountBig.t) :
  Sharding.stable ctx (TxBase.set_Fee ctx x).
Proof. unfold Sharding.stable. cbn. repeat split; auto; lia. Qed.

Lemma stable_set_Coinbase (ctx : TxBase.Context) (x : AmountBig.t) :
  TxBase.m_bBlockMode ctx = true -> Sharding.stable ctx (TxBase.set_Coinbase ctx x).
Proof. intros Hb. unfold Sharding.stable. cbn. repeat split; auto; try lia. congruence. Qed.

Lemma stable_HandleElementHeight (ctx ctx' : TxBase.Context) (hr : HeightRange.t) :
  TxBase.HandleElementHeight ctx hr = Some ctx' -> Sharding.stable ctx ctx'.
Proof.
  unfold TxBase.HandleElementHeight.
  destruct (HeightRange.IsEmpty _) eqn:He; [discriminate |].
  intros H. injection H as <-.
  destruct (TxBase.m_bBlockMode ctx) eqn:Hb; cbn [negb]; [apply stable_refl |].
  unfold Sharding.stable. cbn [TxBase.set_Height TxBase.m_bBlockMode TxBase.m_nVerifiers
                      TxBase.m_iVerifier TxBase.m_pAbort TxBase.m_Height TxBase.m_Coinbase
                      HeightRange.Intersect HeightRange.m_Min HeightRange.m_Max].
  repeat split; try congruence; try lia.
Qed.

Lemma stable_loop_UtxoIn (it : list Input.t) :
  forall pPrev ctx iV ctx' iV',
    TxBase.loop_UtxoIn pPrev it ctx iV = Some (ctx', iV') -> Sharding.stable ctx ctx'.
Proof.
  induction it as [| cur it IH]; intros pPrev ctx iV ctx' iV' H;
    cbn [TxBase.loop_UtxoIn] in H.
  - injection H as <- _. apply stable_refl.
  - destruct (TxBase.ShouldAbort ctx); [discriminate |].
    destruct (TxBase.ShouldVerify ctx iV) as [[|] iV1].
    + destruct (TxBase.prev_gt _ _ _); [discriminate |].
      destruct (Native_Import _) as [pt |]; [| discriminate].
      eapply stable_trans; [apply stable_set_Sigma | exact (IH _ _ _ _ _ H)].
    + exact (IH _ _ _ _ _ H).
Qed.

Lemma stable_loop_KernelIn (it : list TxKernel.t) :
  forall pPrev out feeInp ctx iV ctx' iV',
    TxBase.loop_KernelIn pPrev it out feeInp ctx iV = Some (ctx', iV') ->
    Sharding.stable ctx ctx'.
Proof.
  induction it as [| cur it IH]; intros pPrev out feeInp ctx iV ctx' iV' H;
    cbn [TxBase.loop_KernelIn] in H.
  - injection H as <- _. apply stable_refl.
  - destruct (TxBase.ShouldAbort ctx); [discriminate |].
    destruct (TxBase.locate_KernelOut cur out) as [out' |]; [| discriminate].
    destruct (TxBase.ShouldVerify ctx iV) as [[|] iV1].
    + destruct (TxBase.prev_gt _ _ _); [discriminate |].
      destruct (TxKernel.IsValid _ _ _) as [[f s] |]; [| discriminate].
      eapply stable_trans; [apply stable_set_Sigma | exact (IH _ _ _ _ _ _ _ H)].
    + exact (IH _ _ _ _ _ _ _ H).
Qed.

Lemma stable_loop_UtxoOut (it : list Output.t) :
  forall pPrev ctx iV ctx' iV',
    TxBase.loop_UtxoOut rules pPrev it ctx iV = Some (ctx', iV') -> Sharding.stable ctx ctx'.
Proof.
  induction it as [| cur it IH]; intros pPrev ctx iV ctx' iV' H;
    cbn [TxBase.loop_UtxoOut] in H.
  - injection H as <- _. apply stable_refl.
  - destruct (TxBase.ShouldAbort ctx); [discriminate |].
    destruct (TxBase.ShouldVerify ctx iV) as [[|] iV1].
    + destruct (TxBase.prev_gt _ _ _); [discriminate |].
      destruct (Output.IsValid rules cur) as [bValid pt].
      destruct bValid; cbn [negb] in H; [| discriminate].
      destruct (Output.m_Coinbase cur).
      * destruct (TxBase.m_bBlockMode _) eqn:Hb; cbn [negb] in H; [| discriminate].
        destruct (Output.m_pPublic cur) as [pPublic |]; [| discriminate].
        eapply stable_trans; [apply stable_set_Sigma |].
        eapply stable_trans; [apply stable_set_Coinbase; exact Hb |].
        exact (IH _ _ _ _ _ H).
      * eapply stable_trans; [apply stable_set_Sigma | exact (IH _ _ _ _ _ H)].
    + exact (IH _ _ _ _ _ H).
Qed.

Lemma stable_loop_KernelOut (it : list TxKernel.t) :
  forall pPrev ctx iV ctx' iV',
    TxBase.loop_KernelOut pPrev it ctx iV = Some (ctx', iV') -> Sharding.stable ctx ctx'.
Proof.
  induction it as [| cur it IH]; intros pPrev ctx iV ctx' iV' H;
    cbn [TxBase.loop_KernelOut] in H.
  - injection H as <- _. apply stable_refl.
  - destruct (TxBase.ShouldAbort ctx); [discriminate |].
    destruct (TxBase.ShouldVerify ctx iV) as [[|] iV1].
    + destruct (TxBase.prev_gt _ _ _); [discriminate |].
      destruct (TxKernel.IsValid _ _ _) as [[f s] |]; [| discriminate].
      destruct (TxBase.HandleElementHeight _ _) as [ctx1 |] eqn:Hh; [| discriminate].
      eapply stable_trans; [apply stable_set_Fee |].
      eapply stable_trans; [apply stable_set_Sigma |].
      eapply stable_trans; [exact (stable_HandleElementHeight _ _ _ Hh) |].
      exact (IH _ _ _ _ _ H).
    + exact (IH _ _ _ _ _ H).
Qed.

Lemma ValidateAndSummarize_stable (ctx ctx' : TxBase.Context) (m_Offset : Scalar)
    (r : Reader.t) :
  TxBase.ValidateAndSummarize rules ctx m_Offset r = Some ctx' ->
  HeightRange.IsEmpty (TxBase.m_Height ctx) = false /\ Sharding.stable ctx ctx'.
Proof.
  unfold TxBase.ValidateAndSummarize.
  destruct (HeightRange.IsEmpty (TxBase.m_Height ctx)) eqn:He; [discriminate |].
  destruct (TxBase.loop_UtxoIn _ _ _ _) as [[c1 i1] |] eqn:H1; [| discriminate].
  destruct (TxBase.loop_KernelIn _ _ _ _ _ _) as [[c2 i2] |] eqn:H2; [| discriminate].
  destruct (TxBase.loop_UtxoOut _ _ _ _ _) as [[c3 i3] |] eqn:H3; [| discriminate].
  destruct (TxBase.loop_KernelOut _ _ _ _) as [[c4 i4] |] eqn:H4; [| discriminate].
  destruct (TxBase.ShouldVerify c4 i4) as [bVerify i5].
  intros H. injection H as <-. split; [reflexivity |].
  eapply stable_trans; [apply stable_set_Sigma |].
  eapply stable_trans; [exact (stable_loop_UtxoIn _ _ _ _ _ _ H1) |].
  eapply stable_trans; [exact (stable_loop_KernelIn _ _ _ _ _ _ _ _ H2) |].
  eapply stable_trans; [apply stable_set_Sigma |].
  eapply stable_trans; [exact (stable_loop_UtxoOut _ _ _ _ _ _ H3) |].
  eapply stable_trans; [exact (stable_loop_KernelOut _ _ _ _ _ _ H4) |].
  destruct bVerify; [apply stable_set_Sigma | apply stable_refl].
Qed.

(** X19. [ValidateAndSummarize] and the context.  A validation that
    succeeds leaves the mode, the verifier count and index and the abort
    pointer as they were.  Its height range is not empty (the assertion
    that ends the routine) and lies within the one it started from; in
    block mode it is the one it started from.  In transaction mode the
    coinbase total is untouched (the assertion that opens
    [IsValidTransaction]). *)
Theorem ValidateAndSummarize_changes (ctx ctx' : TxBase.Context) (m_Offset : Scalar)
    (r : Reader.t) :
  TxBase.ValidateAndSummarize rules ctx m_Offset r = Some ctx' ->
  (TxBase.m_bBlockMode ctx' = TxBase.m_bBlockMode ctx /\
   TxBase.m_nVerifiers ctx' = TxBase.m_nVerifiers ctx /\
   TxBase.m_iVerifier ctx' = TxBase.m_iVerifier ctx /\
   TxBase.m_pAbort ctx' = TxBase.m_pAbort ctx) /\
  (HeightRange.IsEmpty (TxBase.m_Height ctx') = false /\
   HeightRange.m_Min (TxBase.m_Height ctx) <= HeightRange.m_Min (TxBase.m_Height ctx') /\
   HeightRange.m_Max (TxBase.m_Height ctx') <= HeightRange.m_Max (TxBase.m_Height ctx)) /\
  (TxBase.m_bBlockMode ctx = true -> TxBase.m_Height ctx' = TxBase.m_Height ctx) /\
  (TxBase.m_bBlockMode ctx = false ->
   TxBase.m_Coinbase ctx' = TxBase.m_Coinbase ctx).
Proof.
  intros H. apply ValidateAndSummarize_stable in H.
  destruct H as (He & Hb & Hn & Hi & Ha & Hh & Hc & Hne & Hlo & Hhi).
  split; [repeat split; assumption |].
  split; [repeat split; [apply Hne; exact He | exact Hlo | exact Hhi] |].
  split; assumption.
Qed.

(** X20. [ValidateAndSummarize] and the abort flag.  The flag is read once
    per element of the stream: with the flag set, a validation succeeds
    exactly when the height range is not empty and all four streams are
    empty. *)
Theorem ValidateAndSummarize_abort (ctx : TxBase.Context) (m_Offset : Scalar)
    (r : Reader.t) :
  TxBase.m_pAbort ctx = Some true ->
  (TxBase.ValidateAndSummarize rules ctx m_Offset r <> None <->
   HeightRange.IsEmpty (TxBase.m_Height ctx) = false /\
   Reader.UtxoIn r = [] /\ Reader.KernelIn r = [] /\
   Reader.UtxoOut r = [] /\ Reader.KernelOut r = []).
Proof.
  intros Ha. unfold TxBase.ValidateAndSummarize.
  destruct (HeightRange.IsEmpty (TxBase.m_Height ctx));
    [split; [intros H; contradiction | intros [H _]; discriminate] |].
  assert (Hab : forall c, TxBase.m_pAbort c = Some true -> TxBase.ShouldAbort c = true)
    by (intros c Hc; unfold TxBase.ShouldAbort; rewrite Hc; reflexivity).
  destruct r as [ins outs kin kout].
  cbn [Reader.UtxoIn Reader.KernelIn Reader.UtxoOut Reader.KernelOut].
  destruct ins as [| i ins].
  2:{ cbn [TxBase.loop_UtxoIn]. rewrite Hab by exact Ha.
      split; [intros H; contradiction | intros (_ & H & _); discriminate]. }
  cbn [TxBase.loop_UtxoIn].
  destruct kin as [| k kin].
  2:{ cbn [TxBase.loop_KernelIn]. rewrite Hab by exact Ha.
      split; [intros H; contradiction | intros (_ & _ & H & _); discriminate]. }
  cbn [TxBase.loop_KernelIn].
  destruct outs as [| o outs].
  2:{ cbn [TxBase.loop_UtxoOut]. rewrite Hab by exact Ha.
      split; [intros H; contradiction | intros (_ & _ & _ & H & _); discriminate]. }
  cbn [TxBase.loop_UtxoOut].
  destruct kout as [| k kout].
  2:{ cbn [TxBase.loop_KernelOut]. rewrite Hab by exact Ha.
      split; [intros H; contradiction | intros (_ & _ & _ & _ & H); discriminate]. }
  cbn [TxBase.loop_KernelOut].
  destruct (TxBase.ShouldVerify _ _) as [b iV].
  split; [intros _; repeat split | intros _; discriminate].
Qed.

End ContextInvariants.

(** ** The turn of a verifier *)

Section RoundRobin.
Context {P : Primitives}.

Lemma next_residue (N i k : Z) :
  0 < N -> 0 <= i < N -> 0 <= k ->
  ((k + 1) mod N =? i) = (k mod N =? (if i =? 0 then N - 1 else i - 1)).
Proof.
  intros HN Hi Hk. rewrite <- (Z.add_mod_idemp_l k 1 N) by lia.
  pose proof (Z.mod_pos_bound k N HN) as Hq. set (q := k mod N) in *.
  destruct (Z.eq_dec (q + 1) N) as [Hw | Hw];
    [rewrite Hw, Z.mod_same by lia | rewrite Z.mod_small by lia];
    destruct (Z.eqb_spec i 0);
    repeat match goal with
           | |- context [?a =? ?b] => destruct (Z.eqb_spec a b)
           end; try reflexivity; lia.
Qed.

(** X21. [ShouldVerify].  Of the calls made in a row, the verifier with
    index [i] among [m_nVerifiers] answers true at the calls number [i],
    [i + m_nVerifiers], [i + 2 * m_nVerifiers] and so on, counting from 0,
    and false at all others. *)
Theorem ShouldVerify_round_robin (ctx : TxBase.Context) (n : nat) (i : Z) :
  1 <= TxBase.m_nVerifiers ctx < 2 ^ 32 ->
  0 <= i < TxBase.m_nVerifiers ctx ->
  Sharding.ShouldVerify_calls ctx i n
  = map (fun k => Z.of_nat k mod TxBase.m_nVerifiers ctx =? i) (seq 0 n).
Proof.
  intros HN. set (N := TxBase.m_nVerifiers ctx) in *. revert i.
  induction n as [| n IH]; intros i Hi; [reflexivity |].
  cbn [Sharding.ShouldVerify_calls seq map]. unfold TxBase.ShouldVerify at 1. fold N.
  rewrite <- seq_shift, map_map.
  assert (Hmap : map (fun k => Z.of_nat (S k) mod N =? i) (seq 0 n)
                 = map (fun k => Z.of_nat k mod N =? (if i =? 0 then N - 1 else i - 1))
                       (seq 0 n)).
  { apply map_ext. intros k. rewrite Nat2Z.inj_succ.
    apply next_residue; lia. }
  rewrite Hmap. rewrite Z.mod_0_l by lia.
  destruct (Z.eqb_spec i 0) as [-> | Hnz]; cbn [negb].
  - unfold u32. rewrite Z.mod_small by lia. rewrite IH by lia. reflexivity.
  - unfold u32. rewrite Z.mod_small by lia. rewrite IH by lia.
    destruct (Z.eqb_spec 0 i); [lia | reflexivity].
Qed.

End RoundRobin.

Lemma ValidateAndSummarize_changes_witness :
  (TxBase.m_bBlockMode Toy.body_ctx = TxBase.m_bBlockMode Toy.body_ctx0 /\
   TxBase.m_nVerifiers Toy.body_ctx = TxBase.m_nVerifiers Toy.body_ctx0 /\
   TxBase.m_iVerifier Toy.body_ctx = TxBase.m_iVerifier Toy.body_ctx0 /\
   TxBase.m_pAbort Toy.body_ctx = TxBase.m_pAbort Toy.body_ctx0) /\
  (HeightRange.IsEmpty (TxBase.m_Height Toy.body_ctx) = false /\
   HeightRange.m_Min (TxBase.m_Height Toy.body_ctx0)
   <= HeightRange.m_Min (TxBase.m_Height Toy.body_ctx) /\
   HeightRange.m_Max (TxBase.m_Height Toy.body_ctx)
   <= HeightRange.m_Max (TxBase.m_Height Toy.body_ctx0)) /\
  (TxBase.m_bBlockMode Toy.body_ctx0 = true ->
   TxBase.m_Height Toy.body_ctx = TxBase.m_Height Toy.body_ctx0) /\
  (TxBase.m_bBlockMode Toy.body_ctx0 = false ->
   TxBase.m_Coinbase Toy.body_ctx = TxBase.m_Coinbase Toy.body_ctx0).
Proof.
  apply (ValidateAndSummarize_changes (P := Toy.primitives) Toy.rules
           Toy.body_ctx0 Toy.body_ctx 0 Toy.body_reader).
  reflexivity.
Defined.

Lemma ValidateAndSummarize_abort_witness :
  TxBase.ValidateAndSummarize (P := Toy.primitives) Toy.rules Toy.aborted_ctx 0
    Toy.body_reader <> None <->
  HeightRange.IsEmpty (TxBase.m_Height Toy.aborted_ctx) = false /\
  Reader.UtxoIn Toy.body_reader = [] /\ Reader.KernelIn Toy.body_reader = [] /\
  Reader.UtxoOut Toy.body_reader = [] /\ Reader.KernelOut Toy.body_reader = [].
Proof.
  apply (ValidateAndSummarize_abort (P := Toy.primitives) Toy.rules
           Toy.aborted_ctx 0 Toy.body_reader).
  reflexivity.
Defined.

Lemma ShouldVerify_round_robin_witness :
  Sharding.ShouldVerify_calls (P := Toy.primitives)
    (Sharding.shard_ctx 3 1 Toy.body_heights true) 1 7
  = map (fun k => Z.of_nat k
                  mod TxBase.m_nVerifiers (Sharding.shard_ctx (P := Toy.primitives)
                                             3 1 Toy.body_heights true) =? 1)
        (seq 0 7).
Proof.
  apply (ShouldVerify_round_robin (P := Toy.primitives)
           (Sharding.shard_ctx 3 1 Toy.body_heights true) 7 1); cbn; lia.
Defined.

(** ** What one verifier has checked *)

Section SingleVerifier.
Context {P : Primitives}.
Variable rules : Rules.

Lemma run_all_ok (L : list Sharding.Delta) :
  forall ctx ctx', Sharding.run L ctx = Some ctx' ->
                   Forall (fun d => Sharding.d_ok d = true) L.
Proof.
  induction L as [| d L IH]; intros ctx ctx' H; [constructor |].
  cbn [Sharding.run] in H.
  destruct (Sharding.apply_delta d ctx) as [ctx1 |] eqn:Hd; [| discriminate].
  constructor; [| exact (IH _ _ H)].
  unfold Sharding.apply_delta in Hd.
  destruct (Sharding.d_ok d); [reflexivity | discriminate].
Qed.

(** With one verifier, a validation that succeeds has verified every
    element of the stream. *)
Lemma single_all_ok (ctx ctx' : TxBase.Context) (m_Offset : Scalar) (r : Reader.t) :
  Sharding.ctx_ok ctx -> Sharding.reader_ok r ->
  TxBase.m_nVerifiers ctx = 1 -> TxBase.m_iVerifier ctx = 0 ->
  TxBase.ValidateAndSummarize rules ctx m_Offset r = Some ctx' ->
  Forall (fun d => Sharding.d_ok d = true)
         (Sharding.deltas_all rules (TxBase.m_bBlockMode ctx) m_Offset r).
Proof.
  intros Hctx Hr HN Hi H.
  rewrite ValidateAndSummarize_gated in H by assumption.
  destruct (HeightRange.IsEmpty _); [discriminate |].
  destruct (Sharding.locate_all _ _); [| discriminate].
  rewrite gated_owned, HN, Hi, owned_all in H.
  exact (run_all_ok _ _ _ H).
Qed.

Lemma deltas_ok {T : Type} (delta : option T -> T -> Sharding.Delta)
    (gt : T -> T -> bool) (Q : T -> Prop) :
  (forall p c, Sharding.d_ok (delta p c) = true ->
               TxBase.prev_gt gt p c = false /\ Q c) ->
  forall it pPrev,
    Forall (fun d => Sharding.d_ok d = true) (Sharding.deltas delta pPrev it) ->
    Sorted (fun a b => gt a b = false)
           (match pPrev with Some p => p :: it | None => it end) /\
    Forall Q it.
Proof.
  intros Hd. induction it as [| c it IH]; intros pPrev H.
  - split; [destruct pPrev; repeat constructor | constructor].
  - cbn [Sharding.deltas] in H. inversion H as [| ? ? Hc Hrest]; subst.
    destruct (Hd _ _ Hc) as [Hgt Hq].
    destruct (IH _ Hrest) as [Hs Hall].
    split; [| constructor; assumption].
    destruct pPrev as [p |]; [| exact Hs].
    constructor; [exact Hs | constructor; exact Hgt].
Qed.

Lemma Forall_neg_delta (L : list Sharding.Delta) :
  Forall (fun d => Sharding.d_ok d = true) (map Sharding.neg_delta L) ->
  Forall (fun d => Sharding.d_ok d = true) L.
Proof.
  rewrite Forall_map. apply Forall_impl. intros d H. exact H.
Qed.

(** The four parts of [deltas_all], each verified. *)
Lemma single_parts (ctx ctx' : TxBase.Context) (m_Offset : Scalar) (r : Reader.t) :
  Sharding.ctx_ok ctx -> Sharding.reader_ok r ->
  TxBase.m_nVerifiers ctx = 1 -> TxBase.m_iVerifier ctx = 0 ->
  TxBase.ValidateAndSummarize rules ctx m_Offset r = Some ctx' ->
  Forall (fun d => Sharding.d_ok d = true)
         (Sharding.deltas Sharding.delta_UtxoIn None (Reader.UtxoIn r)) /\
  Forall (fun d => Sharding.d_ok d = true)
         (Sharding.deltas (fun p c => Sharding.delta_Kernel p c false false) None
                          (Reader.KernelIn r)) /\
  Forall (fun d => Sharding.d_ok d = true)
         (Sharding.deltas (Sharding.delta_UtxoOut rules (TxBase.m_bBlockMode ctx)) None
                          (Reader.UtxoOut r)) /\
  Forall (fun d => Sharding.d_ok d = true)
         (Sharding.deltas (fun p c => Sharding.delta_Kernel p c true true) None
                          (Reader.KernelOut r)).
Proof.
  intros Hctx Hr HN Hi H.
  pose proof (single_all_ok _ _ _ _ Hctx Hr HN Hi H) as Hall.
  unfold Sharding.deltas_all in Hall.
  apply Forall_app in Hall. destruct Hall as [Hneg Hall].
  apply Forall_neg_delta in Hneg.
  apply Forall_app in Hneg. destruct Hneg as [H1 H2].
  apply Forall_app in Hall. destruct Hall as [H3 Hall].
  apply Forall_app in Hall. destruct Hall as [H4 _].
  repeat split; assumption.
Qed.

Lemma delta_UtxoIn_ok (p : option Input.t) (c : Input.t) :
  Sharding.d_ok (Sharding.delta_UtxoIn p c) = true ->
  TxBase.prev_gt TxBase.Input_gt p c = false /\
  Native_Import (Input.m_Commitment c) <> None.
Proof.
  unfold Sharding.delta_UtxoIn.
  destruct (Native_Import (Input.m_Commitment c)); cbn [Sharding.d_ok];
    [| discriminate].
  intros H. apply negb_true_iff in H. split; [exact H | discriminate].
Qed.

Lemma delta_Kernel_ok (bFee bHeight : bool) (p : option TxKernel.t) (c : TxKernel.t) :
  Sharding.d_ok (Sharding.delta_Kernel p c bFee bHeight) = true ->
  TxBase.prev_gt TxKernel.gt p c = false /\
  TxKernel.IsValid c AmountBig.Zero Native_Zero <> None.
Proof.
  unfold Sharding.delta_Kernel.
  destruct (TxKernel.IsValid c AmountBig.Zero Native_Zero) as [[df de] |];
    cbn [Sharding.d_ok]; [| discriminate].
  intros H. apply negb_true_iff in H. split; [exact H | discriminate].
Qed.

Lemma delta_UtxoOut_ok (bm : bool) (p : option Output.t) (c : Output.t) :
  Sharding.d_ok (Sharding.delta_UtxoOut rules bm p c) = true ->
  TxBase.prev_gt TxBase.Output_gt p c = false /\
  (fst (Output.IsValid rules c) = true /\
   (Output.m_Coinbase c = true -> bm = true)).
Proof.
  unfold Sharding.delta_UtxoOut.
  destruct (Output.IsValid rules c) as [bValid pt]. cbn [fst].
  destruct (Output.m_Coinbase c).
  - destruct (Output.m_pPublic c); cbn [Sharding.d_ok]; [| discriminate].
    intros H. apply andb_prop in H. destruct H as [H Hbm].
    apply andb_prop in H. destruct H as [Hgt Hv].
    apply negb_true_iff in Hgt.
    repeat split; [exact Hgt | exact Hv | intros _; exact Hbm].
  - cbn [Sharding.d_ok]. intros H.
    apply andb_prop in H. destruct H as [Hgt Hv].
    apply negb_true_iff in Hgt. repeat split; try assumption. discriminate.
Qed.

(** X22. [ValidateAndSummarize] with one verifier.  When the context is
    the only verifier and the validation succeeds, each of the four
    streams is in the order of its [cmp], every input commitment imports,
    every output passes [Output::IsValid], a coinbase output occurs in
    block mode only, and every kernel passes [TxKernel::IsValid]. *)
Theorem single_verifier_accepts (ctx : TxBase.Context) (m_Offset : Scalar)
    (r : Reader.t) :
  Sharding.ctx_ok ctx -> Sharding.reader_ok r ->
  TxBase.m_nVerifiers ctx = 1 -> TxBase.m_iVerifier ctx = 0 ->
  TxBase.ValidateAndSummarize rules ctx m_Offset r <> None ->
  (Sorted (fun a b => TxBase.Input_gt a b = false) (Reader.UtxoIn r) /\
   Sorted (fun a b => TxKernel.gt a b = false) (Reader.KernelIn r) /\
   Sorted (fun a b => TxBase.Output_gt a b = false) (Reader.UtxoOut r) /\
   Sorted (fun a b => TxKernel.gt a b = false) (Reader.KernelOut r)) /\
  Forall (fun i => Native_Import (Input.m_Commitment i) <> None) (Reader.UtxoIn r) /\
  Forall (fun o => fst (Output.IsValid rules o) = true /\
                   (Output.m_Coinbase o = true -> TxBase.m_bBlockMode ctx = true))
         (Reader.UtxoOut r) /\
  Forall (fun k => TxKernel.IsValid k AmountBig.Zero Native_Zero <> None)
         (Reader.KernelIn r ++ Reader.KernelOut r).
Proof.
  intros Hctx Hr HN Hi H.
  destruct (TxBase.ValidateAndSummarize rules ctx m_Offset r) as [ctx' |] eqn:Hrun;
    [clear H | contradiction].
  destruct (single_parts _ _ _ _ Hctx Hr HN Hi Hrun) as (H1 & H2 & H3 & H4).
  destruct (deltas_ok _ _ _ delta_UtxoIn_ok _ None H1) as [S1 V1].
  destruct (deltas_ok _ _ _ (delta_Kernel_ok false false) _ None H2) as [S2 V2].
  destruct (deltas_ok _ _ _ (delta_UtxoOut_ok _) _ None H3) as [S3 V3].
  destruct (deltas_ok _ _ _ (delta_Kernel_ok true true) _ None H4) as [S4 V4].
  split; [repeat split; assumption |].
  split; [exact V1 |]. split; [exact V3 |].
  apply Forall_app. split; assumption.
Qed.

(** X23. [Transaction::IsValid].  A transaction that is valid for a lone
    verifier in transaction mode holds no coinbase output, leaves the
    coinbase total of the context as it was, and balances: the commitment
    sum with the fees added is the zero point. *)
Theorem Transaction_IsValid_no_coinbase (ctx : TxBase.Context) (tx : Transaction.t) :
  Sharding.ctx_ok ctx ->
  Sharding.reader_ok (TxVectors.get_Reader (Transaction.m_Txv tx)) ->
  TxBase.m_nVerifiers ctx = 1 -> TxBase.m_iVerifier ctx = 0 ->
  TxBase.m_bBlockMode ctx = false ->
  Transaction.IsValid rules ctx tx = true ->
  Forall (fun o => Output.m_Coinbase o = false)
         (TxVectors.m_vOutputs (Transaction.m_Txv tx)) /\
  exists ctx',
    TxBase.ValidateAndSummarize rules ctx (Transaction.m_Offset tx)
      (TxVectors.get_Reader (Transaction.m_Txv tx)) = Some ctx' /\
    TxBase.m_Coinbase ctx' = TxBase.m_Coinbase ctx /\
    AmountBig.AddTo (TxBase.m_Fee ctx') (TxBase.m_Sigma ctx') = Native_Zero.
Proof.
  intros Hctx Hr HN Hi Hbm. unfold Transaction.IsValid.
  destruct (TxBase.ValidateAndSummarize rules ctx (Transaction.m_Offset tx) _)
    as [ctx' |] eqn:H; [| discriminate].
  intros Hv. split.
  - destruct (single_parts _ _ _ _ Hctx Hr HN Hi H) as (_ & _ & H3 & _).
    pose proof (proj2 (deltas_ok _ _ _ (delta_UtxoOut_ok _) _ None H3)) as Hall.
    cbn [TxVectors.get_Reader Reader.UtxoOut] in Hall.
    revert Hall. apply Forall_impl. intros o [_ Hc].
    destruct (Output.m_Coinbase o); [| reflexivity].
    specialize (Hc eq_refl). congruence.
  - exists ctx'. split; [reflexivity |]. split.
    + apply ValidateAndSummarize_stable in H.
      destruct H as (_ & _ & _ & _ & _ & _ & Hc & _). exact (Hc Hbm).
    + unfold TxBase.IsValidTransaction in Hv. cbn [fst TxBase.set_Sigma TxBase.m_Sigma] in Hv.
      apply Native_eqb_eq in Hv. exact Hv.
Qed.

End SingleVerifier.

Lemma Toy_reset_ok : Sharding.ctx_ok (TxBase.Reset (P := Toy.primitives)).
Proof. unfold Sharding.ctx_ok, AmountBig.wf. cbn. repeat split; lia. Qed.

Lemma Toy_body_ctx0_ok : Sharding.ctx_ok (P := Toy.primitives) Toy.body_ctx0.
Proof. unfold Sharding.ctx_ok, AmountBig.wf. cbn. repeat split; lia. Qed.

Lemma Toy_shard_reader_ok : Sharding.reader_ok (P := Toy.primitives) Toy.shard_reader.
Proof.
  unfold Sharding.reader_ok, Toy.shard_reader, Sharding.value_ok. cbn.
  repeat split; repeat constructor; cbn; lia.
Qed.

Lemma Toy_tx_balanced_ok :
  Sharding.reader_ok (P := Toy.primitives)
    (TxVectors.get_Reader (Transaction.m_Txv Toy.tx_balanced)).
Proof.
  unfold Sharding.reader_ok, Sharding.value_ok. cbn.
  repeat split; repeat constructor; cbn; lia.
Qed.

Lemma single_verifier_accepts_witness :
  (Sorted (fun a b => TxBase.Input_gt (P := Toy.primitives) a b = false)
          (Reader.UtxoIn Toy.shard_reader) /\
   Sorted (fun a b => TxKernel.gt (P := Toy.primitives) a b = false)
          (Reader.KernelIn Toy.shard_reader) /\
   Sorted (fun a b => TxBase.Output_gt (P := Toy.primitives) a b = false)
          (Reader.UtxoOut Toy.shard_reader) /\
   Sorted (fun a b => TxKernel.gt (P := Toy.primitives) a b = false)
          (Reader.KernelOut Toy.shard_reader)) /\
  Forall (fun i => Native_Import (Input.m_Commitment (P := Toy.primitives) i) <> None)
         (Reader.UtxoIn Toy.shard_reader) /\
  Forall (fun o => fst (Output.IsValid (P := Toy.primitives) Toy.rules o) = true /\
                   (Output.m_Coinbase o = true ->
                    TxBase.m_bBlockMode Toy.body_ctx0 = true))
         (Reader.UtxoOut Toy.shard_reader) /\
  Forall (fun k => TxKernel.IsValid (P := Toy.primitives) k AmountBig.Zero Native_Zero
                   <> None)
         (Reader.KernelIn Toy.shard_reader ++ Reader.KernelOut Toy.shard_reader).
Proof.
  apply (single_verifier_accepts (P := Toy.primitives) Toy.rules Toy.body_ctx0 4
           Toy.shard_reader).
  - exact Toy_body_ctx0_ok.
  - exact Toy_shard_reader_ok.
  - reflexivity.
  - reflexivity.
  - cbn. discriminate.
Defined.

Lemma Transaction_IsValid_no_coinbase_witness :
  Forall (fun o => Output.m_Coinbase (P := Toy.primitives) o = false)
         (TxVectors.m_vOutputs (Transaction.m_Txv Toy.tx_balanced)) /\
  exists ctx',
    TxBase.ValidateAndSummarize (P := Toy.primitives) Toy.rules TxBase.Reset
      (Transaction.m_Offset Toy.tx_balanced)
      (TxVectors.get_Reader (Transaction.m_Txv Toy.tx_balanced)) = Some ctx' /\
    TxBase.m_Coinbase ctx' = TxBase.m_Coinbase (TxBase.Reset (P := Toy.primitives)) /\
    AmountBig.AddTo (TxBase.m_Fee ctx') (TxBase.m_Sigma ctx') = Native_Zero.
Proof.
  apply (Transaction_IsValid_no_coinbase (P := Toy.primitives) Toy.rules
           TxBase.Reset Toy.tx_balanced).
  - exact Toy_reset_ok.
  - exact Toy_tx_balanced_ok.
  - reflexivity.
  - reflexivity.
  - reflexivity.
  - reflexivity.
Defined.

(** ** Readers and writers of transaction vectors *)

Lemma tl_skipn {A : Type} (n : nat) (l : list A) : tl (skipn n l) = skipn (S n) l.
Proof.
  revert l. induction n as [| n IH]; intros [| x l]; try reflexivity.
  cbn [skipn]. rewrite IH. destruct l; reflexivity.
Qed.

Section ReaderProps.
Context {P : Primitives}.

Lemma get_FromVector_skipn {T : Type} (v : list T) (idx : Z) :
  0 <= idx ->
  VecReader.get_FromVector v idx = hd_error (skipn (Z.to_nat idx) v).
Proof.
  intros Hidx. unfold VecReader.get_FromVector. rewrite hd_error_skipn.
  destruct (Z.geb_spec idx (Z.of_nat (length v))) as [Hge | Hlt]; [| reflexivity].
  symmetry. apply nth_error_None. lia.
Qed.

Lemma at_same_Reset (r : VecReader.t) :
  VecReader.at_same (VecReader.m_Txv r) 0 (VecReader.Reset r)
          (TxVectors.get_Reader (VecReader.m_Txv r)).
Proof.
  unfold VecReader.at_same, VecReader.Reset, TxVectors.get_Reader. cbn.
  repeat split; lia.
Qed.

Lemma at_same_move (txv : TxVectors.t) (b : Z) (r : VecReader.t) (c : Reader.t)
    (m : VecReader.Move) :
  b + 1 < 2 ^ 64 -> VecReader.at_same txv b r c ->
  VecReader.at_same txv (b + 1) (VecReader.move r m) (VecReader.move_cursor c m).
Proof.
  intros Hb (Htxv & (I0 & I1 & I2 & I3) & (P0 & P1 & P2 & P3) & (C0 & C1 & C2 & C3)).
  assert (Hu : forall i, 0 <= i <= b -> u64 (i + 1) = i + 1)
    by (intros i Hi; unfold u64; apply Z.mod_small; lia).
  assert (Hn : forall i, 0 <= i -> Z.to_nat (i + 1) = S (Z.to_nat i))
    by (intros i Hi; lia).
  destruct m; unfold VecReader.at_same;
    cbn [VecReader.move VecReader.move_cursor
         VecReader.NextUtxoIn VecReader.NextUtxoOut VecReader.NextKernelIn
         VecReader.NextKernelOut Reader.NextUtxoIn Reader.NextUtxoOut
         Reader.NextKernelIn Reader.NextKernelOut
         VecReader.m_Txv VecReader.m_pIdx0 VecReader.m_pIdx1 VecReader.m_pIdx2
         VecReader.m_pIdx3 VecReader.m_pUtxoIn VecReader.m_pUtxoOut
         VecReader.m_pKernelIn VecReader.m_pKernelOut
         Reader.UtxoIn Reader.UtxoOut Reader.KernelIn Reader.KernelOut];
    rewrite ?Htxv, ?Hu by assumption.
  - rewrite C0, tl_skipn, Hn by lia. repeat split; try assumption; lia.
  - rewrite C1, tl_skipn, Hn by lia. repeat split; try assumption; lia.
  - rewrite C2, tl_skipn, Hn by lia. repeat split; try assumption; lia.
  - rewrite C3, tl_skipn, Hn by lia. repeat split; try assumption; lia.
Qed.

Lemma at_same_moves (txv : TxVectors.t) (moves : list VecReader.Move) :
  forall b r c,
    b + Z.of_nat (length moves) < 2 ^ 64 -> VecReader.at_same txv b r c ->
    VecReader.at_same txv (b + Z.of_nat (length moves))
            (fold_left VecReader.move moves r)
            (fold_left VecReader.move_cursor moves c).
Proof.
  induction moves as [| m moves IH]; intros b r c Hb H.
  - cbn [fold_left length]. rewrite Z.add_0_r. exact H.
  - cbn [fold_left]. cbn [length] in Hb |- *. rewrite Nat2Z.inj_succ in Hb |- *.
    replace (b + Z.succ (Z.of_nat (length moves)))
      with (b + 1 + Z.of_nat (length moves)) by lia.
    apply IH; [lia |]. apply at_same_move; [lia | exact H].
Qed.

(** X24. [TxVectors::Reader].  After [Reset] and any sequence of fewer than
    [2^64] calls of [NextUtxoIn], [NextUtxoOut], [NextKernelIn] and
    [NextKernelOut], the four pointers of the reader are the heads of what
    is left of the four vectors; past the end of a vector its pointer is
    null and stays null. *)
Theorem VecReader_follows_cursors (r : VecReader.t) (moves : list VecReader.Move) :
  Z.of_nat (length moves) < 2 ^ 64 ->
  VecReader.current (fold_left VecReader.move moves (VecReader.Reset r))
  = VecReader.current_cursor
      (fold_left VecReader.move_cursor moves
                 (TxVectors.get_Reader (VecReader.m_Txv r))).
Proof.
  intros Hlen.
  pose proof (at_same_moves (VecReader.m_Txv r) moves 0 _ _ ltac:(lia)
                (at_same_Reset r)) as H.
  destruct H as (_ & (I0 & I1 & I2 & I3) & (P0 & P1 & P2 & P3) & (C0 & C1 & C2 & C3)).
  unfold VecReader.current, VecReader.current_cursor,
    Reader.m_pUtxoIn, Reader.m_pUtxoOut, Reader.m_pKernelIn, Reader.m_pKernelOut.
  rewrite P0, P1, P2, P3, C0, C1, C2, C3.
  rewrite !get_FromVector_skipn by lia. reflexivity.
Qed.

Lemma fold_WriteIn (l : list Input.t) (w : TxVectors.t) :
  fold_left TxVectors.WriteIn l w
  = TxVectors.Build (TxVectors.m_vInputs w ++ l) (TxVectors.m_vOutputs w)
                    (TxVectors.m_vKernelsInput w) (TxVectors.m_vKernelsOutput w).
Proof.
  revert w. induction l as [| x l IH]; intros w; cbn [fold_left].
  - rewrite app_nil_r. destruct w; reflexivity.
  - rewrite IH. cbn. rewrite <- app_assoc. reflexivity.
Qed.

Lemma fold_WriteOut (l : list Output.t) (w : TxVectors.t) :
  fold_left TxVectors.WriteOut l w
  = TxVectors.Build (TxVectors.m_vInputs w) (TxVectors.m_vOutputs w ++ l)
                    (TxVectors.m_vKernelsInput w) (TxVectors.m_vKernelsOutput w).
Proof.
  revert w. induction l as [| x l IH]; intros w; cbn [fold_left].
  - rewrite app_nil_r. destruct w; reflexivity.
  - rewrite IH. cbn. rewrite <- app_assoc. reflexivity.
Qed.

Lemma fold_WriteIn_Kernel (l : list TxKernel.t) (w : TxVectors.t) :
  fold_left TxVectors.WriteIn_Kernel l w
  = TxVectors.Build (TxVectors.m_vInputs w) (TxVectors.m_vOutputs w)
                    (TxVectors.m_vKernelsInput w ++ l) (TxVectors.m_vKernelsOutput w).
Proof.
  revert w. induction l as [| x l IH]; intros w; cbn [fold_left].
  - rewrite app_nil_r. destruct w; reflexivity.
  - rewrite IH. cbn. rewrite <- app_assoc. reflexivity.
Qed.

Lemma fold_WriteOut_Kernel (l : list TxKernel.t) (w : TxVectors.t) :
  fold_left TxVectors.WriteOut_Kernel l w
  = TxVectors.Build (TxVectors.m_vInputs w) (TxVectors.m_vOutputs w)
                    (TxVectors.m_vKernelsInput w) (TxVectors.m_vKernelsOutput w ++ l).
Proof.
  revert w. induction l as [| x l IH]; intros w; cbn [fold_left].
  - rewrite app_nil_r. destruct w; reflexivity.
  - rewrite IH. cbn. rewrite <- app_assoc. reflexivity.
Qed.

(** [IWriter::Dump] appends the four streams of the reader to the four
    vectors written to; dumping the reader of some vectors into empty ones
    copies them. *)
Lemma Dump_copies (w txv : TxVectors.t) (r : Reader.t) :
  IWriter.Dump w r
  = TxVectors.Build (TxVectors.m_vInputs w ++ Reader.UtxoIn r)
                    (TxVectors.m_vOutputs w ++ Reader.UtxoOut r)
                    (TxVectors.m_vKernelsInput w ++ Reader.KernelIn r)
                    (TxVectors.m_vKernelsOutput w ++ Reader.KernelOut r) /\
  IWriter.Dump (TxVectors.Build [] [] [] []) (TxVectors.get_Reader txv) = txv.
Proof.
  assert (H : forall w r,
    IWriter.Dump w r
    = TxVectors.Build (TxVectors.m_vInputs w ++ Reader.UtxoIn r)
                      (TxVectors.m_vOutputs w ++ Reader.UtxoOut r)
                      (TxVectors.m_vKernelsInput w ++ Reader.KernelIn r)
                      (TxVectors.m_vKernelsOutput w ++ Reader.KernelOut r)).
  { intros w0 r0. unfold IWriter.Dump.
    rewrite fold_WriteIn, fold_WriteOut, fold_WriteIn_Kernel, fold_WriteOut_Kernel.
    reflexivity. }
  split; [apply H |]. rewrite H. destruct txv. reflexivity.
Qed.

End ReaderProps.

Lemma VecReader_follows_cursors_witness :
  VecReader.current (P := Toy.primitives)
    (fold_left VecReader.move
               [VecReader.UtxoIn; VecReader.UtxoOut; VecReader.UtxoIn]
               (VecReader.Reset Toy.vec_reader))
  = VecReader.current_cursor
      (fold_left VecReader.move_cursor
                 [VecReader.UtxoIn; VecReader.UtxoOut; VecReader.UtxoIn]
                 (TxVectors.get_Reader (VecReader.m_Txv Toy.vec_reader))).
Proof.
  apply (VecReader_follows_cursors (P := Toy.primitives) Toy.vec_reader
           [VecReader.UtxoIn; VecReader.UtxoOut; VecReader.UtxoIn]).
  cbn. lia.
Defined.

(** ** The first loop of Combine *)

Section CombineUtxoProps.
Context {P : Primitives}.

Lemma select_min_best {T : Type} (gt : T -> T -> bool) (cur : list (option T)) :
  forall i b, IWriter.select_min gt cur i (Some b) <> None.
Proof.
  induction cur as [| c cur IH]; intros i b; cbn [IWriter.select_min]; [discriminate |].
  destruct c as [pi |]; [| apply IH].
  destruct b as [pInp j]. destruct (gt pInp pi); apply IH.
Qed.

Lemma select_min_none {T : Type} (gt : T -> T -> bool) (cur : list (option T)) :
  forall i, IWriter.select_min gt cur i None = None -> Forall (fun c => c = None) cur.
Proof.
  induction cur as [| c cur IH]; intros i H; [constructor |].
  cbn [IWriter.select_min] in H. destruct c as [pi |].
  - exfalso. exact (select_min_best gt cur _ _ H).
  - constructor; [reflexivity | exact (IH _ H)].
Qed.

Lemma select_min_found {T : Type} (gt : T -> T -> bool) (cur : list (option T)) :
  forall i best x j,
    IWriter.select_min gt cur i best = Some (x, j) ->
    best = Some (x, j) \/
    exists k, j = (i + k)%nat /\ nth_error cur k = Some (Some x).
Proof.
  induction cur as [| c cur IH]; intros i best x j H; cbn [IWriter.select_min] in H.
  - left. exact H.
  - apply IH in H. destruct H as [H | (k & -> & Hk)].
    + destruct c as [pi |]; [| left; exact H].
      destruct best as [[pInp j0] |].
      * destruct (gt pInp pi); [| left; exact H].
        injection H as <- <-. right. exists O. split; [lia | reflexivity].
      * injection H as <- <-. right. exists O. split; [lia | reflexivity].
    + right. exists (S k). split; [lia | exact Hk].
Qed.

Lemma at_reader_In (ppR : list Reader.t) :
  forall j x,
    nth_error (map Reader.m_pUtxoIn ppR) j = Some (Some x) ->
    S (IWriter.pending_Utxo (IWriter.at_reader j Reader.NextUtxoIn ppR))
    = IWriter.pending_Utxo ppR /\
    map Reader.m_pUtxoOut (IWriter.at_reader j Reader.NextUtxoIn ppR)
    = map Reader.m_pUtxoOut ppR.
Proof.
  induction ppR as [| r ppR IH]; intros j x H; [destruct j; discriminate |].
  destruct j as [| j]; cbn [map nth_error IWriter.at_reader IWriter.pending_Utxo] in *.
  - split; [| reflexivity].
    unfold Reader.m_pUtxoIn in H. destruct r as [ins outs kin kout].
    cbn [Reader.UtxoIn Reader.NextUtxoIn Reader.UtxoOut] in *.
    destruct ins as [| i ins]; [discriminate |]. cbn [tl length]. lia.
  - destruct (IH _ _ H) as [Hp Hm]. split; [lia | rewrite Hm; reflexivity].
Qed.

Lemma at_reader_Out (ppR : list Reader.t) :
  forall j x,
    nth_error (map Reader.m_pUtxoOut ppR) j = Some (Some x) ->
    S (IWriter.pending_Utxo (IWriter.at_reader j Reader.NextUtxoOut ppR))
    = IWriter.pending_Utxo ppR.
Proof.
  induction ppR as [| r ppR IH]; intros j x H; [destruct j; discriminate |].
  destruct j as [| j]; cbn [map nth_error IWriter.at_reader IWriter.pending_Utxo] in *.
  - unfold Reader.m_pUtxoOut in H. destruct r as [ins outs kin kout].
    cbn [Reader.UtxoIn Reader.NextUtxoOut Reader.UtxoOut] in *.
    destruct outs as [| o outs]; [discriminate |]. cbn [tl length]. lia.
  - pose proof (IH _ _ H). lia.
Qed.

Lemma found_at_start {T : Type} (gt : T -> T -> bool) (cur : list (option T))
    (x : T) (j : nat) :
  IWriter.select_min gt cur 0 None = Some (x, j) ->
  nth_error cur j = Some (Some x).
Proof.
  intros H. apply select_min_found in H.
  destruct H as [H | (k & -> & Hk)]; [discriminate | exact Hk].
Qed.

Lemma all_passed (ppR : list Reader.t) :
  Forall (fun c => c = None) (map Reader.m_pUtxoIn ppR) ->
  Forall (fun c => c = None) (map Reader.m_pUtxoOut ppR) ->
  IWriter.pending_Utxo ppR = O.
Proof.
  induction ppR as [| r ppR IH]; intros Hin Hout; [reflexivity |].
  cbn [map] in Hin, Hout. inversion Hin; subst. inversion Hout; subst.
  cbn [IWriter.pending_Utxo]. rewrite IH by assumption.
  unfold Reader.m_pUtxoIn, Reader.m_pUtxoOut in *.
  destruct (Reader.UtxoIn r); [| discriminate].
  destruct (Reader.UtxoOut r); [reflexivity | discriminate].
Qed.

(** X25. [IWriter::Combine], the loop over inputs and outputs.  With the
    stop flag clear the loop ends: every turn passes at least one input or
    output of some reader, so after at most as many turns as there are
    inputs and outputs left, and one more to see it, all readers are at
    the end of both streams. *)
Theorem Combine_Utxo_finishes (fuel : nat) :
  forall (ppR : list Reader.t) (w : TxVectors.t),
    (IWriter.pending_Utxo ppR < fuel)%nat ->
    exists ppR' w',
      IWriter.Combine_Utxo fuel false ppR w = IWriter.Finished (ppR', w') /\
      IWriter.pending_Utxo ppR' = O.
Proof.
  induction fuel as [| fuel IH]; intros ppR w Hfuel; [lia |].
  cbn [IWriter.Combine_Utxo].
  destruct (IWriter.select_min TxBase.Input_gt (map Reader.m_pUtxoIn ppR) 0 None)
    as [[inp iInp] |] eqn:Hin;
    destruct (IWriter.select_min TxBase.Output_gt (map Reader.m_pUtxoOut ppR) 0 None)
    as [[out iOut] |] eqn:Hout.
  - apply found_at_start in Hin. apply found_at_start in Hout.
    destruct (at_reader_In _ _ _ Hin) as [Hp1 Hkeep].
    destruct (Input.cmp_CaM inp (Output.base out) >? 0).
    + apply IH. pose proof (at_reader_Out _ _ _ Hout). lia.
    + destruct (Input.cmp_CaM inp (Output.base out) =? 0).
      * apply IH. rewrite <- Hkeep in Hout.
        pose proof (at_reader_Out _ _ _ Hout). lia.
      * apply IH. lia.
  - apply found_at_start in Hin.
    destruct (at_reader_In _ _ _ Hin) as [Hp1 _]. apply IH. lia.
  - apply found_at_start in Hout.
    pose proof (at_reader_Out _ _ _ Hout). apply IH. lia.
  - exists ppR, w. split; [reflexivity |].
    apply all_passed; eapply select_min_none; eassumption.
Qed.

End CombineUtxoProps.

Lemma Combine_Utxo_finishes_witness :
  exists ppR' w',
    IWriter.Combine_Utxo (P := Toy.primitives) 5 false
      [TxVectors.get_Reader Toy.tx_through; Toy.body_reader] Toy.empty_tx
    = IWriter.Finished (ppR', w') /\
    IWriter.pending_Utxo ppR' = O.
Proof.
  apply (Combine_Utxo_finishes (P := Toy.primitives) 5
           [TxVectors.get_Reader Toy.tx_through; Toy.body_reader] Toy.empty_tx).
  cbn. lia.
Defined.

(** ** Transaction keys and merged bodies *)

Lemma fold_lxor_perm {A : Type} (f : A -> Z) (l l' : list A) :
  Permutation l l' ->
  forall key,
    fold_left (fun key x => Z.lxor key (f x)) l key
    = fold_left (fun key x => Z.lxor key (f x)) l' key.
Proof.
  induction 1 as [| x l l' _ IH | x y l | l l' l'' _ IH1 _ IH2]; intros key;
    cbn [fold_left].
  - reflexivity.
  - apply IH.
  - f_equal. rewrite !Z.lxor_assoc. f_equal. apply Z.lxor_comm.
  - rewrite IH1. apply IH2.
Qed.

Section KeyProps.
Context {P : Primitives}.
Variable Scalar_m_Value : Scalar -> Z.
Variable Point_m_X : Point -> Z.

(** [Transaction::get_Key] of a transaction without offset does not depend
    on the order of its inputs, outputs and output kernels; with an offset
    the key is the offset. *)
Lemma get_Key_any_order (m_Offset : Scalar) (txv txv' : TxVectors.t) :
  Permutation (TxVectors.m_vInputs txv) (TxVectors.m_vInputs txv') ->
  Permutation (TxVectors.m_vOutputs txv) (TxVectors.m_vOutputs txv') ->
  Permutation (TxVectors.m_vKernelsOutput txv) (TxVectors.m_vKernelsOutput txv') ->
  Transaction.get_Key Scalar_m_Value Point_m_X (Transaction.Build m_Offset txv)
  = Transaction.get_Key Scalar_m_Value Point_m_X (Transaction.Build m_Offset txv') /\
  (Scalar_m_Value m_Offset <> 0 ->
   Transaction.get_Key Scalar_m_Value Point_m_X (Transaction.Build m_Offset txv)
   = Scalar_m_Value m_Offset).
Proof.
  intros Hin Hout Hk. unfold Transaction.get_Key.
  cbn [Transaction.m_Offset Transaction.m_Txv]. split.
  - destruct (Scalar_m_Value m_Offset =? 0); [| reflexivity].
    rewrite (fold_lxor_perm _ _ _ Hin), (fold_lxor_perm _ _ _ Hout).
    apply (fold_lxor_perm _ _ _ Hk).
  - intros Hnz. destruct (Z.eqb_spec (Scalar_m_Value m_Offset) 0); [contradiction | reflexivity].
Qed.

End KeyProps.

Section BodyMergeProps.
Context {P : Primitives}.
Variable Scalar_add : Scalar -> Scalar -> Scalar.
Variable Scalar_Zero : Scalar.
Hypothesis Scalar_add_assoc :
  forall a b c, Scalar_add a (Scalar_add b c) = Scalar_add (Scalar_add a b) c.
Hypothesis Scalar_add_0_r : forall a, Scalar_add a Scalar_Zero = a.

(** X26. [Block::BodyBase::Merge] and [ZeroInit].  Given that the addition
    of scalars is associative with the zero scalar as unit, merging bodies
    is associative, merging a zero-initialized body changes nothing, and
    the subsidy of the merged body is the sum of the subsidies modulo
    [2^128]. *)
Theorem BodyBase_Merge_assoc (a b c : BodyBase.t) :
  AmountBig.wf (BodyBase.m_Subsidy a) -> AmountBig.wf (BodyBase.m_Subsidy b) ->
  AmountBig.wf (BodyBase.m_Subsidy c) ->
  BodyBase.Merge Scalar_add (BodyBase.Merge Scalar_add a b) c
  = BodyBase.Merge Scalar_add a (BodyBase.Merge Scalar_add b c) /\
  BodyBase.Merge Scalar_add a (BodyBase.ZeroInit Scalar_Zero) = a /\
  AmountBig.value (BodyBase.m_Subsidy (BodyBase.Merge Scalar_add a b))
  = (AmountBig.value (BodyBase.m_Subsidy a) + AmountBig.value (BodyBase.m_Subsidy b))
    mod 2 ^ 128.
Proof.
  intros Ha Hb Hc. unfold BodyBase.Merge, BodyBase.ZeroInit.
  cbn [BodyBase.m_Offset BodyBase.m_Subsidy BodyBase.m_SubsidyClosing].
  repeat split.
  - f_equal.
    + symmetry. apply Scalar_add_assoc.
    + rewrite !add_of_value by (try apply add_wf; assumption).
      rewrite of_value_add_mod.
      rewrite (Z.add_comm (AmountBig.value (BodyBase.m_Subsidy a))
                          (AmountBig.value (AmountBig.of_value _))).
      rewrite of_value_add_mod. f_equal. lia.
    + destruct (BodyBase.m_SubsidyClosing c), (BodyBase.m_SubsidyClosing b); reflexivity.
  - rewrite Scalar_add_0_r, add_Zero_r by exact Ha. destruct a; reflexivity.
  - rewrite add_of_value by assumption.
    unfold AmountBig.of_value, AmountBig.value. cbn [AmountBig.Lo AmountBig.Hi].
    change (2 ^ 128) with (2 ^ 64 * 2 ^ 64).
    rewrite Z.rem_mul_r by lia. lia.
Qed.

End BodyMergeProps.

Lemma BodyBase_Merge_assoc_witness :
  BodyBase.Merge (P := Toy.primitives) Z.add
    (BodyBase.Merge (P := Toy.primitives) Z.add Toy.body Toy.body) Toy.body
  = BodyBase.Merge (P := Toy.primitives) Z.add Toy.body
      (BodyBase.Merge (P := Toy.primitives) Z.add Toy.body Toy.body) /\
  BodyBase.Merge (P := Toy.primitives) Z.add Toy.body
    (BodyBase.ZeroInit (P := Toy.primitives) 0) = Toy.body /\
  AmountBig.value
    (BodyBase.m_Subsidy (BodyBase.Merge (P := Toy.primitives) Z.add Toy.body Toy.body))
  = (AmountBig.value (BodyBase.m_Subsidy Toy.body)
     + AmountBig.value (BodyBase.m_Subsidy Toy.body)) mod 2 ^ 128.
Proof.
  apply (BodyBase_Merge_assoc (P := Toy.primitives) Z.add 0 Z.add_assoc Z.add_0_r
           Toy.body Toy.body Toy.body);
    unfold AmountBig.wf; cbn; lia.
Defined.

(** ** Cropping a chain-work proof *)

Section CropProps.
Context {P : Primitives} {CP : ChainPrimitives} {DC : DifficultyConsts}.
Variable rules : Rules.

Lemma verify_loop_index (fuel : nat) (proof : ChainWorkProof.t)
    (sRoot : SystemState.Full) (rest : list SystemState.Full) :
  forall (s0 : SystemState.Full) (iState : nat) (samp : Sampler.t) (dLoPrev : Z)
         (ver : Verifier) (iState' : nat) (ver' : Verifier),
    ChainWorkProof.verify_loop fuel proof sRoot s0 rest iState samp dLoPrev ver
      = ChainWorkProof.Ret (Some (iState', ver')) ->
    exists k : nat, iState' = (iState + k)%nat /\ (k <= length rest)%nat.
Proof.
  induction rest as [| s rest IH];
    intros s0 iState samp dLoPrev ver iState' ver';
    cbn [ChainWorkProof.verify_loop];
    destruct (Sampler.SamplePoint fuel samp 0) as [[[[|] dSamp] samp1] |];
    try discriminate.
  - intros Heq. inversion Heq; subst. exists O. split; [lia | cbn; lia].
  - destruct (dSamp >=? SystemState.m_ChainWork s); [discriminate |].
    set (dLo := Difficulty.Dec _ _).
    destruct (dSamp <? dLo); [discriminate |].
    assert (Hnext : forall samp2 ver2,
      ChainWorkProof.verify_loop fuel proof sRoot s rest (S iState) samp2 dLo ver2
        = ChainWorkProof.Ret (Some (iState', ver')) ->
      exists k : nat, iState' = (iState + k)%nat /\ (k <= length (s :: rest))%nat).
    { intros samp2 ver2 Hrun.
      destruct (IH _ _ _ _ _ _ _ Hrun) as (k & -> & Hk).
      exists (S k). split; [lia | cbn; lia]. }
    destruct (u64 (SystemState.m_Height s + 1) =? SystemState.m_Height s0).
    + destruct (SystemState.m_Prev s0 =? SystemState.get_Hash s); [| discriminate].
      destruct (SystemState.m_ChainWork s =? dLoPrev); [| discriminate].
      cbn [negb]. apply Hnext.
    + destruct (SystemState.m_Height s >=? SystemState.m_Height s0); [discriminate |].
      destruct (SystemState.m_ChainWork s >=? dLoPrev); [discriminate |].
      destruct (Verifier_bVerify _); [| discriminate].
      cbn [negb]. apply Hnext.
  - intros Heq. inversion Heq; subst. exists O. split; [lia | cbn; lia].
Qed.

Lemma IsValidInternal_index (fuel : nat) (proof : ChainWorkProof.t) (iState iHash : nat) :
  ChainWorkProof.IsValidInternal rules fuel proof
    = ChainWorkProof.Ret (Some (iState, iHash)) ->
  (1 <= iState <= length (ChainWorkProof.m_vStates proof))%nat.
Proof.
  unfold ChainWorkProof.IsValidInternal.
  destruct (ChainWorkProof.m_vStates proof) as [| sRoot rest]; [discriminate |].
  destruct (negb _); [discriminate |].
  destruct (_ >=? _); [discriminate |].
  destruct (ChainWorkProof.verify_loop _ _ _ _ _ _ _ _ _)
    as [[[i ver] |] | |] eqn:Hloop; try discriminate.
  intros H. inversion H; subst.
  destruct (verify_loop_index _ _ _ _ _ _ _ _ _ _ _ Hloop) as (k & -> & Hk).
  cbn [length]. lia.
Qed.

(** X27. [Block::ChainWorkProof::Crop].  A crop that succeeds keeps a
    prefix of the states that is not empty, so the tip stays and [resize]
    adds no state; the lower bound and the live root are untouched.  A
    proof that [IsValid] accepts is left exactly as it is. *)
Theorem Crop_keeps_a_prefix (fuel : nat) (fill : SystemState.Full)
    (proof proof' : ChainWorkProof.t) :
  ChainWorkProof.Crop rules fuel fill proof = ChainWorkProof.Ret (Some proof') ->
  (exists n : nat,
     (1 <= n <= length (ChainWorkProof.m_vStates proof))%nat /\
     ChainWorkProof.m_vStates proof' = firstn n (ChainWorkProof.m_vStates proof)) /\
  hd_error (ChainWorkProof.m_vStates proof')
  = hd_error (ChainWorkProof.m_vStates proof) /\
  ChainWorkProof.m_LowerBound proof' = ChainWorkProof.m_LowerBound proof /\
  ChainWorkProof.m_hvRootLive proof' = ChainWorkProof.m_hvRootLive proof /\
  (ChainWorkProof.IsValid rules fuel proof = ChainWorkProof.Ret true ->
   proof' = proof).
Proof.
  unfold ChainWorkProof.Crop, ChainWorkProof.IsValid.
  destruct (ChainWorkProof.IsValidInternal rules fuel proof)
    as [[[iState iHash] |] | |] eqn:Hint; try discriminate.
  intros H. inversion H; subst. clear H.
  pose proof (IsValidInternal_index _ _ _ _ Hint) as Hi.
  cbn [ChainWorkProof.m_vStates ChainWorkProof.m_LowerBound ChainWorkProof.m_hvRootLive].
  assert (Hresize : ChainWorkProof.resize iState fill (ChainWorkProof.m_vStates proof)
                    = firstn iState (ChainWorkProof.m_vStates proof)).
  { unfold ChainWorkProof.resize.
    replace (iState - length (ChainWorkProof.m_vStates proof))%nat with O by lia.
    apply app_nil_r. }
  rewrite Hresize.
  split; [exists iState; split; [exact Hi | reflexivity] |].
  split.
  { destruct (ChainWorkProof.m_vStates proof) as [| s l]; [cbn in Hi; lia |].
    destruct iState as [| n]; [lia | reflexivity]. }
  split; [reflexivity |]. split; [reflexivity |].
  intros Hv. inversion Hv as [Hb]. apply andb_prop in Hb. destruct Hb as [Hs Hh].
  apply Nat.eqb_eq in Hs. apply Nat.eqb_eq in Hh. subst iState iHash.
  unfold ChainWorkProof.resize.
  rewrite !firstn_all, Nat.sub_diag. cbn [repeat]. rewrite app_nil_r.
  destruct proof; reflexivity.
Qed.

End CropProps.

(** ** The sampler, byte by byte *)

Section SamplerBytes.
Context {P : Primitives} {CP : ChainPrimitives} {DC : DifficultyConsts}.

(** X28. [Sampler::TakeFraction] and [Sampler::FindOrderOf].  The byte
    loop of [TakeFraction] shifts the 256-bit number right by seven bits.
    [FindOrderOf] gives 0 for zero and otherwise the number of bits up to
    the highest one set: [2^(n-1) <= v < 2^n]. *)
Theorem Sampler_byte_routines (v : Z) :
  0 <= v < 2 ^ 256 ->
  Sampler.TakeFraction v = Z.shiftr v 7 /\
  (v = 0 -> Sampler.FindOrderOf v = 0) /\
  (0 < v ->
   1 <= Sampler.FindOrderOf v <= 256 /\
   2 ^ (Sampler.FindOrderOf v - 1) <= v < 2 ^ Sampler.FindOrderOf v).
Proof.
  intros Hv. rewrite TakeFraction_spec, FindOrderOf_spec.
  unfold uintBig.norm, uintBig.modulus, uintBig.nBits.
  rewrite Z.mod_small by exact Hv.
  rewrite Z.shiftr_div_pow2 by lia. change (2 ^ 7) with 128.
  split; [reflexivity |]. split.
  - intros ->. reflexivity.
  - intros Hpos. destruct (Z.eqb_spec v 0); [lia |].
    pose proof (Z.log2_spec v Hpos) as Hlog.
    pose proof (Z.log2_nonneg v) as Hnn.
    assert (Z.log2 v < 256) by (apply Z.log2_lt_pow2; lia).
    replace (Z.log2 v + 1 - 1) with (Z.log2 v) by lia.
    replace (Z.log2 v + 1) with (Z.succ (Z.log2 v)) by lia.
    repeat split; lia.
Qed.


Lemma SamplePoint_accepted (fuel : nat) (samp : Sampler.t) (out0 : Z)
    (random : Z) (oracle' : Oracle) :
  Sampler.first_accepted fuel (Sampler.m_Oracle samp)
    (Z.log2 (Sampler.slice samp) + 1) (Sampler.slice samp) = Some (random, oracle') ->
  Sampler.SamplePoint fuel samp out0
  = (let o := uintBig.norm (Sampler.m_Begin samp - Sampler.slice samp + random) in
     if (o <? Sampler.m_LowerBound samp) || (o >=? Sampler.m_Begin samp)
     then Some (false, o, Sampler.set_Oracle samp oracle')
     else Some (true, o,
                Sampler.Build oracle'
                  (if Sampler.slice samp >=? Sampler.m_Begin samp then 0
                   else uintBig.norm (Sampler.m_Begin samp - Sampler.slice samp))
                  (Sampler.m_End samp) (Sampler.m_LowerBound samp))).
Proof.
  intros Hdraw.
  pose proof (slice_range samp) as Hrange.
  unfold Sampler.SamplePoint.
  pose proof (SamplePoint_range samp) as Hslice. cbn zeta in Hslice.
  cbn zeta. rewrite Hslice.
  rewrite UnfiromRandom_spec by exact Hrange. rewrite Hdraw.
  cbn [Sampler.set_Oracle Sampler.set_Begin Sampler.m_Begin Sampler.m_End
       Sampler.m_LowerBound Sampler.m_Oracle].
  assert (Hout : uintBig.add (uintBig.add random (Sampler.m_Begin samp))
                             (uintBig.Negate (Sampler.slice samp))
                 = uintBig.norm (Sampler.m_Begin samp - Sampler.slice samp + random)).
  { unfold uintBig.add, uintBig.Negate, uintBig.norm.
    rewrite Z.add_mod_idemp_l, Z.add_mod_idemp_r by (cbn; lia). f_equal. lia. }
  assert (Hbegin : uintBig.add (Sampler.m_Begin samp) (uintBig.Negate (Sampler.slice samp))
                   = uintBig.norm (Sampler.m_Begin samp - Sampler.slice samp)).
  { unfold uintBig.add, uintBig.Negate, uintBig.norm.
    rewrite Z.add_mod_idemp_r by (cbn; lia). f_equal. }
  rewrite Hout, Hbegin.
  destruct (_ || _); [reflexivity |].
  destruct (Sampler.slice samp >=? Sampler.m_Begin samp); reflexivity.
Qed.

Lemma SamplePoint_no_draw (fuel : nat) (samp : Sampler.t) (out0 : Z) :
  Sampler.first_accepted fuel (Sampler.m_Oracle samp)
    (Z.log2 (Sampler.slice samp) + 1) (Sampler.slice samp) = None ->
  Sampler.SamplePoint fuel samp out0 = None.
Proof.
  intros Hdraw.
  pose proof (slice_range samp) as Hrange.
  unfold Sampler.SamplePoint.
  pose proof (SamplePoint_range samp) as Hslice. cbn zeta in Hslice.
  cbn zeta. rewrite Hslice.
  rewrite UnfiromRandom_spec by exact Hrange. rewrite Hdraw. reflexivity.
Qed.

(** X30. [Sampler::SamplePoint] makes progress.  Each sample that succeeds
    lies from [m_LowerBound] up and strictly below [m_Begin], and lowers
    [m_Begin] strictly; [m_End] and [m_LowerBound] stay. *)
Theorem SamplePoint_descends (fuel : nat) (samp samp' : Sampler.t) (out0 out : Z) :
  0 <= Sampler.m_Begin samp < 2 ^ 256 ->
  Sampler.SamplePoint fuel samp out0 = Some (true, out, samp') ->
  0 <= Sampler.m_Begin samp' < Sampler.m_Begin samp /\
  Sampler.m_LowerBound samp <= out < Sampler.m_Begin samp /\
  Sampler.m_End samp' = Sampler.m_End samp /\
  Sampler.m_LowerBound samp' = Sampler.m_LowerBound samp.
Proof.
  intros Hb H.
  pose proof (slice_range samp) as Hrange.
  destruct (Sampler.first_accepted fuel (Sampler.m_Oracle samp)
              (Z.log2 (Sampler.slice samp) + 1) (Sampler.slice samp))
    as [[random oracle'] |] eqn:Hdraw.
  - assert (Hrnd : 0 <= random < Sampler.slice samp).
    { apply (first_accepted_range fuel (Sampler.m_Oracle samp)
               (Z.log2 (Sampler.slice samp) + 1) (Sampler.slice samp) random oracle');
        [| exact Hdraw].
      pose proof (Z.log2_nonneg (Sampler.slice samp)). lia. }
    rewrite (SamplePoint_accepted fuel samp out0 random oracle' Hdraw) in H.
    cbv zeta in H.
    pose proof (norm_range (Sampler.m_Begin samp - Sampler.slice samp + random)) as Ho.
    pose proof (norm_range (Sampler.m_Begin samp - Sampler.slice samp)) as Hn.
    assert (Hsmall : Sampler.slice samp < Sampler.m_Begin samp ->
                     uintBig.norm (Sampler.m_Begin samp - Sampler.slice samp)
                     = Sampler.m_Begin samp - Sampler.slice samp).
    { intros Hlt. apply Z.mod_small. change uintBig.modulus with (2 ^ 256). lia. }
    set (o := uintBig.norm (Sampler.m_Begin samp - Sampler.slice samp + random)) in *.
    destruct (Z.ltb_spec o (Sampler.m_LowerBound samp)) as [Hlo | Hlo];
      [discriminate |].
    rewrite Z.geb_leb in H.
    destruct (Z.leb_spec (Sampler.m_Begin samp) o) as [Hhi | Hhi];
      [discriminate |].
    cbn [orb] in H. inversion H; subst out samp'. clear H.
    cbn [Sampler.m_Begin Sampler.m_End Sampler.m_LowerBound].
    rewrite Z.geb_leb.
    destruct (Z.leb_spec (Sampler.m_Begin samp) (Sampler.slice samp)) as [Hge | Hlt].
    + repeat split; lia.
    + rewrite (Hsmall Hlt). repeat split; lia.
  - rewrite (SamplePoint_no_draw fuel samp out0 Hdraw) in H. discriminate.
Qed.

End SamplerBytes.

Lemma Crop_keeps_a_prefix_witness :
  (exists n : nat,
     (1 <= n <= length (ChainWorkProof.m_vStates Toy.work_proof))%nat /\
     ChainWorkProof.m_vStates Toy.work_proof
     = firstn n (ChainWorkProof.m_vStates Toy.work_proof)) /\
  hd_error (ChainWorkProof.m_vStates Toy.work_proof)
  = hd_error (ChainWorkProof.m_vStates Toy.work_proof) /\
  ChainWorkProof.m_LowerBound Toy.work_proof = ChainWorkProof.m_LowerBound Toy.work_proof /\
  ChainWorkProof.m_hvRootLive Toy.work_proof = ChainWorkProof.m_hvRootLive Toy.work_proof /\
  (ChainWorkProof.IsValid (P := Toy.primitives) (CP := Toy.chain)
     (DC := Toy.difficulty) Toy.rules 300 Toy.work_proof = ChainWorkProof.Ret true ->
   Toy.work_proof = Toy.work_proof).
Proof.
  apply (Crop_keeps_a_prefix (P := Toy.primitives) (CP := Toy.chain)
           (DC := Toy.difficulty) Toy.rules 300 Toy.state1 Toy.work_proof
           Toy.work_proof).
  vm_compute. reflexivity.
Defined.

Lemma Sampler_byte_routines_witness :
  Sampler.TakeFraction 1000 = Z.shiftr 1000 7 /\
  (1000 = 0 -> Sampler.FindOrderOf 1000 = 0) /\
  (0 < 1000 ->
   1 <= Sampler.FindOrderOf 1000 <= 256 /\
   2 ^ (Sampler.FindOrderOf 1000 - 1) <= 1000 < 2 ^ Sampler.FindOrderOf 1000).
Proof.
  apply (Sampler_byte_routines 1000). lia.
Defined.


Lemma SamplePoint_descends_witness :
  0 <= Sampler.m_Begin (Sampler.Build (P := Toy.primitives) 0 996 1512 0)
    < Sampler.m_Begin Toy.sampler /\
  Sampler.m_LowerBound Toy.sampler <= 997 < Sampler.m_Begin Toy.sampler /\
  Sampler.m_End (Sampler.Build (P := Toy.primitives) 0 996 1512 0)
  = Sampler.m_End Toy.sampler /\
  Sampler.m_LowerBound (Sampler.Build (P := Toy.primitives) 0 996 1512 0)
  = Sampler.m_LowerBound Toy.sampler.
Proof.
  apply (SamplePoint_descends (P := Toy.primitives) 5 Toy.sampler
           (Sampler.Build (P := Toy.primitives) 0 996 1512 0) 0 997).
  - cbn. lia.
  - reflexivity.
Defined.
